(** * RAJA loop dispatch and reductions: Cilk Plus and OpenMP back ends

    A shallow embedding of
    - [includes/RAJA/forall_cilk_icc.hxx]: the [cilk_for] iteration templates
      [forall], [forall_sum], [forall_minloc], [forall_maxloc] over ranges,
      strided ranges, indirection arrays and hybrid index sets;
    - [include/RAJA/policy/openmp/forall_param.hpp]: the OpenMP [forall_impl]
      overloads that carry a reduction parameter pack.

    Conventions.
    - [Index_type] is a mathematical integer.  The reduced type [T] of
      [forall_sum] is a parameter: any type with a [0] and a [+=].  The
      reduced type of [forall_minloc] and [forall_maxloc] is only compared
      and copied; it is taken to be the integers with their order.
    - A function returns [None] where the source has no defined result: a
      read or write outside an array, a [static_cast] to the wrong segment
      class, a loop that does not terminate.
    - A loop body is a state transformer.  The caller's memory it captures is
      an abstract world [W]; the temporaries it receives through pointers are
      explicit arguments and results.
    - A parallel loop is run strand by strand: a strand is a stretch of code
      without parallel control, such as one iteration of a [cilk_for] whose
      body holds no other [cilk_for].  A strand runs to completion; the run
      time picks the order of the strands and the worker of each.  It is
      the strands that interleave, not the memory accesses inside them: two
      strands that update the same temporary do so one after the other, in
      either order. *)

From Stdlib Require Import ZArith Lia String Ascii.
From stdpp Require Import base tactics option list list_numbers.

Local Open Scope Z_scope.

Abbreviation Index_type := Z (only parsing).

(** ** Worker teams and parallel loops *)

(** What the source asks of the threading run time: the number of workers
    ([__cilkrts_get_nworkers()], the OpenMP team size) and, for a parallel
    loop over the iterations [its], the order in which the iterations are
    executed together with the worker that runs each of them
    ([__cilkrts_get_worker_number()] inside the body). *)
Record runtime := {
  nworkers : nat;
  schedule : list Z → list (nat * Z)
}.

(** A run time is [fair] when every loop executes each of its iterations once
    and on a worker of the team.  Nothing else is assumed about order or
    placement. *)
Definition fair (rt : runtime) : Prop :=
  ∀ its, (schedule rt its).*2 ≡ₚ its ∧
         Forall (λ p, (p.1 < nworkers rt)%nat) (schedule rt its).

(** The serial elision: one worker, iterations in program order. *)
Definition serial : runtime :=
  {| nworkers := 1; schedule := fmap (pair 0%nat) |}.

(** Two workers, iterations in reverse order, placed by position parity. *)
Definition reversed_pair : runtime :=
  {| nworkers := 2;
     schedule := λ its, imap (λ k ii, (Nat.modulo k 2, ii)) (reverse its) |}.

Fixpoint run_iterations {I S : Type} (iter : nat → I → S → option S)
    (sched : list (nat * I)) (s : S) : option S :=
  match sched with
  | [] => Some s
  | (wk, ii) :: sched => s' ← iter wk ii s; run_iterations iter sched s'
  end.

(** [cilk_for] and [#pragma omp parallel for]: the iterations of [its], each
    run to completion, in the order and on the workers the run time picks. *)
Definition parallel_for {S : Type} (rt : runtime) (its : list Z)
    (iter : nat → Z → S → option S) (s : S) : option S :=
  run_iterations iter (schedule rt its) s.

(** ** Parallel loops whose iterations hold a parallel loop

    An iteration of the outer loop that runs an inner [cilk_for] is not one
    strand but several: the code before the inner loop ([Enter]), each
    iteration of the inner loop ([Inner]), and the code after the inner
    loop has synchronized ([Exit]).  The strands of different outer
    iterations interleave.  An outer iteration that starts no inner loop is
    entered and left with nothing in between. *)
Inductive strand :=
  | Enter (isi : nat)
  | Inner (isi k : nat)
  | Exit (isi : nat).

(** How far an outer iteration has come: not entered; entered, with the
    inner iterations already run; left. *)
Inductive phase :=
  | Fresh
  | Running (ran : list nat)
  | Finished.

(** The strands an execution may run next, for outer iterations with
    [counts] inner iterations each: an iteration is entered once, then each
    of its inner iterations runs once, then it is left. *)
Definition legal_step (counts : list nat) (ps : list phase) (e : strand)
    : option (list phase) :=
  match e with
  | Enter isi =>
      match ps !! isi with
      | Some Fresh => Some (<[isi := Running []]> ps)
      | _ => None
      end
  | Inner isi k =>
      match ps !! isi, counts !! isi with
      | Some (Running ran), Some n =>
          if bool_decide ((k < n)%nat ∧ k ∉ ran)
          then Some (<[isi := Running (k :: ran)]> ps) else None
      | _, _ => None
      end
  | Exit isi =>
      match ps !! isi, counts !! isi with
      | Some (Running ran), Some n =>
          if bool_decide (length ran = n)
          then Some (<[isi := Finished]> ps) else None
      | _, _ => None
      end
  end.

Fixpoint legal_from (counts : list nat) (ps : list phase)
    (tr : list strand) : Prop :=
  match tr with
  | [] => Forall (λ p, p = Finished) ps
  | e :: tr =>
      match legal_step counts ps e with
      | Some ps => legal_from counts ps tr
      | None => False
      end
  end.

(** The run time of a nested loop: the team size and, for outer iterations
    with [counts] inner iterations each, the strands in the order in which
    they are executed, each with the worker that runs it. *)
Record nested_runtime := {
  nested_nworkers : nat;
  strands : list nat → list (nat * strand)
}.

(** A nested run time is fair when it runs a complete legal interleaving of
    the strands on workers of the team. *)
Definition nested_fair (nrt : nested_runtime) : Prop :=
  ∀ counts,
    legal_from counts (replicate (length counts) Fresh)
      (strands nrt counts).*2 ∧
    Forall (λ p, (p.1 < nested_nworkers nrt)%nat) (strands nrt counts).

(** One worker: the outer iterations one after the other, the inner
    iterations of each in program order. *)
Definition serial_strands (counts : list nat) : list (nat * strand) :=
  mjoin (imap (λ isi n,
                 pair 0%nat <$>
                   (Enter isi :: (Inner isi <$> seq 0 n) ++ [Exit isi]))
              counts).

Definition serial_nested : nested_runtime :=
  {| nested_nworkers := 1; strands := serial_strands |}.

(** ** Iteration spaces *)

(** [for (ii = begin; ii < end; ++ii)] *)
Definition range_indices (begin end_ : Index_type) : list Index_type :=
  seqZ begin (end_ - begin).

(** [for (ii = begin; ii < end; ii += stride)], unrolled at most [fuel]
    times; [None] when the loop condition still holds after that. *)
Fixpoint stride_loop (fuel : nat) (ii end_ stride : Index_type)
    : option (list Index_type) :=
  if bool_decide (ii < end_) then
    match fuel with
    | O => None
    | S fuel => cons ii <$> stride_loop fuel (ii + stride) end_ stride
    end
  else Some [].

(** [end - begin] rounds are enough whenever the loop terminates at all. *)
Definition range_stride_indices (begin end_ stride : Index_type)
    : option (list Index_type) :=
  stride_loop (Z.to_nat (end_ - begin)) begin end_ stride.

(** [idx[k]] for [k = 0 .. len-1]; reading past the array is undefined. *)
Definition indirection_indices (idx : list Index_type) (len : Index_type)
    : option (list Index_type) :=
  mapM (λ k, idx !! Z.to_nat k) (seqZ 0 len).

(** ** Index sets (the iteration contract of ISet.hxx) *)

Record RangeISet := { getBegin : Index_type; getEnd : Index_type }.

Record RangeStrideISet := {
  rs_getBegin : Index_type; rs_getEnd : Index_type; getStride : Index_type
}.

Record UnstructuredISet := { getIndex : list Index_type }.

Definition getLength (iset : UnstructuredISet) : Index_type :=
  Z.of_nat (length (getIndex iset)).

(** [HybridISet::SegmentType].  The three named enumerators occur in the
    source; [_Unknown_] stands for every other discriminator value. *)
Inductive SegmentType := _Range_ | _RangeStride_ | _Unstructured_ | _Unknown_.

(** The object behind [Segment::m_segment], a [void*] in the source. *)
Inductive ISet :=
  | IsRange (iset : RangeISet)
  | IsRangeStride (iset : RangeStrideISet)
  | IsUnstructured (iset : UnstructuredISet).

Record Segment := { m_type : SegmentType; m_segment : ISet }.

Abbreviation HybridISet := (list Segment).

Definition getNumSegments (hset : HybridISet) : Z := Z.of_nat (length hset).
Definition getSegment (hset : HybridISet) (isi : Z) : option Segment :=
  hset !! Z.to_nat isi.

(** [static_cast<const RangeISet*>(seg.m_segment)]: defined only when the
    segment really holds that class. *)
Definition as_RangeISet (seg : Segment) : option RangeISet :=
  match m_segment seg with IsRange r => Some r | _ => None end.
Definition as_UnstructuredISet (seg : Segment) : option UnstructuredISet :=
  match m_segment seg with IsUnstructured u => Some u | _ => None end.

(** The number of iterations of the inner loop that the [switch] of the
    segmented reductions starts for a segment: those of the flat loop over
    a range or unstructured segment, none in the [default] branch. *)
Definition inner_count (seg : Segment) : nat :=
  match m_type seg with
  | _Range_ =>
      match as_RangeISet seg with
      | Some r => length (range_indices (getBegin r) (getEnd r))
      | None => 0
      end
  | _Unstructured_ =>
      match as_UnstructuredISet seg with
      | Some u => length (getIndex u)
      | None => 0
      end
  | _ => 0
  end.

(** A loop over the segments of a hybrid index set whose iterations call a
    flat parallel loop.  [enter] is the code of an outer iteration up to the
    inner loop: it looks at the segment and either starts an inner loop,
    whose state it returns, or starts none.  [inner] is one iteration of the
    inner loop and [leave] the code after it.  [S] is the state the outer
    iterations share, [C] the state of one call of the flat loop. *)
Section nested_for.
Context {S C : Type}.
Context (enter : nat → Segment → S → option (option C)).
Context (inner : nat → nat → C → S → option (C * S)).
Context (leave : nat → nat → option C → S → option S).

Definition strand_step (hset : HybridISet) (wk : nat) (e : strand)
    (st : list (option C) * S) : option (list (option C) * S) :=
  let '(calls, s) := st in
  match e with
  | Enter isi =>
      seg ← getSegment hset (Z.of_nat isi);
      call ← enter wk seg s;
      Some (<[isi := call]> calls, s)
  | Inner isi k =>
      call ← calls !! isi;
      c ← call;
      '(c, s) ← inner wk k c s;
      Some (<[isi := Some c]> calls, s)
  | Exit isi =>
      call ← calls !! isi;
      s ← leave wk isi call s;
      Some (<[isi := None]> calls, s)
  end.

Definition nested_for (nrt : nested_runtime) (hset : HybridISet) (s : S)
    : option S :=
  let counts := inner_count <$> hset in
  '(_, s) ← run_iterations (strand_step hset) (strands nrt counts)
              (replicate (length hset) None, s);
  Some s.

End nested_for.

(** ** Cilk Plus min/max-with-index hyperobjects

    [cilk::reducer_min_index<Index_type, T>] and [reducer_max_index] come
    from the Cilk Plus headers.  A view holds an index, a value and a flag
    telling whether a value was ever recorded.  A default-constructed reducer
    is unset and its members are value-initialized, zero for arithmetic
    types; [get_value] and [get_index] return the stored members whether or
    not the flag is set.  Every strand that updates the reducer works on a
    view of its own, unset at first; the views are reduced in the serial
    order of the strands, a view to the right replacing the one to its left
    only when its value is strictly better. *)
Record reducer_index := {
  m_index : Index_type;
  m_value : Z;
  m_is_set : bool
}.

Definition reducer_default : reducer_index :=
  {| m_index := 0; m_value := 0; m_is_set := false |}.

Definition get_value (r : reducer_index) : Z := m_value r.
Definition get_index (r : reducer_index) : Index_type := m_index r.

Definition calc_min (r : reducer_index) (index : Index_type) (value : Z)
    : reducer_index :=
  if negb (m_is_set r) || bool_decide (value < m_value r)
  then {| m_index := index; m_value := value; m_is_set := true |}
  else r.

Definition calc_max (r : reducer_index) (index : Index_type) (value : Z)
    : reducer_index :=
  if negb (m_is_set r) || bool_decide (m_value r < value)
  then {| m_index := index; m_value := value; m_is_set := true |}
  else r.

(** The views of the strands, in serial order, reduced into the leftmost
    view, the reducer's own. *)
Definition reduce_views
    (calc : reducer_index → Index_type → Z → reducer_index)
    (views : list reducer_index) : reducer_index :=
  foldl (λ left right,
           if m_is_set right then calc left (m_index right) (m_value right)
           else left)
    reducer_default views.

(** ** The reduced type of the sum reductions

    [forall_sum] is a template over [T]; it writes [sum_tmp[i] = 0] and
    [*sum += sum_tmp[i]], and the loop body adds to the slot it is handed. *)
Class Sum_type (T : Type) := {
  T_zero : T;
  T_add : T → T → T
}.

(** Addition in [T] is associative and commutative and zero is neutral:
    so it is for the integers and for machine integers that wrap around,
    not for floating-point numbers. *)
Class Sum_laws (T : Type) `{!Sum_type T} : Prop := {
  T_add_assoc : ∀ a b c : T, T_add a (T_add b c) = T_add (T_add a b) c;
  T_add_comm : ∀ a b : T, T_add a b = T_add b a;
  T_add_zero : ∀ a : T, T_add a T_zero = a
}.

#[global] Instance Z_sum_type : Sum_type Z := {| T_zero := 0; T_add := Z.add |}.

(** [unsigned]: 32 bits, wrapping around. *)
Definition UINT_MAX : Z := 4294967295.

Definition unsigned : Type := dsig (λ z : Z, 0 ≤ z ≤ UINT_MAX).

Definition unsigned_of (z : Z) : unsigned.
Proof.
  refine (dexist (z `mod` (UINT_MAX + 1)) _).
  pose proof (Z.mod_pos_bound z (UINT_MAX + 1)). unfold UINT_MAX in *. lia.
Defined.

#[global] Instance unsigned_sum_type : Sum_type unsigned := {|
  T_zero := unsigned_of 0;
  T_add a b := unsigned_of (`a + `b)
|}.

(** ** forall_cilk_icc.hxx *)

Module cilk.
Section cilk_for_exec.
Context {W : Type}.
Context {T : Type} `{!Sum_type T}.

  (** The three kinds of loop body: [loop_body(ii)],
      [loop_body(ii, &sum_tmp)], [loop_body(ii, &ext_tmp, &loc_tmp)]. *)
Definition LOOP_BODY := Index_type → W → W.
Definition LOOP_BODY_sum := Index_type → T → W → T * W.
Definition LOOP_BODY_loc :=
    Index_type → Z → Index_type → W → Z * Index_type * W.

  (** *** Flat iteration *)

Definition forall_indices (rt : runtime) (its : list Index_type)
      (loop_body : LOOP_BODY) (w : W) : option W :=
    parallel_for rt its (λ _ ii w, Some (loop_body ii w)) w.

Definition forall_range (rt : runtime) (begin end_ : Index_type)
      (loop_body : LOOP_BODY) (w : W) : option W :=
    forall_indices rt (range_indices begin end_) loop_body w.

Definition forall_RangeISet (rt : runtime) (iset : RangeISet)
      (loop_body : LOOP_BODY) (w : W) : option W :=
    let begin := getBegin iset in
    let end_ := getEnd iset in
    forall_indices rt (range_indices begin end_) loop_body w.

Definition forall_range_stride (rt : runtime)
      (begin end_ stride : Index_type)
      (loop_body : LOOP_BODY) (w : W) : option W :=
    its ← range_stride_indices begin end_ stride;
    forall_indices rt its loop_body w.

Definition forall_RangeStrideISet (rt : runtime) (iset : RangeStrideISet)
      (loop_body : LOOP_BODY) (w : W) : option W :=
    let begin := rs_getBegin iset in
    let end_ := rs_getEnd iset in
    let stride := getStride iset in
    its ← range_stride_indices begin end_ stride;
    forall_indices rt its loop_body w.

Definition forall_indirection (rt : runtime)
      (idx : list Index_type) (len : Index_type)
      (loop_body : LOOP_BODY) (w : W) : option W :=
    its ← indirection_indices idx len;
    forall_indices rt its loop_body w.

Definition forall_UnstructuredISet (rt : runtime) (iset : UnstructuredISet)
      (loop_body : LOOP_BODY) (w : W) : option W :=
    let idx := getIndex iset in
    let len := getLength iset in
    its ← indirection_indices idx len;
    forall_indices rt its loop_body w.

  (** *** Sum reduction

      [sum_tmp] has one slot per worker, zeroed; an iteration hands the body
      the slot of the worker it runs on; the slots are then added to [*sum]
      in slot order. *)
Definition sum_iteration (loop_body : LOOP_BODY_sum)
      (wk : nat) (ii : Index_type) (st : list T * W) : option (list T * W) :=
    let '(sum_tmp, w) := st in
    slot ← sum_tmp !! wk;
    let '(slot, w) := loop_body ii slot w in
    Some (<[wk := slot]> sum_tmp, w).

Definition forall_sum_indices (rt : runtime) (its : list Index_type)
      (sum : T) (loop_body : LOOP_BODY_sum) (w : W) : option (T * W) :=
    let nthreads := nworkers rt in
    let sum_tmp := replicate nthreads T_zero in
    '(sum_tmp, w) ← parallel_for rt its (sum_iteration loop_body)
                      (sum_tmp, w);
    Some (foldl T_add sum sum_tmp, w).

Definition forall_sum_range (rt : runtime) (begin end_ : Index_type)
      (sum : T) (loop_body : LOOP_BODY_sum) (w : W) : option (T * W) :=
    forall_sum_indices rt (range_indices begin end_) sum loop_body w.

Definition forall_sum_RangeISet (rt : runtime) (iset : RangeISet)
      (sum : T) (loop_body : LOOP_BODY_sum) (w : W) : option (T * W) :=
    forall_sum_range rt (getBegin iset) (getEnd iset) sum loop_body w.

Definition forall_sum_range_stride (rt : runtime)
      (begin end_ stride : Index_type)
      (sum : T) (loop_body : LOOP_BODY_sum) (w : W) : option (T * W) :=
    its ← range_stride_indices begin end_ stride;
    forall_sum_indices rt its sum loop_body w.

Definition forall_sum_RangeStrideISet (rt : runtime) (iset : RangeStrideISet)
      (sum : T) (loop_body : LOOP_BODY_sum) (w : W) : option (T * W) :=
    forall_sum_range_stride rt (rs_getBegin iset) (rs_getEnd iset)
      (getStride iset) sum loop_body w.

Definition forall_sum_indirection (rt : runtime)
      (idx : list Index_type) (len : Index_type)
      (sum : T) (loop_body : LOOP_BODY_sum) (w : W) : option (T * W) :=
    its ← indirection_indices idx len;
    forall_sum_indices rt its sum loop_body w.

Definition forall_sum_UnstructuredISet (rt : runtime) (iset : UnstructuredISet)
      (sum : T) (loop_body : LOOP_BODY_sum) (w : W) : option (T * W) :=
    forall_sum_indirection rt (getIndex iset) (getLength iset) sum loop_body w.

  (** *** Min and max with location

      [min_tmp] and [loc_tmp] are single variables: every iteration of the
      [cilk_for], on whatever worker, reads and writes them through the
      body, and then feeds [min_tmp] as it stands, with its own index, to
      its view of the hyperobject.  There is a view for each iteration,
      listed by the position of the iteration in the loop. *)
Record loc_state := {
    ext_tmp : Z;
    loc_tmp : Index_type;
    views : list reducer_index;
    world : W
  }.

  (** The iteration at position [k] of a loop over [its]. *)
Definition loc_iteration
      (calc : reducer_index → Index_type → Z → reducer_index)
      (loop_body : LOOP_BODY_loc) (its : list Index_type)
      (k : nat) (st : loc_state) : option loc_state :=
    ii ← its !! k;
    view ← views st !! k;
    let '(v, l, w) := loop_body ii (ext_tmp st) (loc_tmp st) (world st) in
    Some {| ext_tmp := v; loc_tmp := l;
            views := <[k := calc view ii v]> (views st); world := w |}.

Definition forall_minloc_indices (rt : runtime) (its : list Index_type)
      (min : Z) (loc : Index_type)
      (loop_body : LOOP_BODY_loc) (w : W) : option (Z * Index_type * W) :=
    let st := {| ext_tmp := min; loc_tmp := loc;
                 views := replicate (length its) reducer_default;
                 world := w |} in
    st ← parallel_for rt (seqZ 0 (Z.of_nat (length its)))
      (λ _ k st, loc_iteration calc_min loop_body its (Z.to_nat k) st) st;
    let reduction := reduce_views calc_min (views st) in
    if bool_decide (get_value reduction < min)
    then Some (get_value reduction, get_index reduction, world st)
    else Some (min, loc, world st).

Definition forall_maxloc_indices (rt : runtime) (its : list Index_type)
      (max : Z) (loc : Index_type)
      (loop_body : LOOP_BODY_loc) (w : W) : option (Z * Index_type * W) :=
    let st := {| ext_tmp := max; loc_tmp := loc;
                 views := replicate (length its) reducer_default;
                 world := w |} in
    st ← parallel_for rt (seqZ 0 (Z.of_nat (length its)))
      (λ _ k st, loc_iteration calc_max loop_body its (Z.to_nat k) st) st;
    let reduction := reduce_views calc_max (views st) in
    if bool_decide (max < get_value reduction)
    then Some (get_value reduction, get_index reduction, world st)
    else Some (max, loc, world st).

Definition forall_minloc_range (rt : runtime) (begin end_ : Index_type)
      (min : Z) (loc : Index_type)
      (loop_body : LOOP_BODY_loc) (w : W) : option (Z * Index_type * W) :=
    forall_minloc_indices rt (range_indices begin end_) min loc loop_body w.

Definition forall_minloc_RangeISet (rt : runtime) (iset : RangeISet)
      (min : Z) (loc : Index_type)
      (loop_body : LOOP_BODY_loc) (w : W) : option (Z * Index_type * W) :=
    forall_minloc_range rt (getBegin iset) (getEnd iset) min loc loop_body w.

Definition forall_maxloc_range (rt : runtime) (begin end_ : Index_type)
      (max : Z) (loc : Index_type)
      (loop_body : LOOP_BODY_loc) (w : W) : option (Z * Index_type * W) :=
    forall_maxloc_indices rt (range_indices begin end_) max loc loop_body w.

Definition forall_maxloc_RangeISet (rt : runtime) (iset : RangeISet)
      (max : Z) (loc : Index_type)
      (loop_body : LOOP_BODY_loc) (w : W) : option (Z * Index_type * W) :=
    forall_maxloc_range rt (getBegin iset) (getEnd iset) max loc loop_body w.

Definition forall_minloc_range_stride (rt : runtime)
      (begin end_ stride : Index_type) (min : Z) (loc : Index_type)
      (loop_body : LOOP_BODY_loc) (w : W) : option (Z * Index_type * W) :=
    its ← range_stride_indices begin end_ stride;
    forall_minloc_indices rt its min loc loop_body w.

Definition forall_minloc_RangeStrideISet (rt : runtime)
      (iset : RangeStrideISet) (min : Z) (loc : Index_type)
      (loop_body : LOOP_BODY_loc) (w : W) : option (Z * Index_type * W) :=
    forall_minloc_range_stride rt (rs_getBegin iset) (rs_getEnd iset)
      (getStride iset) min loc loop_body w.

Definition forall_maxloc_range_stride (rt : runtime)
      (begin end_ stride : Index_type) (max : Z) (loc : Index_type)
      (loop_body : LOOP_BODY_loc) (w : W) : option (Z * Index_type * W) :=
    its ← range_stride_indices begin end_ stride;
    forall_maxloc_indices rt its max loc loop_body w.

Definition forall_maxloc_RangeStrideISet (rt : runtime)
      (iset : RangeStrideISet) (max : Z) (loc : Index_type)
      (loop_body : LOOP_BODY_loc) (w : W) : option (Z * Index_type * W) :=
    forall_maxloc_range_stride rt (rs_getBegin iset) (rs_getEnd iset)
      (getStride iset) max loc loop_body w.

Definition forall_minloc_indirection (rt : runtime)
      (idx : list Index_type) (len : Index_type)
      (min : Z) (loc : Index_type)
      (loop_body : LOOP_BODY_loc) (w : W) : option (Z * Index_type * W) :=
    its ← indirection_indices idx len;
    forall_minloc_indices rt its min loc loop_body w.

Definition forall_minloc_UnstructuredISet (rt : runtime)
      (iset : UnstructuredISet) (min : Z) (loc : Index_type)
      (loop_body : LOOP_BODY_loc) (w : W) : option (Z * Index_type * W) :=
    forall_minloc_indirection rt (getIndex iset) (getLength iset)
      min loc loop_body w.

Definition forall_maxloc_indirection (rt : runtime)
      (idx : list Index_type) (len : Index_type)
      (max : Z) (loc : Index_type)
      (loop_body : LOOP_BODY_loc) (w : W) : option (Z * Index_type * W) :=
    its ← indirection_indices idx len;
    forall_maxloc_indices rt its max loc loop_body w.

Definition forall_maxloc_UnstructuredISet (rt : runtime)
      (iset : UnstructuredISet) (max : Z) (loc : Index_type)
      (loop_body : LOOP_BODY_loc) (w : W) : option (Z * Index_type * W) :=
    forall_maxloc_indirection rt (getIndex iset) (getLength iset)
      max loc loop_body w.

  (** *** Hybrid index sets: [cilk_for] over the segments

      The segment policy [SEG_EXEC_POLICY_T] is taken to be [cilk_for_exec],
      the one policy this header implements.  The [_RangeStride_] case is
      compiled out ([#if 0]) in all four functions, so such a segment takes
      the [default] branch. *)
Definition forall_HybridISet (rt : runtime) (hset : HybridISet)
      (loop_body : LOOP_BODY) (w : W) : option W :=
    let num_seg := getNumSegments hset in
    parallel_for rt (seqZ 0 num_seg)
      (λ _ isi w,
         seg ← getSegment hset isi;
         match m_type seg with
         | _Range_ =>
             r ← as_RangeISet seg; forall_RangeISet rt r loop_body w
         | _Unstructured_ =>
             u ← as_UnstructuredISet seg;
             forall_UnstructuredISet rt u loop_body w
         | _ => Some w
         end)
      w.

  (** The segmented sum.  An outer iteration evaluates
      [&sum_tmp[__cilkrts_get_worker_number()]] and calls the flat
      [forall_sum] with it: the call zeroes an array of its own, runs its
      [cilk_for], and after that adds its array to the slot it was given.
      [slot] is the outer worker number taken on entry. *)
Record sum_call := {
    slot : nat;
    inner_tmp : list T;
    sum_its : list Index_type
  }.

Definition sum_enter (nthreads : nat) (wk : nat) (seg : Segment)
      (st : list T * W) : option (option sum_call) :=
    match m_type seg with
    | _Range_ =>
        r ← as_RangeISet seg;
        Some (Some {| slot := wk; inner_tmp := replicate nthreads T_zero;
                      sum_its := range_indices (getBegin r) (getEnd r) |})
    | _Unstructured_ =>
        u ← as_UnstructuredISet seg;
        its ← indirection_indices (getIndex u) (getLength u);
        Some (Some {| slot := wk; inner_tmp := replicate nthreads T_zero;
                      sum_its := its |})
    | _ => Some None
    end.

Definition sum_inner (loop_body : LOOP_BODY_sum) (wk k : nat)
      (c : sum_call) (st : list T * W) : option (sum_call * (list T * W)) :=
    let '(sum_tmp, w) := st in
    ii ← sum_its c !! k;
    '(tmp, w) ← sum_iteration loop_body wk ii (inner_tmp c, w);
    Some ({| slot := slot c; inner_tmp := tmp; sum_its := sum_its c |},
          (sum_tmp, w)).

Definition sum_leave (wk isi : nat) (call : option sum_call)
      (st : list T * W) : option (list T * W) :=
    let '(sum_tmp, w) := st in
    match call with
    | Some c =>
        sum ← sum_tmp !! slot c;
        Some (<[slot c := foldl T_add sum (inner_tmp c)]> sum_tmp, w)
    | None => Some (sum_tmp, w)
    end.

Definition forall_sum_HybridISet (nrt : nested_runtime) (hset : HybridISet)
      (sum : T) (loop_body : LOOP_BODY_sum) (w : W) : option (T * W) :=
    let nthreads := nested_nworkers nrt in
    let sum_tmp := replicate nthreads T_zero in
    '(sum_tmp, w) ← nested_for (sum_enter nthreads) (sum_inner loop_body)
                      sum_leave nrt hset (sum_tmp, w);
    Some (foldl T_add sum sum_tmp, w).

  (** The segmented min and max with location.  An outer iteration calls
      the flat loop with [&min_tmp] and [&loc_tmp]: the call copies them
      into temporaries of its own, runs its [cilk_for] over views of its
      own reducer and, after that, writes its result back when it beats
      the value that [min_tmp] holds by then.  The outer iteration then
      feeds [loc_tmp] and [min_tmp] to its view of the outer reducer,
      whatever the kind of the segment. *)
Record loc_call := {
    call_ext : Z;
    call_loc : Index_type;
    call_views : list reducer_index;
    loc_its : list Index_type
  }.

Definition loc_enter (wk : nat) (seg : Segment) (st : loc_state)
      : option (option loc_call) :=
    match m_type seg with
    | _Range_ =>
        r ← as_RangeISet seg;
        let its := range_indices (getBegin r) (getEnd r) in
        Some (Some {| call_ext := ext_tmp st; call_loc := loc_tmp st;
                      call_views := replicate (length its) reducer_default;
                      loc_its := its |})
    | _Unstructured_ =>
        u ← as_UnstructuredISet seg;
        its ← indirection_indices (getIndex u) (getLength u);
        Some (Some {| call_ext := ext_tmp st; call_loc := loc_tmp st;
                      call_views := replicate (length its) reducer_default;
                      loc_its := its |})
    | _ => Some None
    end.

Definition loc_inner
      (calc : reducer_index → Index_type → Z → reducer_index)
      (loop_body : LOOP_BODY_loc) (wk k : nat)
      (c : loc_call) (st : loc_state) : option (loc_call * loc_state) :=
    st' ← loc_iteration calc loop_body (loc_its c) k
            {| ext_tmp := call_ext c; loc_tmp := call_loc c;
               views := call_views c; world := world st |};
    Some ({| call_ext := ext_tmp st'; call_loc := loc_tmp st';
             call_views := views st'; loc_its := loc_its c |},
          {| ext_tmp := ext_tmp st; loc_tmp := loc_tmp st;
             views := views st; world := world st' |}).

Definition loc_leave
      (calc : reducer_index → Index_type → Z → reducer_index)
      (beats : Z → Z → bool) (wk isi : nat)
      (call : option loc_call) (st : loc_state) : option loc_state :=
    let '(ext, loc) :=
      match call with
      | Some c =>
          let reduction := reduce_views calc (call_views c) in
          if beats (get_value reduction) (ext_tmp st)
          then (get_value reduction, get_index reduction)
          else (ext_tmp st, loc_tmp st)
      | None => (ext_tmp st, loc_tmp st)
      end in
    view ← views st !! isi;
    Some {| ext_tmp := ext; loc_tmp := loc;
            views := <[isi := calc view loc ext]> (views st);
            world := world st |}.

Definition forall_minloc_HybridISet (nrt : nested_runtime)
      (hset : HybridISet) (min : Z) (loc : Index_type)
      (loop_body : LOOP_BODY_loc) (w : W) : option (Z * Index_type * W) :=
    let st := {| ext_tmp := min; loc_tmp := loc;
                 views := replicate (length hset) reducer_default;
                 world := w |} in
    st ← nested_for loc_enter (loc_inner calc_min loop_body)
           (loc_leave calc_min (λ a b, bool_decide (a < b))) nrt hset st;
    let reduction := reduce_views calc_min (views st) in
    if bool_decide (get_value reduction < min)
    then Some (get_value reduction, get_index reduction, world st)
    else Some (min, loc, world st).

Definition forall_maxloc_HybridISet (nrt : nested_runtime)
      (hset : HybridISet) (max : Z) (loc : Index_type)
      (loop_body : LOOP_BODY_loc) (w : W) : option (Z * Index_type * W) :=
    let st := {| ext_tmp := max; loc_tmp := loc;
                 views := replicate (length hset) reducer_default;
                 world := w |} in
    st ← nested_for loc_enter (loc_inner calc_max loop_body)
           (loc_leave calc_max (λ a b, bool_decide (b < a))) nrt hset st;
    let reduction := reduce_views calc_max (views st) in
    if bool_decide (max < get_value reduction)
    then Some (get_value reduction, get_index reduction, world st)
    else Some (max, loc, world st).

End cilk_for_exec.
End cilk.

(** ** policy/openmp/forall_param.hpp *)

Module omp.

  (** The scheduling policies [RAJA::policy::omp::Auto], [Static<ChunkSize>],
      [Dynamic<ChunkSize>], [Guided<ChunkSize>], [Runtime]. *)
Inductive Schedule :=
    | Auto
    | Static (ChunkSize : Z)
    | Dynamic (ChunkSize : Z)
    | Guided (ChunkSize : Z)
    | Runtime.

  (** The [schedule(...)] clause written on the work-sharing pragma. *)
Inductive schedule_clause :=
    | sched_none
    | sched_static
    | sched_static_chunk (ChunkSize : Z)
    | sched_dynamic
    | sched_dynamic_chunk (ChunkSize : Z)
    | sched_guided
    | sched_guided_chunk (ChunkSize : Z)
    | sched_runtime.

  (** The OpenMP run time: for each schedule clause, with or without
      [nowait], the team and the placement it produces. *)
Record omp_runtime := { team : schedule_clause → bool → runtime }.

Definition omp_fair (rt : omp_runtime) : Prop :=
    ∀ cl nowait, fair (team rt cl nowait).

  (** [RAJA::expt::ParamMultiplexer] is declared elsewhere in RAJA.  This
      header uses three operations of it on the parameter pack; they are
      taken as an interface. *)
Class ParamMultiplexer (P : Type) := {
    init : P → P;
    combine : P → P → P;
    resolve : P → P
  }.

  (** The callable [Func].  The overloads below call it in two ways: with the
      index alone, [loop_body(begin_it[i])], and through [invoke_body] with
      the index and the reduction parameters. *)
Record Func (P W : Type) := {
    call : Index_type → W → W;
    call_params : Index_type → P → W → P * W
  }.
Arguments call {P W} _ _ _.
Arguments call_params {P W} _ _ _ _.

  (** Modelled from the spec: [RAJA::expt::invoke_body] is defined elsewhere
      in RAJA.  In a reduction iteration the loop body accepts one index plus
      references to the worker's reduction temporaries. *)
Definition invoke_body {P W : Type} (f_params : P) (loop_body : Func P W)
      (idx : Index_type) (w : W) : P * W :=
    call_params loop_body idx f_params w.

Section forall_param.
Context {P W : Type} `{!ParamMultiplexer P}.

    (** [#pragma omp ... for reduction(combine : f_params)] under
        [RAJA_OMP_DECLARE_REDUCTION_COMBINE]: every thread of the team works
        on a private copy initialized from the original
        ([initializer(omp_priv = omp_orig)]); at the end every private copy
        is combined into the original ([combine(omp_out, omp_in)]). *)
Definition omp_for_reduction (rt : runtime) (distance_it : Z)
        (iter : Z → P → W → option (P * W))
        (f_params : P) (w : W) : option (P * W) :=
      let omp_priv := replicate (nworkers rt) f_params in
      '(omp_priv, w) ← parallel_for rt (seqZ 0 distance_it)
        (λ th i '(omp_priv, w),
           p ← omp_priv !! th;
           '(p, w) ← iter i p w;
           Some (<[th := p]> omp_priv, w))
        (omp_priv, w);
      Some (foldl combine f_params omp_priv, w).

    (** The two loop statements found in the overloads. *)
Definition body_invoke (begin_it : list Index_type)
        (loop_body : Func P W) (i : Z) (p : P) (w : W) : option (P * W) :=
      idx ← begin_it !! Z.to_nat i;
      Some (invoke_body p loop_body idx w).

Definition body_call (begin_it : list Index_type)
        (loop_body : Func P W) (i : Z) (p : P) (w : W) : option (P * W) :=
      idx ← begin_it !! Z.to_nat i;
      Some (p, call loop_body idx w).

    (** [internal::forall_impl], one branch per overload.
        [RAJA_EXTRACT_BED_IT(iter)] binds [begin_it] and [distance_it]. *)
Definition forall_impl (rt : omp_runtime) (p : Schedule)
        (iter : list Index_type) (loop_body : Func P W)
        (f_params : P) (w : W) : option (P * W) :=
      let f_params := init f_params in
      let begin_it := iter in
      let distance_it := Z.of_nat (length iter) in
      '(f_params, w) ←
        match p with
        | Auto =>
            omp_for_reduction (team rt sched_none false) distance_it
              (body_invoke begin_it loop_body) f_params w
        | Static ChunkSize =>
            if bool_decide (ChunkSize ≤ 0) then
              omp_for_reduction (team rt sched_none false) distance_it
                (body_invoke begin_it loop_body) f_params w
            else
              omp_for_reduction
                (team rt (sched_static_chunk ChunkSize) false) distance_it
                (body_invoke begin_it loop_body) f_params w
        | Dynamic ChunkSize =>
            if bool_decide (ChunkSize ≤ 0) then
              omp_for_reduction (team rt sched_dynamic false) distance_it
                (body_invoke begin_it loop_body) f_params w
            else
              omp_for_reduction
                (team rt (sched_dynamic_chunk ChunkSize) false) distance_it
                (body_invoke begin_it loop_body) f_params w
        | Guided ChunkSize =>
            if bool_decide (ChunkSize ≤ 0) then
              omp_for_reduction (team rt sched_guided false) distance_it
                (body_invoke begin_it loop_body) f_params w
            else
              omp_for_reduction
                (team rt (sched_guided_chunk ChunkSize) false) distance_it
                (body_invoke begin_it loop_body) f_params w
        | Runtime =>
            omp_for_reduction (team rt sched_runtime false) distance_it
              (body_call begin_it loop_body) f_params w
        end;
      Some (resolve f_params, w).

    (** [internal::forall_impl_nowait] for [Auto] and [Static<ChunkSize>]. *)
Definition forall_impl_nowait_Auto (rt : omp_runtime)
        (iter : list Index_type) (loop_body : Func P W)
        (f_params : P) (w : W) : option (P * W) :=
      let f_params := init f_params in
      let begin_it := iter in
      let distance_it := Z.of_nat (length iter) in
      '(f_params, w) ←
        omp_for_reduction (team rt sched_none true) distance_it
          (body_call begin_it loop_body) f_params w;
      Some (resolve f_params, w).

Definition forall_impl_nowait_Static (rt : omp_runtime) (ChunkSize : Z)
        (iter : list Index_type) (loop_body : Func P W)
        (f_params : P) (w : W) : option (P * W) :=
      let f_params := init f_params in
      let begin_it := iter in
      let distance_it := Z.of_nat (length iter) in
      '(f_params, w) ←
        (if bool_decide (ChunkSize ≤ 0) then
           omp_for_reduction (team rt sched_static true) distance_it
             (body_call begin_it loop_body) f_params w
         else
           omp_for_reduction
             (team rt (sched_static_chunk ChunkSize) true) distance_it
             (body_call begin_it loop_body) f_params w);
      Some (resolve f_params, w).

    (** [resources::Host] and the event proxy returned to the caller. *)
Inductive Host := host_resource.
Inductive EventProxy := event_proxy (host_res : Host).

    (** [omp_for_schedule_exec<Schedule>] and [omp_parallel_exec<Inner>]. *)
Inductive omp_for_schedule_exec := for_schedule_exec (s : Schedule).
Inductive omp_parallel_exec := parallel_exec (inner : omp_for_schedule_exec).

    (** [expt::forall_impl(host_res, omp_for_schedule_exec<Schedule>, ...)] *)
Definition expt_forall_impl (rt : omp_runtime) (host_res : Host)
        (pol : omp_for_schedule_exec) (iter : list Index_type)
        (loop_body : Func P W) (f_params : P) (w : W)
        : option (EventProxy * P * W) :=
      let 'for_schedule_exec s := pol in
      '(f_params, w) ← forall_impl rt s iter loop_body f_params w;
      Some (event_proxy host_res, f_params, w).

Definition endl : string := String (ascii_of_nat 10) EmptyString.

    (** [forall_impl(host_res, omp_parallel_exec<InnerPolicy>, ...)].  The
        process state is the text written to [std::cout] so far together
        with the memory [W] the loop body works on. *)
Definition forall_impl_parallel (rt : omp_runtime) (host_res : Host)
        (pol : omp_parallel_exec) (iter : list Index_type)
        (loop_body : Func P W) (f_params : P) (cout : string) (w : W)
        : option (EventProxy * P * string * W) :=
      let 'parallel_exec InnerPolicy := pol in
      let cout := String.append cout (String.append "param call" endl) in
      '(_, f_params, w) ←
        expt_forall_impl rt host_res InnerPolicy iter loop_body f_params w;
      Some (event_proxy host_res, f_params, cout, w).

End forall_param.

  (** Modelled from the spec: the sum member of a reduction parameter pack
      ([RAJA::expt::Reduce] with [operators::plus], defined elsewhere in
      RAJA).  The worker-local accumulator starts from the additive identity,
      partial sums are merged by addition, and the merged value is added into
      the caller's running total, not replacing it. *)
Record Reducer := { val : Z; target : Z }.

#[global] Instance sum_multiplexer : ParamMultiplexer Reducer := {|
    init r := {| val := 0; target := target r |};
    combine omp_out omp_in :=
      {| val := val omp_out + val omp_in; target := target omp_out |};
    resolve r := {| val := val r; target := target r + val r |}
  |}.

End omp.

(** ** Loop bodies used to state the properties *)

(** The visitation counter array of the tests: one counter per index, all
    zero before the loop; the body increments the counter of its index. *)
Definition counters := Z → nat.
Definition no_visits : counters := λ _, 0%nat.
Definition visit (i : Index_type) (c : counters) : counters :=
  λ j, if bool_decide (j = i) then S (c j) else c j.

(** How often [j] is listed in [l]. *)
Fixpoint occurrences (j : Z) (l : list Z) : nat :=
  match l with
  | [] => 0
  | i :: l => ((if bool_decide (j = i) then 1 else 0) + occurrences j l)%nat
  end.

(** The sum of the contributions of the indices in [l], in the integers and
    in a reduced type [T]. *)
Fixpoint total (contrib : Index_type → Z) (l : list Index_type) : Z :=
  match l with
  | [] => 0
  | i :: l => contrib i + total contrib l
  end.

Fixpoint T_total {T : Type} `{!Sum_type T} (contrib : Index_type → T)
    (l : list Index_type) : T :=
  match l with
  | [] => T_zero
  | i :: l => T_add (contrib i) (T_total contrib l)
  end.

(** The sum of a list of values of [T]. *)
Definition T_sum {T : Type} `{!Sum_type T} (l : list T) : T :=
  foldr T_add T_zero l.

(** A sum body adds the contribution of its index to the slot it is handed
    and acts on the caller's memory by [eff]. *)
Definition sum_body {W T : Type} `{!Sum_type T} (contrib : Index_type → T)
    (eff : Index_type → W → W) : @cilk.LOOP_BODY_sum W T :=
  λ ii slot w, (T_add slot (contrib ii), eff ii w).

(** A min-with-location body proposes the candidate [(val ii, ii)] and keeps
    the smaller of it and the pair it is handed; symmetrically for max. *)
Definition min_body {W : Type} (val : Index_type → Z)
    (eff : Index_type → W → W) : @cilk.LOOP_BODY_loc W :=
  λ ii m l w,
    if bool_decide (val ii < m) then (val ii, ii, eff ii w)
    else (m, l, eff ii w).

Definition max_body {W : Type} (val : Index_type → Z)
    (eff : Index_type → W → W) : @cilk.LOOP_BODY_loc W :=
  λ ii m l w,
    if bool_decide (m < val ii) then (val ii, ii, eff ii w)
    else (m, l, eff ii w).

(** The indices a segment of a hybrid index set stands for, as the segmented
    loops see it: a segment of an unhandled kind stands for none, and a
    handled kind over an object of another class has no defined meaning. *)
Definition segment_indices (seg : Segment) : option (list Index_type) :=
  match m_type seg with
  | _Range_ =>
      r ← as_RangeISet seg; Some (range_indices (getBegin r) (getEnd r))
  | _Unstructured_ =>
      u ← as_UnstructuredISet seg; Some (getIndex u)
  | _ => Some []
  end.

Definition handled (seg : Segment) : bool :=
  match m_type seg with
  | _Range_ | _Unstructured_ => true
  | _ => false
  end.

(** A flat range cut into consecutive range segments at [cuts]. *)
Definition range_segment (begin end_ : Index_type) : Segment :=
  {| m_type := _Range_;
     m_segment := IsRange {| getBegin := begin; getEnd := end_ |} |}.

Fixpoint partition_segments (begin : Index_type) (cuts : list Index_type)
    : HybridISet :=
  match cuts with
  | [] => []
  | c :: cuts => range_segment begin c :: partition_segments c cuts
  end.

(** ** Definitions used to state and prove the properties *)

(** [j] is one of [begin], [begin + stride], [begin + 2 * stride], ...
    strictly below [end_]. *)
Definition on_stride (begin end_ stride j : Z) : Prop :=
  ∃ k, 0 ≤ k ∧ j = begin + k * stride ∧ j < end_.

(** Every counter of [begin, end_) stands at one and every other at zero. *)
Definition visited_once_in (begin end_ : Index_type) (c : counters) : Prop :=
  ∀ i, c i = if bool_decide (begin ≤ i < end_) then 1%nat else 0%nat.

(** The counting body as an OpenMP callable: it counts its index in both
    call forms and leaves the reduction parameters alone. *)
Definition visiting {P : Type} : omp.Func P counters :=
  {| omp.call := visit; omp.call_params := λ idx p c, (p, visit idx c) |}.

(** A reduction body adds the contribution of its index to the accumulator
    it is handed; called with the index alone it can only act on the caller's
    memory. *)
Definition reduce_sum_body {W : Type} (contrib : Index_type → Z)
    (eff : Index_type → W → W) : omp.Func omp.Reducer W :=
  {| omp.call := eff;
     omp.call_params := λ idx r w,
       ({| omp.val := omp.val r + contrib idx; omp.target := omp.target r |},
        eff idx w) |}.

(** The indices of a whole hybrid index set, segment after segment, and the
    indices of the segments at the given positions. *)
Fixpoint hybrid_indices (hset : HybridISet) : list Index_type :=
  match hset with
  | [] => []
  | seg :: hset => default [] (segment_indices seg) ++ hybrid_indices hset
  end.

Definition indices_at (hset : HybridISet) (isi : Z) : list Index_type :=
  default [] (getSegment hset isi ≫= segment_indices).

Fixpoint indices_of_positions (hset : HybridISet) (ps : list Z)
    : list Index_type :=
  match ps with
  | [] => []
  | isi :: ps => indices_at hset isi ++ indices_of_positions hset ps
  end.

(** Every segment holds an object of the class its discriminator names. *)
Definition well_formed (hset : HybridISet) : Prop :=
  Forall (λ seg, is_Some (segment_indices seg)) hset.

(** Every handled segment of the set is well formed and holds at least one
    index. *)
Definition productive (hset : HybridISet) : Prop :=
  Forall (λ seg, ∃ l, segment_indices seg = Some l ∧
                      (handled seg = true → l ≠ [])) hset.

(** One iteration of the [cilk_for] over segments in [forall]. *)
Definition forall_segment {W : Type} (rt : runtime) (hset : HybridISet)
    (loop_body : Index_type → W → W) (isi : Z) (w : W) : option W :=
  seg ← getSegment hset isi;
  match m_type seg with
  | _Range_ =>
      r ← as_RangeISet seg; cilk.forall_RangeISet rt r loop_body w
  | _Unstructured_ =>
      u ← as_UnstructuredISet seg;
      cilk.forall_UnstructuredISet rt u loop_body w
  | _ => Some w
  end.

(** The elements of [begin_it] at the positions [ps]. *)
Definition elements_at (begin_it : list Index_type) (ps : list Z)
    : list Index_type :=
  omap (λ i, begin_it !! Z.to_nat i) ps.

Definition serial_omp : omp.omp_runtime := {| omp.team := λ _ _, serial |}.

(** The [schedule] clause that the overload for a scheduling policy writes
    on its pragma. *)
Definition clause_of (p : omp.Schedule) : omp.schedule_clause :=
  match p with
  | omp.Auto => omp.sched_none
  | omp.Static ChunkSize =>
      if bool_decide (ChunkSize ≤ 0) then omp.sched_none
      else omp.sched_static_chunk ChunkSize
  | omp.Dynamic ChunkSize =>
      if bool_decide (ChunkSize ≤ 0) then omp.sched_dynamic
      else omp.sched_dynamic_chunk ChunkSize
  | omp.Guided ChunkSize =>
      if bool_decide (ChunkSize ≤ 0) then omp.sched_guided
      else omp.sched_guided_chunk ChunkSize
  | omp.Runtime => omp.sched_runtime
  end.

(** One iteration of the work-shared loop on thread [th]. *)
Definition omp_iteration {P W : Type} (iter : Z → P → W → option (P * W))
    (th : nat) (i : Z) (st : list P * W) : option (list P * W) :=
  let '(omp_priv, w) := st in
  p ← omp_priv !! th;
  '(p, w) ← iter i p w;
  Some (<[th := p]> omp_priv, w).

(** [iter] is the loop statement of a body that acts by [g] on the private
    parameters and the caller's memory. *)
Definition runs_body {P W : Type} (begin_it : list Index_type)
    (iter : Z → P → W → option (P * W))
    (g : Index_type → P → W → P * W) : Prop :=
  ∀ i idx p w,
    begin_it !! Z.to_nat i = Some idx → iter i p w = Some (g idx p w).

Definition gt_rel (a b : Z) : Prop := b < a.

#[global] Instance gt_rel_dec : RelDecision gt_rel := λ a b, decide (b < a).

(** The phases of the outer iterations after the strands of [tr], when
    these are legal one after the other. *)
Fixpoint legal_run (counts : list nat) (ps : list phase) (tr : list strand)
    : option (list phase) :=
  match tr with
  | [] => Some ps
  | e :: tr => ps ← legal_step counts ps e; legal_run counts ps tr
  end.

(** The strands of one outer iteration with [n] inner iterations, in
    program order. *)
Definition segment_strands (isi n : nat) : list strand :=
  Enter isi :: (Inner isi <$> seq 0 n) ++ [Exit isi].

(** Min and max with location, uniformly in the comparison.  The source
    functions [forall_minloc] and [forall_maxloc] differ only in the
    direction of the comparison; the definitions below repeat them with the
    comparison as a parameter, so that one proof serves both.  [better a b]
    reads "[a] beats [b]": [a < b] for the minimum, [b < a] for the maximum,
    and at these two comparisons the definitions unfold to the source
    functions of the module [cilk]. *)
Section extremum_definitions.
Context {W : Type}.
Context (better : Z → Z → Prop) `{!RelDecision better}.

Definition calc_by (r : reducer_index) (index : Index_type) (value : Z)
    : reducer_index :=
  if negb (m_is_set r) || bool_decide (better value (m_value r))
  then {| m_index := index; m_value := value; m_is_set := true |}
  else r.

Definition body_by (val : Index_type → Z) (eff : Index_type → W → W)
    : @cilk.LOOP_BODY_loc W :=
  λ ii m l w,
    if bool_decide (better (val ii) m) then (val ii, ii, eff ii w)
    else (m, l, eff ii w).

(** The merge after the loop. *)
Definition loc_merge (ext : Z) (loc : Index_type) (st : @cilk.loc_state W)
    : option (Z * Index_type * W) :=
  let reduction := reduce_views calc_by (cilk.views st) in
  if bool_decide (better (get_value reduction) ext)
  then Some (get_value reduction, get_index reduction, cilk.world st)
  else Some (ext, loc, cilk.world st).

Definition forall_loc_indices_by (rt : runtime) (its : list Index_type)
    (ext : Z) (loc : Index_type)
    (loop_body : @cilk.LOOP_BODY_loc W) (w : W)
    : option (Z * Index_type * W) :=
  let st := {| cilk.ext_tmp := ext; cilk.loc_tmp := loc;
               cilk.views := replicate (length its) reducer_default;
               cilk.world := w |} in
  st ← parallel_for rt (seqZ 0 (Z.of_nat (length its)))
    (λ _ k st, cilk.loc_iteration calc_by loop_body its (Z.to_nat k) st) st;
  loc_merge ext loc st.

Definition forall_loc_HybridISet_by (nrt : nested_runtime)
    (hset : HybridISet) (ext : Z) (loc : Index_type)
    (loop_body : @cilk.LOOP_BODY_loc W) (w : W)
    : option (Z * Index_type * W) :=
  let st := {| cilk.ext_tmp := ext; cilk.loc_tmp := loc;
               cilk.views := replicate (length hset) reducer_default;
               cilk.world := w |} in
  st ← nested_for cilk.loc_enter (cilk.loc_inner calc_by loop_body)
         (cilk.loc_leave calc_by (λ a b, bool_decide (better a b)))
         nrt hset st;
  loc_merge ext loc st.

(** The state of the flat loop of a body [body_by val eff] once the
    iterations at the positions [ran] have run, the last of the list last,
    in whatever order: the shared extremum is at least as good as the
    caller's and as the value of every index that was run, and it is one of
    them; the view of an iteration that was run holds the index of the
    iteration and the extremum as it stood then, the view of the last one
    the extremum as it stands. *)
Definition loc_invariant (val : Index_type → Z) (its : list Index_type)
    (ext : Z) (loc : Index_type) (ran : list nat)
    (st : @cilk.loc_state W) : Prop :=
  ¬ better ext (cilk.ext_tmp st) ∧
  (∀ k i, k ∈ ran → its !! k = Some i → ¬ better (val i) (cilk.ext_tmp st)) ∧
  ((cilk.ext_tmp st, cilk.loc_tmp st) = (ext, loc) ∨
   ∃ k i, k ∈ ran ∧ its !! k = Some i ∧
          cilk.ext_tmp st = val i ∧ cilk.loc_tmp st = i) ∧
  length (cilk.views st) = length its ∧
  (∀ k, k ∉ ran → (k < length its)%nat →
        cilk.views st !! k = Some reducer_default) ∧
  (∀ k, k ∈ ran → ∃ i v,
        its !! k = Some i ∧
        cilk.views st !! k
        = Some {| m_index := i; m_value := v; m_is_set := true |} ∧
        ¬ better v (cilk.ext_tmp st)) ∧
  (∀ ran' k, ran = ran' ++ [k] → ∃ view,
        cilk.views st !! k = Some view ∧ m_value view = cilk.ext_tmp st).

(** What one worker adds to this: after the iterations at the positions
    [0 .. m) in program order the view of each holds a value that the value
    of its index does not beat: the value of its index, or the value of the
    view before it, the caller's value for the first. *)
Definition loc_chained (val : Index_type → Z) (its : list Index_type)
    (ext : Z) (m : nat) (st : @cilk.loc_state W) : Prop :=
  (m = 0%nat → cilk.ext_tmp st = ext) ∧
  (∀ k, (k < m)%nat → ∃ i v,
        its !! k = Some i ∧
        cilk.views st !! k
        = Some {| m_index := i; m_value := v; m_is_set := true |} ∧
        ¬ better (val i) v ∧
        (v = val i ∨ k = 0%nat ∧ v = ext ∨
         ∃ k' view', k = S k' ∧ cilk.views st !! k' = Some view' ∧
                     m_value view' = v)).

End extremum_definitions.

(** What the segmented loops need in order to go on: an outer iteration
    that was entered and not left holds a call whose index list and views
    have the length that the run time counts on. *)
Definition loc_total_inv {W : Type} (hset : HybridISet) (ps : list phase)
    (calls : list (option cilk.loc_call)) (st : @cilk.loc_state W)
    : Prop :=
  length ps = length hset ∧ length calls = length hset ∧
  length (cilk.views st) = length hset ∧
  ∀ isi ran, ps !! isi = Some (Running ran) →
    ∃ seg call,
      hset !! isi = Some seg ∧ calls !! isi = Some call ∧
      match call with
      | Some c => length (cilk.loc_its c) = inner_count seg ∧
                  length (cilk.call_views c) = inner_count seg
      | None => inner_count seg = 0%nat
      end.

(** ** The segmented sum: what an interleaving has done so far

    The indices whose iterations have run, for one segment and for the
    hybrid index set, given the phases of the outer iterations. *)
Definition done_of (seg : Segment) (p : phase) : list Index_type :=
  let its := default [] (segment_indices seg) in
  match p with
  | Fresh => []
  | Running ran => omap (λ k, its !! k) ran
  | Finished => its
  end.

Definition done_all (hset : HybridISet) (ps : list phase)
    : list Index_type :=
  mjoin (zip_with done_of hset ps).

(** What the flat calls in flight have collected in their own arrays. *)
Definition call_value {T : Type} `{!Sum_type T}
    (call : option (@cilk.sum_call T)) : T :=
  match call with
  | Some c => T_sum (cilk.inner_tmp c)
  | None => T_zero
  end.

Definition pending {T : Type} `{!Sum_type T}
    (calls : list (option (@cilk.sum_call T))) : T :=
  T_sum (call_value <$> calls).

(** The invariant of the segmented sum of a body [sum_body contrib eff]
    started on the memory [w0], on [nw] workers: the slots of the outer
    array and the arrays of the calls in flight together hold the
    contributions of the iterations that have run. *)
Definition sum_inv {W T : Type} `{!Sum_type T} (hset : HybridISet)
    (nw : nat) (contrib : Index_type → T) (eff : Index_type → W → W)
    (w0 : W) (ps : list phase) (calls : list (option (@cilk.sum_call T)))
    (st : list T * W) : Prop :=
  length ps = length hset ∧ length calls = length hset ∧
  length st.1 = nw ∧
  (∀ isi p, ps !! isi = Some p →
     match p with
     | Running ran =>
         ∃ seg call,
           hset !! isi = Some seg ∧ calls !! isi = Some call ∧
           NoDup ran ∧ (∀ k, k ∈ ran → (k < inner_count seg)%nat) ∧
           match call with
           | Some c => (cilk.slot c < nw)%nat ∧
                       length (cilk.inner_tmp c) = nw ∧
                       segment_indices seg = Some (cilk.sum_its c)
           | None => inner_count seg = 0%nat
           end
     | _ => calls !! isi = Some None
     end) ∧
  ∃ σ, st.2 = foldl (λ w ii, eff ii w) w0 σ ∧
       σ ≡ₚ done_all hset ps ∧
       T_add (T_sum st.1) (pending calls) = T_total contrib σ.

(** ** The segmented min and max with location: candidates and invariant

    What a segment can hand to the loop over segments: an index of the
    segment with the value of an index of the segment, or, for a range or
    unstructured segment without indices, the index 0 and the value 0 of
    the reducer in which nothing was recorded. *)
Definition seg_pairs (val : Index_type → Z) (seg : Segment)
    (l : Index_type) (v : Z) : Prop :=
  match segment_indices seg with
  | Some [] => handled seg = true ∧ l = 0 ∧ v = 0
  | Some its => l ∈ its ∧ ∃ i, i ∈ its ∧ val i = v
  | None => False
  end.

Section hybrid_extremum_definitions.
Context {W : Type}.
Context (better : Z → Z → Prop) `{!RelDecision better}.

(** The flat call of an outer iteration that was entered and not left,
    after its inner iterations [ran], the last one first: the invariant of
    the flat loop for the pair the call copied on entry, which the shared
    extremum has not fallen behind since. *)
Definition call_inv (val : Index_type → Z) (seg : Segment)
    (ran : list nat) (call : option cilk.loc_call)
    (st : @cilk.loc_state W) : Prop :=
  match call with
  | Some c =>
      handled seg = true ∧
      segment_indices seg = Some (cilk.loc_its c) ∧
      ∃ e0 l0,
        ¬ better e0 (cilk.ext_tmp st) ∧
        ∀ w : W,
          loc_invariant better val (cilk.loc_its c) e0 l0 (reverse ran)
            {| cilk.ext_tmp := cilk.call_ext c;
               cilk.loc_tmp := cilk.call_loc c;
               cilk.views := cilk.call_views c; cilk.world := w |}
  | None => handled seg = false
  end.

(** The invariant of the segmented loop of a body [body_by val eff] called
    with the pair [(ext, loc)]. *)
Definition hyb_inv (val : Index_type → Z) (hset : HybridISet)
    (ext : Z) (loc : Index_type) (ps : list phase)
    (calls : list (option cilk.loc_call)) (st : @cilk.loc_state W)
    : Prop :=
  length ps = length hset ∧ length calls = length hset ∧
  length (cilk.views st) = length hset ∧
  ¬ better ext (cilk.ext_tmp st) ∧
  ((cilk.ext_tmp st, cilk.loc_tmp st) = (ext, loc) ∨
   ∃ seg, seg ∈ hset ∧
          seg_pairs val seg (cilk.loc_tmp st) (cilk.ext_tmp st)) ∧
  (∀ isi p, ps !! isi = Some p →
     ∃ seg, hset !! isi = Some seg ∧
       match p with
       | Fresh => cilk.views st !! isi = Some reducer_default
       | Running ran =>
           cilk.views st !! isi = Some reducer_default ∧
           NoDup ran ∧ (∀ k, k ∈ ran → (k < inner_count seg)%nat) ∧
           ∃ call, calls !! isi = Some call ∧ call_inv val seg ran call st
       | Finished =>
           ∃ l' e',
             cilk.views st !! isi
             = Some {| m_index := l'; m_value := e'; m_is_set := true |} ∧
             ¬ better e' (cilk.ext_tmp st) ∧
             (e' = cilk.ext_tmp st → l' = cilk.loc_tmp st) ∧
             ∀ l v, seg_pairs val seg l v → ¬ better v (cilk.ext_tmp st)
       end) ∧
  ((∃ isi, ps !! isi = Some Finished) →
   ∃ isi l', ps !! isi = Some Finished ∧
     cilk.views st !! isi
     = Some {| m_index := l'; m_value := cilk.ext_tmp st;
               m_is_set := true |}).

End hybrid_extremum_definitions.

(** ** Facts about schedules and iteration spaces *)

Section schedules.
Context {S : Type}.

Lemma run_iterations_total (f : nat → Z → S → S) sched (s : S) :
  run_iterations (λ wk ii s, Some (f wk ii s)) sched s
  = Some (foldl (λ s p, f p.1 p.2 s) s sched).
Proof.
  revert s. induction sched as [|[wk ii] sched IH]; intros s; simpl; [done|].
  apply IH.
Qed.

Lemma run_iterations_app (iter : nat → Z → S → option S) l1 l2 (s : S) :
  run_iterations iter (l1 ++ l2) s
  = s' ← run_iterations iter l1 s; run_iterations iter l2 s'.
Proof.
  revert s. induction l1 as [|[wk ii] l1 IH]; intros s; simpl; [done|].
  destruct (iter wk ii s) as [s'|]; simpl; [apply IH | done].
Qed.

Lemma parallel_for_serial (f : Z → S → S) its (s : S) :
  parallel_for serial its (λ _ ii s, Some (f ii s)) s
  = Some (foldl (λ s ii, f ii s) s its).
Proof.
  unfold parallel_for. rewrite run_iterations_total. simpl.
  f_equal. revert s. induction its as [|ii its IH]; intros s; simpl; [done|].
  apply IH.
Qed.

End schedules.

Lemma serial_fair : fair serial.
Proof.
  intros its. simpl. split.
  - rewrite <- list_fmap_compose. simpl.
    induction its; simpl; [done | by f_equiv].
  - apply Forall_fmap, Forall_true. simpl. lia.
Qed.

Lemma snd_imap_pair (f : nat → nat) (l : list Z) :
  (imap (λ k ii, (f k, ii)) l).*2 = l.
Proof.
  revert f. induction l as [|x l IH]; intros f; simpl; [done|].
  f_equal. apply (IH (f ∘ S)).
Qed.

Lemma reversed_pair_fair : fair reversed_pair.
Proof.
  intros its. simpl. split.
  - rewrite snd_imap_pair. apply reverse_Permutation.
  - apply Forall_forall. intros [wk ii] Hin.
    apply elem_of_lookup_imap in Hin as (k & x & Heq & _).
    injection Heq as -> _. cbn [fst nworkers].
    pose proof (Nat.mod_upper_bound k 2). lia.
Qed.

Lemma occurrences_app j l1 l2 :
  occurrences j (l1 ++ l2) = (occurrences j l1 + occurrences j l2)%nat.
Proof. induction l1; simpl; lia. Qed.

Lemma occurrences_Permutation j l1 l2 :
  l1 ≡ₚ l2 → occurrences j l1 = occurrences j l2.
Proof. induction 1; simpl; lia. Qed.

Lemma occurrences_not_elem j l : j ∉ l → occurrences j l = 0%nat.
Proof.
  induction l as [|i l IH]; simpl; [done|]. intros Hn.
  apply not_elem_of_cons in Hn as [Hne Hn].
  rewrite bool_decide_eq_false_2 by done. by rewrite IH.
Qed.

Lemma occurrences_NoDup j l : NoDup l → j ∈ l → occurrences j l = 1%nat.
Proof.
  induction 1 as [|i l Hni Hnd IH]; simpl; intros Hin.
  - by apply elem_of_nil in Hin.
  - apply elem_of_cons in Hin as [->|Hin].
    + rewrite bool_decide_eq_true_2 by done.
      by rewrite occurrences_not_elem.
    + rewrite bool_decide_eq_false_2 by (intros ->; done).
      by rewrite IH.
Qed.

Lemma total_app contrib l1 l2 :
  total contrib (l1 ++ l2) = total contrib l1 + total contrib l2.
Proof. induction l1; simpl; lia. Qed.

Lemma total_Permutation contrib l1 l2 :
  l1 ≡ₚ l2 → total contrib l1 = total contrib l2.
Proof. induction 1; simpl; lia. Qed.

Lemma foldl_visit l (c : counters) j :
  foldl (λ c i, visit i c) c l j = (c j + occurrences j l)%nat.
Proof.
  revert c. induction l as [|i l IH]; intros c; simpl; [lia|].
  rewrite IH. unfold visit. case_bool_decide; lia.
Qed.

Lemma occurrences_range begin end_ j :
  occurrences j (range_indices begin end_)
  = if bool_decide (begin ≤ j < end_) then 1%nat else 0%nat.
Proof.
  unfold range_indices. case_bool_decide as Hj.
  - apply occurrences_NoDup; [apply NoDup_seqZ|].
    apply elem_of_seqZ. lia.
  - apply occurrences_not_elem. rewrite elem_of_seqZ. lia.
Qed.

(** The strided loop terminates for a positive stride once the fuel covers
    the distance to [end_], and yields each index [ii + k * stride] below
    [end_] once. *)
Lemma stride_loop_spec stride end_ fuel ii :
  0 < stride → end_ - ii ≤ Z.of_nat fuel →
  ∃ l, stride_loop fuel ii end_ stride = Some l ∧ NoDup l ∧
       ∀ j, j ∈ l ↔ on_stride ii end_ stride j.
Proof.
  intros Hs. revert ii. induction fuel as [|fuel IH]; intros ii Hfuel.
  - exists []. simpl. rewrite bool_decide_eq_false_2 by lia.
    split; [done|]. split; [constructor|].
    intros j. split; [by intros ?%elem_of_nil|]. intros (k & ? & ? & ?). nia.
  - simpl. case_bool_decide as Hlt.
    + destruct (IH (ii + stride)) as (l & -> & Hnd & Hl); [lia|].
      exists (ii :: l). split; [done|]. split.
      * constructor; [|done]. rewrite Hl. intros (k & ? & ? & ?). nia.
      * intros j. rewrite elem_of_cons, Hl. split.
        -- intros [->|(k & ? & ? & ?)].
           ++ exists 0. lia.
           ++ exists (k + 1). lia.
        -- intros (k & Hk & -> & ?).
           destruct (decide (k = 0)) as [->|]; [left; lia|].
           right. exists (k - 1). lia.
    + exists []. split; [done|]. split; [constructor|].
      intros j. split; [by intros ?%elem_of_nil|]. intros (k & ? & ? & ?). nia.
Qed.

Lemma range_stride_indices_spec begin end_ stride :
  0 < stride →
  ∃ l, range_stride_indices begin end_ stride = Some l ∧ NoDup l ∧
       ∀ j, j ∈ l ↔ on_stride begin end_ stride j.
Proof. intros Hs. apply stride_loop_spec; [done | lia]. Qed.

(** With a stride that is not positive the loop over a non-empty range never
    leaves its condition. *)
Lemma stride_loop_diverges stride end_ fuel ii :
  stride ≤ 0 → ii < end_ → stride_loop fuel ii end_ stride = None.
Proof.
  intros Hs. revert ii. induction fuel as [|fuel IH]; intros ii Hlt; simpl;
    rewrite bool_decide_eq_true_2 by done; [done|].
  rewrite IH by lia. done.
Qed.

Lemma indirection_indices_length idx :
  indirection_indices idx (Z.of_nat (length idx)) = Some idx.
Proof.
  unfold indirection_indices. apply mapM_Some.
  apply Forall2_same_length_lookup. split.
  - rewrite length_seqZ. lia.
  - intros i k x Hk Hx. apply lookup_seqZ in Hk as [-> _].
    rewrite Z.add_0_l, Nat2Z.id. done.
Qed.

(** ** Flat iteration under a fair schedule *)

Section flat.
Context {W : Type}.

Lemma forall_indices_trace rt its (loop_body : Index_type → W → W) w :
  cilk.forall_indices rt its loop_body w
  = Some (foldl (λ w ii, loop_body ii w) w (schedule rt its).*2).
Proof.
  unfold cilk.forall_indices, parallel_for.
  rewrite (run_iterations_total (λ _ ii w, loop_body ii w)).
  by rewrite foldl_fmap.
Qed.

End flat.

Lemma forall_indices_visits rt its :
  fair rt →
  ∃ c, cilk.forall_indices rt its visit no_visits = Some c ∧
       ∀ j, c j = occurrences j its.
Proof.
  intros Hfair. rewrite forall_indices_trace. eexists. split; [done|].
  intros j. rewrite foldl_visit. unfold no_visits. simpl.
  apply occurrences_Permutation, Hfair.
Qed.

(** ** Sums of integers *)

Lemma foldl_add_total a (l : list Z) :
  foldl Z.add a l = a + total (λ x, x) l.
Proof.
  revert a. induction l as [|x l IH]; intros a; simpl; [lia|].
  rewrite IH. lia.
Qed.

Lemma total_replicate_zero n : total (λ x, x) (replicate n 0) = 0.
Proof. induction n; simpl; lia. Qed.

Lemma total_insert (l : list Z) k old v :
  l !! k = Some old →
  total (λ x, x) (<[k := v]> l) = total (λ x, x) l - old + v.
Proof.
  revert k. induction l as [|x l IH]; intros [|k] Hk; simplify_eq/=; [lia|].
  rewrite (IH _ Hk). lia.
Qed.

(** ** The source functions at the two comparisons *)

Lemma forall_minloc_indices_by {W : Type} rt its min loc
    (loop_body : @cilk.LOOP_BODY_loc W) w :
  cilk.forall_minloc_indices rt its min loc loop_body w
  = forall_loc_indices_by Z.lt rt its min loc loop_body w.
Proof. reflexivity. Qed.

Lemma forall_maxloc_indices_by {W : Type} rt its max loc
    (loop_body : @cilk.LOOP_BODY_loc W) w :
  cilk.forall_maxloc_indices rt its max loc loop_body w
  = forall_loc_indices_by gt_rel rt its max loc loop_body w.
Proof. reflexivity. Qed.

Lemma forall_minloc_HybridISet_by {W : Type} nrt hset min loc
    (loop_body : @cilk.LOOP_BODY_loc W) w :
  cilk.forall_minloc_HybridISet nrt hset min loc loop_body w
  = forall_loc_HybridISet_by Z.lt nrt hset min loc loop_body w.
Proof. reflexivity. Qed.

Lemma forall_maxloc_HybridISet_by {W : Type} nrt hset max loc
    (loop_body : @cilk.LOOP_BODY_loc W) w :
  cilk.forall_maxloc_HybridISet nrt hset max loc loop_body w
  = forall_loc_HybridISet_by gt_rel nrt hset max loc loop_body w.
Proof. reflexivity. Qed.

Lemma min_body_by {W : Type} val (eff : Index_type → W → W) :
  min_body val eff = body_by Z.lt val eff.
Proof. reflexivity. Qed.

Lemma max_body_by {W : Type} val (eff : Index_type → W → W) :
  max_body val eff = body_by gt_rel val eff.
Proof. reflexivity. Qed.

(** ** Sum reduction under a fair schedule *)

#[global] Instance Z_sum_laws : Sum_laws Z.
Proof. split; intros; cbn; lia. Qed.

#[global] Instance unsigned_sum_laws : Sum_laws unsigned.
Proof.
  split.
  - intros a b c. apply dsig_eq. cbn.
    rewrite Zplus_mod_idemp_r, Zplus_mod_idemp_l. f_equal. lia.
  - intros a b. apply dsig_eq. cbn. f_equal. lia.
  - intros a. apply dsig_eq. cbn.
    pose proof (proj2_dsig a) as Ha. cbn in Ha.
    rewrite Z.add_0_r. apply Z.mod_small. unfold UINT_MAX in *. lia.
Qed.

Section sum.
Context {W T : Type} `{!Sum_type T} `{!Sum_laws T}.
Implicit Types (w : W) (eff : Index_type → W → W) (contrib : Index_type → T).

Lemma foldl_T_add (a : T) (l : list T) :
  foldl T_add a l = T_add a (T_sum l).
Proof.
  revert a. induction l as [|x l IH]; intros a; cbn.
  - by rewrite T_add_zero.
  - by rewrite IH, T_add_assoc.
Qed.

Lemma T_sum_replicate_zero n : T_sum (replicate n (@T_zero T _)) = T_zero.
Proof.
  unfold T_sum. induction n as [|n IH]; [done|].
  cbn [replicate foldr]. by rewrite IH, T_add_zero.
Qed.

Lemma T_sum_insert (l : list T) k old c :
  l !! k = Some old →
  T_sum (<[k := T_add old c]> l) = T_add (T_sum l) c.
Proof.
  revert k. induction l as [|x l IH]; intros [|k] Hk; simplify_eq/=.
  - by rewrite <- !T_add_assoc, (T_add_comm c).
  - by rewrite (IH _ Hk), T_add_assoc.
Qed.

Lemma T_total_app contrib l1 l2 :
  T_total contrib (l1 ++ l2)
  = T_add (T_total contrib l1) (T_total contrib l2).
Proof.
  induction l1 as [|i l1 IH]; cbn.
  - by rewrite T_add_comm, T_add_zero.
  - by rewrite IH, T_add_assoc.
Qed.

Lemma T_total_Permutation contrib l1 l2 :
  l1 ≡ₚ l2 → T_total contrib l1 = T_total contrib l2.
Proof.
  induction 1 as [|i l1 l2 _ IH|i j l|l1 l2 l3 _ IH1 _ IH2]; cbn.
  - done.
  - by rewrite IH.
  - by rewrite !T_add_assoc, (T_add_comm (contrib j)).
  - by rewrite IH1.
Qed.

(** The iterations of a sum loop, in the order and on the workers of
    [sched]: every slot stays in place, and the slots together grow by the
    contributions of the iterations. *)
Lemma sum_iterations_spec contrib eff n sched (sum_tmp : list T) w :
  Forall (λ p, (p.1 < n)%nat) sched → length sum_tmp = n →
  ∃ sum_tmp',
    run_iterations (cilk.sum_iteration (sum_body contrib eff)) sched
      (sum_tmp, w)
    = Some (sum_tmp', foldl (λ w ii, eff ii w) w sched.*2) ∧
    length sum_tmp' = n ∧
    T_sum sum_tmp' = T_add (T_sum sum_tmp) (T_total contrib sched.*2).
Proof.
  intros Hsched. revert sum_tmp w.
  induction Hsched as [|[wk ii] sched Hwk _ IH]; intros sum_tmp w Hlen.
  - exists sum_tmp. cbn. by rewrite T_add_zero.
  - simpl in Hwk.
    destruct (lookup_lt_is_Some_2 sum_tmp wk) as [slot Hslot]; [lia|].
    destruct (IH (<[wk := T_add slot (contrib ii)]> sum_tmp) (eff ii w))
      as (sum_tmp' & Hrun & Hlen' & Htot); [by rewrite length_insert|].
    exists sum_tmp'. cbn [run_iterations cilk.sum_iteration].
    rewrite Hslot. cbn. rewrite Hrun. split; [done|]. split; [done|].
    rewrite Htot, (T_sum_insert _ _ _ _ Hslot).
    by rewrite <- !T_add_assoc.
Qed.

Lemma forall_sum_indices_spec rt its (sum : T) contrib eff w :
  fair rt →
  cilk.forall_sum_indices rt its sum (sum_body contrib eff) w
  = Some (T_add sum (T_total contrib its),
          foldl (λ w ii, eff ii w) w (schedule rt its).*2).
Proof.
  intros Hfair. destruct (Hfair its) as [Hperm Hwk].
  unfold cilk.forall_sum_indices, parallel_for.
  destruct (sum_iterations_spec contrib eff (nworkers rt) (schedule rt its)
              (replicate (nworkers rt) T_zero) w Hwk)
    as (sum_tmp & Hrun & _ & Htot); [by rewrite length_replicate|].
  rewrite Hrun. cbn. do 2 f_equal.
  rewrite foldl_T_add, Htot, T_sum_replicate_zero.
  rewrite (T_total_Permutation _ _ _ Hperm).
  by rewrite (T_add_comm T_zero), T_add_zero.
Qed.

End sum.

(** A loop without iterations leaves the slots at zero: only the neutrality
    of zero is needed. *)
Lemma foldl_T_add_zeros {T : Type} `{!Sum_type T} (a : T) n :
  (∀ x : T, T_add x T_zero = x) →
  foldl T_add a (replicate n T_zero) = a.
Proof.
  intros Hzero. induction n as [|n IH]; cbn; [done|]. by rewrite Hzero.
Qed.

(** ** Hybrid index sets under a fair schedule *)

Lemma indices_of_positions_Permutation hset ps ps' :
  ps ≡ₚ ps' → indices_of_positions hset ps ≡ₚ indices_of_positions hset ps'.
Proof.
  induction 1 as [|x l l' _ IH|x y l|l1 l2 l3 _ IH1 _ IH2]; simpl.
  - done.
  - by rewrite IH.
  - rewrite !(assoc_L (++)). f_equiv. apply Permutation_app_comm.
  - by rewrite IH1.
Qed.

Lemma indices_of_positions_shift seg hset (n : nat) (len : Z) :
  indices_of_positions (seg :: hset) (seqZ (Z.of_nat (S n)) len)
  = indices_of_positions hset (seqZ (Z.of_nat n) len).
Proof.
  destruct (decide (len ≤ 0)) as [Hle|Hpos]; [by rewrite !seqZ_nil by done|].
  rewrite <- (Z2Nat.id len) by lia. generalize (Z.to_nat len). clear Hpos.
  intros m. revert n. induction m as [|m IH]; intros n.
  - by rewrite !seqZ_nil by done.
  - rewrite !(seqZ_cons _ (Z.of_nat (S m))) by lia. simpl.
    replace (Z.pred (Z.of_nat (S m))) with (Z.of_nat m) by lia.
    replace (Z.succ (Z.of_nat (S n))) with (Z.of_nat (S (S n))) by lia.
    replace (Z.succ (Z.of_nat n)) with (Z.of_nat (S n)) by lia.
    rewrite IH. f_equal. unfold indices_at, getSegment.
    by rewrite !Nat2Z.id.
Qed.

Lemma indices_of_all_positions hset :
  indices_of_positions hset (seqZ 0 (getNumSegments hset))
  = hybrid_indices hset.
Proof.
  unfold getNumSegments. induction hset as [|seg hset IH]; [done|].
  rewrite seqZ_cons by (simpl; lia). cbn [indices_of_positions hybrid_indices].
  f_equal. replace (Z.pred (Z.of_nat (length (seg :: hset))))
    with (Z.of_nat (length hset)) by (simpl; lia).
  rewrite <- IH. apply (indices_of_positions_shift seg hset 0).
Qed.

Lemma well_formed_lookup hset isi :
  well_formed hset → 0 ≤ isi < getNumSegments hset →
  ∃ seg l, getSegment hset isi = Some seg ∧ segment_indices seg = Some l ∧
           indices_at hset isi = l.
Proof.
  intros Hwf Hisi. unfold getNumSegments in Hisi.
  destruct (lookup_lt_is_Some_2 hset (Z.to_nat isi)) as [seg Hseg]; [lia|].
  destruct (proj1 (Forall_lookup _ _) Hwf _ _ Hseg) as [l Hl].
  exists seg, l. unfold indices_at, getSegment. rewrite Hseg. simpl.
  by rewrite Hl.
Qed.

Lemma fair_positions rt n :
  fair rt →
  Forall (λ p, (p.1 < nworkers rt)%nat ∧ 0 ≤ p.2 < n) (schedule rt (seqZ 0 n)).
Proof.
  intros Hfair. destruct (Hfair (seqZ 0 n)) as [Hperm Hwk].
  apply Forall_forall. intros p Hp. split.
  - by apply (proj1 (Forall_forall _ _) Hwk).
  - assert (p.2 ∈ seqZ 0 n) as Hin.
    { rewrite <- Hperm. apply list_elem_of_fmap. by exists p. }
    apply elem_of_seqZ in Hin. lia.
Qed.

Section hybrid.
Context {W : Type}.
Implicit Types (w : W) (eff : Index_type → W → W).

Lemma forall_segment_spec rt hset loop_body isi w :
  fair rt → well_formed hset → 0 ≤ isi < getNumSegments hset →
  ∃ σ, σ ≡ₚ indices_at hset isi ∧
       forall_segment rt hset loop_body isi w
       = Some (foldl (λ w ii, loop_body ii w) w σ).
Proof.
  intros Hfair Hwf Hisi.
  destruct (well_formed_lookup hset isi Hwf Hisi) as (seg & l & Hseg & Hl & ->).
  unfold forall_segment. rewrite Hseg. cbn.
  unfold segment_indices in Hl. destruct (m_type seg).
  - destruct (as_RangeISet seg) as [r|]; simplify_eq/=.
    exists (schedule rt (range_indices (getBegin r) (getEnd r))).*2.
    split; [apply Hfair|]. apply forall_indices_trace.
  - exists []. by simplify_eq/=.
  - destruct (as_UnstructuredISet seg) as [u|]; simplify_eq/=.
    exists (schedule rt (getIndex u)).*2. split; [apply Hfair|].
    unfold cilk.forall_UnstructuredISet, getLength.
    rewrite indirection_indices_length. cbn. apply forall_indices_trace.
  - exists []. by simplify_eq/=.
Qed.

Lemma forall_segments_spec rt hset loop_body sched w :
  fair rt → well_formed hset →
  Forall (λ p, 0 ≤ p.2 < getNumSegments hset) sched →
  ∃ σ, σ ≡ₚ indices_of_positions hset sched.*2 ∧
       run_iterations (λ _ isi w, forall_segment rt hset loop_body isi w)
         sched w
       = Some (foldl (λ w ii, loop_body ii w) w σ).
Proof.
  intros Hfair Hwf Hsched. revert w.
  induction Hsched as [|[wk isi] sched Hisi _ IH]; intros w.
  - exists []. done.
  - destruct (forall_segment_spec rt hset loop_body isi w Hfair Hwf Hisi)
      as (σ1 & Hσ1 & Hrun1).
    destruct (IH (foldl (λ w ii, loop_body ii w) w σ1)) as (σ2 & Hσ2 & Hrun2).
    exists (σ1 ++ σ2). split.
    + simpl. by rewrite Hσ1, Hσ2.
    + cbn [run_iterations]. rewrite Hrun1. cbn. rewrite Hrun2.
      by rewrite foldl_app.
Qed.

(** The segmented flat loop runs the body over a rearrangement of the
    indices of its segments. *)
Lemma forall_HybridISet_trace rt hset loop_body w :
  fair rt → well_formed hset →
  ∃ σ, σ ≡ₚ hybrid_indices hset ∧
       cilk.forall_HybridISet rt hset loop_body w
       = Some (foldl (λ w ii, loop_body ii w) w σ).
Proof.
  intros Hfair Hwf.
  destruct (forall_segments_spec rt hset loop_body
              (schedule rt (seqZ 0 (getNumSegments hset))) w Hfair Hwf)
    as (σ & Hσ & Hrun).
  { eapply Forall_impl; [by apply fair_positions|]. by intros p [_ ?]. }
  exists σ. split; [|exact Hrun].
  rewrite Hσ, <- indices_of_all_positions.
  apply indices_of_positions_Permutation, Hfair.
Qed.

End hybrid.

(** ** The elements of an iterable at scheduled positions *)

Lemma elements_at_all begin_it :
  elements_at begin_it (seqZ 0 (Z.of_nat (length begin_it))) = begin_it.
Proof.
  unfold elements_at. induction begin_it as [|x l IH] using rev_ind; [done|].
  rewrite length_app. simpl.
  replace (length l + 1)%nat with (S (length l)) by lia.
  rewrite seqZ_S, omap_app. simpl.
  rewrite Z.add_0_l, Nat2Z.id, lookup_app_r, Nat.sub_diag by lia. simpl.
  f_equal. rewrite <- IH at 2. apply list_omap_ext, Forall2_same_length_lookup.
  split; [done|]. intros k i j Hi Hj. simplify_eq.
  apply lookup_seqZ in Hi as [-> Hk]. rewrite Z.add_0_l, Nat2Z.id.
  apply lookup_app_l. lia.
Qed.

Lemma elements_at_fair rt begin_it :
  fair rt →
  elements_at begin_it
    (schedule rt (seqZ 0 (Z.of_nat (length begin_it)))).*2 ≡ₚ begin_it.
Proof.
  intros Hfair. rewrite <- (elements_at_all begin_it) at 3.
  unfold elements_at. apply omap_Permutation, Hfair.
Qed.

(** ** Min and max with location: the flat loop *)

Lemma fair_nil rt : fair rt → schedule rt [] = [].
Proof.
  intros Hfair. destruct (Hfair []) as [Hperm _].
  apply Permutation_nil_r in Hperm. by apply fmap_nil_inv in Hperm.
Qed.

Lemma gt_rel_irrefl a : ¬ gt_rel a a.
Proof. unfold gt_rel. lia. Qed.

Lemma gt_rel_trans a b c : gt_rel a b → gt_rel b c → gt_rel a c.
Proof. unfold gt_rel. lia. Qed.

Lemma gt_rel_total a b : gt_rel a b ∨ a = b ∨ gt_rel b a.
Proof. unfold gt_rel. lia. Qed.

Lemma lt_total a b : a < b ∨ a = b ∨ b < a.
Proof. lia. Qed.

Section extremum_any_body.
Context {W : Type}.
Context (better : Z → Z → Prop) `{!RelDecision better}.
Implicit Types (loop_body : @cilk.LOOP_BODY_loc W) (w : W).
Implicit Types (st : @cilk.loc_state W).

Lemma loc_iteration_Some
    (calc : reducer_index → Index_type → Z → reducer_index)
    loop_body its k st ii view :
  its !! k = Some ii → cilk.views st !! k = Some view →
  cilk.loc_iteration calc loop_body its k st
  = Some (let r := loop_body ii (cilk.ext_tmp st) (cilk.loc_tmp st)
                     (cilk.world st) in
          {| cilk.ext_tmp := r.1.1; cilk.loc_tmp := r.1.2;
             cilk.views := <[k := calc view ii r.1.1]> (cilk.views st);
             cilk.world := r.2 |}).
Proof.
  intros Hii Hview. unfold cilk.loc_iteration. rewrite Hii, Hview. cbn.
  by destruct (loop_body ii _ _ _) as [[v l] w'].
Qed.

(** Under a schedule of positions of the loop every iteration finds its
    index and its view. *)
Lemma loc_iterations_defined loop_body its (sched : list (nat * Z)) st :
  Forall (λ p, 0 ≤ p.2 < Z.of_nat (length its)) sched →
  length (cilk.views st) = length its →
  is_Some (run_iterations
             (λ _ k st, cilk.loc_iteration (calc_by better) loop_body its
                          (Z.to_nat k) st) sched st).
Proof.
  intros Hsched. revert st.
  induction Hsched as [|[wk k] sched Hk _ IH]; intros st Hlen.
  - by eexists.
  - simpl in Hk. cbn [run_iterations].
    destruct (lookup_lt_is_Some_2 its (Z.to_nat k)) as [ii Hii]; [lia|].
    destruct (lookup_lt_is_Some_2 (cilk.views st) (Z.to_nat k))
      as [view Hview]; [lia|].
    rewrite (loc_iteration_Some _ _ _ _ _ _ _ Hii Hview).
    cbn [mbind option_bind]. apply IH. cbn. by rewrite length_insert.
Qed.

(** Whatever the body does, the flat loop returns, and it hands back the
    pair it was given or a strictly better value. *)
Lemma forall_loc_indices_total rt its ext loc loop_body w :
  fair rt →
  ∃ v l w',
    forall_loc_indices_by better rt its ext loc loop_body w
    = Some (v, l, w') ∧
    ((v, l) = (ext, loc) ∨ better v ext).
Proof.
  intros Hfair. unfold forall_loc_indices_by, parallel_for.
  destruct (loc_iterations_defined loop_body its
              (schedule rt (seqZ 0 (Z.of_nat (length its))))
              {| cilk.ext_tmp := ext; cilk.loc_tmp := loc;
                 cilk.views := replicate (length its) reducer_default;
                 cilk.world := w |}) as [st ->].
  - eapply Forall_impl; [by apply fair_positions|]. by intros p [_ ?].
  - cbn. by rewrite length_replicate.
  - cbn. unfold loc_merge. case_bool_decide; eauto 10.
Qed.

(** Without iterations the merge reads the reducer as it was constructed. *)
Lemma forall_loc_indices_nil rt loop_body ext loc w :
  fair rt →
  forall_loc_indices_by better rt [] ext loc loop_body w
  = if bool_decide (better 0 ext) then Some (0, 0, w) else Some (ext, loc, w).
Proof.
  intros Hfair. unfold forall_loc_indices_by, parallel_for. cbn.
  by rewrite fair_nil.
Qed.

End extremum_any_body.

(** ** Nested loops: legal interleavings *)

Lemma legal_from_run counts ps tr1 tr2 ps' :
  legal_run counts ps tr1 = Some ps' →
  legal_from counts ps' tr2 → legal_from counts ps (tr1 ++ tr2).
Proof.
  revert ps. induction tr1 as [|e tr1 IH]; intros ps Hrun Hleg.
  - by simplify_eq/=.
  - cbn in *. destruct (legal_step counts ps e) as [ps1|]; [|done].
    by apply IH.
Qed.

Lemma legal_run_app counts ps tr1 tr2 :
  legal_run counts ps (tr1 ++ tr2)
  = ps' ← legal_run counts ps tr1; legal_run counts ps' tr2.
Proof.
  revert ps. induction tr1 as [|e tr1 IH]; intros ps; [done|].
  cbn. destruct (legal_step counts ps e); [apply IH | done].
Qed.

Lemma inner_strands_run counts ps m n (d j : nat) ran :
  counts !! m = Some n → (m < length ps)%nat → (j + d ≤ n)%nat →
  (∀ k, k ∈ ran → (k < j)%nat) →
  legal_run counts (<[m := Running ran]> ps) (Inner m <$> seq j d)
  = Some (<[m := Running (reverse (seq j d) ++ ran)]> ps).
Proof.
  intros Hn Hm. revert j ran. induction d as [|d IH]; intros j ran Hjd Hran.
  - done.
  - cbn [seq fmap list_fmap legal_run legal_step].
    rewrite list_lookup_insert_eq, Hn by done.
    rewrite bool_decide_true.
    2:{ split; [lia|]. intros Hin. apply Hran in Hin. lia. }
    cbn [mbind option_bind]. rewrite list_insert_insert_eq.
    rewrite IH; [|lia|].
    + by rewrite reverse_cons, <- (assoc_L (++)).
    + intros k Hk. apply elem_of_cons in Hk as [->|Hk]; [lia|].
      apply Hran in Hk. lia.
Qed.

Lemma segment_strands_run counts ps m n :
  counts !! m = Some n → ps !! m = Some Fresh →
  legal_run counts ps (segment_strands m n) = Some (<[m := Finished]> ps).
Proof.
  intros Hn Hm. pose proof (lookup_lt_Some _ _ _ Hm) as Hlt.
  unfold segment_strands. cbn [legal_run legal_step]. rewrite Hm.
  cbn [mbind option_bind]. rewrite legal_run_app.
  rewrite (inner_strands_run counts ps m n n 0 []);
    [|done|done|lia|by intros k Hk%elem_of_nil].
  cbn [mbind option_bind legal_run legal_step].
  rewrite list_lookup_insert_eq, Hn by done.
  rewrite bool_decide_true
    by by rewrite app_nil_r, length_reverse, length_seq.
  cbn. by rewrite list_insert_insert_eq.
Qed.

Lemma serial_strands_trace (g : nat → nat) counts :
  (mjoin (imap (λ isi n, pair 0%nat <$> segment_strands (g isi) n)
            counts)).*2
  = mjoin (imap (λ isi n, segment_strands (g isi) n) counts).
Proof.
  revert g. induction counts as [|n counts IH]; intros g; [done|].
  rewrite !imap_cons. cbn [mjoin list_join]. rewrite fmap_app. f_equal.
  - rewrite <- list_fmap_compose. apply list_fmap_id.
  - apply (IH (g ∘ S)).
Qed.

Lemma serial_strands_workers (g : nat → nat) counts :
  Forall (λ p : nat * strand, (p.1 < 1)%nat)
    (mjoin (imap (λ isi n, pair 0%nat <$> segment_strands (g isi) n) counts)).
Proof.
  revert g. induction counts as [|n counts IH]; intros g; [constructor|].
  rewrite imap_cons. cbn [mjoin list_join]. apply Forall_app. split.
  - apply Forall_fmap, Forall_true. intros e. cbn. lia.
  - apply (IH (g ∘ S)).
Qed.

Lemma serial_strands_legal counts pre post :
  counts = pre ++ post →
  legal_from counts
    (replicate (length pre) Finished ++ replicate (length post) Fresh)
    (mjoin (imap (λ j n, segment_strands (length pre + j) n) post)).
Proof.
  revert pre. induction post as [|n post IH]; intros pre Hcounts.
  - cbn. rewrite app_nil_r. apply Forall_replicate. done.
  - rewrite imap_cons. cbn [mjoin list_join].
    eapply legal_from_run.
    + apply segment_strands_run.
      * rewrite Hcounts, Nat.add_0_r.
        by rewrite lookup_app_r, Nat.sub_diag by lia.
      * rewrite Nat.add_0_r, lookup_app_r by by rewrite length_replicate.
        by rewrite length_replicate, Nat.sub_diag.
    + specialize (IH (pre ++ [n])). rewrite <- (assoc_L (++)) in IH.
      specialize (IH Hcounts). rewrite length_app in IH. cbn in IH.
      rewrite replicate_add in IH. cbn in IH.
      rewrite <- (assoc_L (++)) in IH. cbn in IH.
      rewrite Nat.add_0_r.
      rewrite insert_app_r_alt by by rewrite length_replicate.
      rewrite length_replicate, Nat.sub_diag.
      cbn. erewrite imap_ext; [exact IH|].
      intros j n' _. cbn. f_equal. lia.
Qed.

Lemma serial_nested_fair : nested_fair serial_nested.
Proof.
  intros counts. cbn [strands serial_nested nested_nworkers].
  unfold serial_strands. split.
  - change (λ isi n, pair 0%nat <$>
              (Enter isi :: (Inner isi <$> seq 0 n) ++ [Exit isi]))
      with (λ isi n, pair 0%nat <$> segment_strands (id isi) n).
    rewrite (serial_strands_trace id).
    apply (serial_strands_legal counts [] counts). done.
  - apply (serial_strands_workers id).
Qed.

(** Without outer iterations there is no strand; a single outer iteration
    without inner iterations is entered and left. *)
Lemma legal_from_nil tr : legal_from [] [] tr → tr = [].
Proof. destruct tr as [|[isi|isi k|isi] tr]; [done|..]; by cbn. Qed.

Lemma legal_from_single_zero tr :
  legal_from [0%nat] [Fresh] tr → tr = [Enter 0; Exit 0].
Proof.
  destruct tr as [|e1 tr]; [by intros [=]%Forall_cons_1%proj1|].
  destruct e1 as [isi|isi k|isi]; cbn;
    [|by destruct isi as [|[|?]]..].
  destruct isi as [|[|?]]; [|done..]. cbn.
  destruct tr as [|e2 tr]; [by intros [=]%Forall_cons_1%proj1|].
  destruct e2 as [isi|isi k|isi]; cbn;
    [by destruct isi as [|[|?]]|by destruct isi as [|[|?]]|].
  destruct isi as [|[|?]]; [|done..]. cbn.
  destruct tr as [|e3 tr]; [done|].
  by destruct e3 as [isi|isi k|isi]; cbn; destruct isi as [|[|?]].
Qed.

Lemma strands_nil nrt :
  nested_fair nrt → strands nrt [] = [].
Proof.
  intros Hfair. destruct (Hfair []) as [Hleg _].
  apply legal_from_nil in Hleg. by apply fmap_nil_inv in Hleg.
Qed.

Lemma strands_single_zero nrt :
  nested_fair nrt →
  ∃ wk1 wk2, strands nrt [0%nat] = [(wk1, Enter 0); (wk2, Exit 0)].
Proof.
  intros Hfair. destruct (Hfair [0%nat]) as [Hleg _].
  apply legal_from_single_zero in Hleg.
  destruct (strands nrt [0%nat]) as [|[wk1 e1] [|[wk2 e2] [|? ?]]];
    simplify_eq/=. by exists wk1, wk2.
Qed.

(** ** Nested loops: invariants of an execution *)

Section nested_invariant.
Context {S C : Type}.
Context (enter : nat → Segment → S → option (option C)).
Context (inner : nat → nat → C → S → option (C * S)).
Context (leave : nat → nat → option C → S → option S).
Context (hset : HybridISet) (nw : nat).
Context (Inv : list phase → list (option C) → S → Prop).

Hypothesis Inv_step : ∀ ps calls s wk e ps',
  Inv ps calls s → (wk < nw)%nat →
  legal_step (inner_count <$> hset) ps e = Some ps' →
  ∃ calls' s',
    strand_step enter inner leave hset wk e (calls, s) = Some (calls', s') ∧
    Inv ps' calls' s'.

(** A legal interleaving runs through, and the invariant holds at its end,
    where every outer iteration has been left. *)
Lemma strands_invariant tr ps calls s :
  Inv ps calls s →
  legal_from (inner_count <$> hset) ps tr.*2 →
  Forall (λ p : nat * strand, (p.1 < nw)%nat) tr →
  ∃ ps' calls' s',
    run_iterations (strand_step enter inner leave hset) tr (calls, s)
    = Some (calls', s') ∧
    Inv ps' calls' s' ∧ Forall (λ p, p = Finished) ps'.
Proof.
  revert ps calls s.
  induction tr as [|[wk e] tr IH]; intros ps calls s Hinv Hleg Hwk.
  - exists ps, calls, s. done.
  - apply Forall_cons in Hwk as [Hwk Hwks]. cbn in Hleg, Hwk.
    destruct (legal_step (inner_count <$> hset) ps e) as [ps1|] eqn:Hstep;
      [|done].
    destruct (Inv_step ps calls s wk e ps1 Hinv Hwk Hstep)
      as (calls1 & s1 & Hrun & Hinv1).
    destruct (IH ps1 calls1 s1 Hinv1 Hleg Hwks)
      as (ps' & calls' & s' & Hrun' & Hinv' & Hfin).
    exists ps', calls', s'. cbn [run_iterations]. rewrite Hrun. done.
Qed.

Lemma nested_for_invariant nrt s :
  nested_fair nrt → nested_nworkers nrt = nw →
  Inv (replicate (length hset) Fresh) (replicate (length hset) None) s →
  ∃ ps' calls' s',
    nested_for enter inner leave nrt hset s = Some s' ∧
    Inv ps' calls' s' ∧ Forall (λ p, p = Finished) ps'.
Proof.
  intros Hfair Hnw Hinv. destruct (Hfair (inner_count <$> hset)) as [Hleg Hwk].
  rewrite length_fmap in Hleg. rewrite Hnw in Hwk.
  destruct (strands_invariant _ _ _ _ Hinv Hleg Hwk)
    as (ps' & calls' & s' & Hrun & Hinv' & Hfin).
  exists ps', calls', s'. unfold nested_for. rewrite Hrun. done.
Qed.

End nested_invariant.

Lemma getSegment_of_nat hset (isi : nat) :
  getSegment hset (Z.of_nat isi) = hset !! isi.
Proof. unfold getSegment. by rewrite Nat2Z.id. Qed.

Lemma legal_step_length counts ps e ps' :
  legal_step counts ps e = Some ps' → length ps' = length ps.
Proof.
  destruct e as [isi|isi k|isi]; cbn; intros Hstep.
  - destruct (ps !! isi) as [[]|]; simplify_eq. by rewrite length_insert.
  - destruct (ps !! isi) as [[]|], (counts !! isi); simplify_eq.
    case_bool_decide; simplify_eq. by rewrite length_insert.
  - destruct (ps !! isi) as [[]|], (counts !! isi); simplify_eq.
    case_bool_decide; simplify_eq. by rewrite length_insert.
Qed.

Lemma legal_step_Enter counts ps isi ps' :
  legal_step counts ps (Enter isi) = Some ps' →
  ps !! isi = Some Fresh ∧ ps' = <[isi := Running []]> ps.
Proof.
  cbn. destruct (ps !! isi) as [[]|]; [|done..]. by intros [= <-].
Qed.

Lemma legal_step_Inner counts ps isi k ps' :
  legal_step counts ps (Inner isi k) = Some ps' →
  ∃ ran n,
    ps !! isi = Some (Running ran) ∧ counts !! isi = Some n ∧
    (k < n)%nat ∧ (k ∉ ran) ∧ ps' = <[isi := Running (k :: ran)]> ps.
Proof.
  cbn. destruct (ps !! isi) as [[|ran|]|]; [done| |done..].
  destruct (counts !! isi) as [n|]; [|done].
  case_bool_decide as Hk; [|done]. destruct Hk. intros [= <-].
  by exists ran, n.
Qed.

Lemma legal_step_Exit counts ps isi ps' :
  legal_step counts ps (Exit isi) = Some ps' →
  ∃ ran,
    ps !! isi = Some (Running ran) ∧ counts !! isi = Some (length ran) ∧
    ps' = <[isi := Finished]> ps.
Proof.
  cbn. destruct (ps !! isi) as [[|ran|]|]; [done| |done..].
  destruct (counts !! isi) as [n|]; [|done].
  case_bool_decide as Hk; [|done]. intros [= <-]. subst n.
  by exists ran.
Qed.

(** ** Min and max with location: the segmented loop returns *)

Section extremum_hybrid_any_body.
Context {W : Type}.
Context (better : Z → Z → Prop) `{!RelDecision better}.
Implicit Types (loop_body : @cilk.LOOP_BODY_loc W) (w : W).
Implicit Types (st : @cilk.loc_state W).

Lemma loc_enter_well_formed wk seg st :
  is_Some (segment_indices seg) →
  ∃ call,
    cilk.loc_enter wk seg st = Some call ∧
    match call with
    | Some c =>
        segment_indices seg = Some (cilk.loc_its c) ∧
        length (cilk.loc_its c) = inner_count seg ∧
        cilk.call_views c
        = replicate (length (cilk.loc_its c)) reducer_default ∧
        cilk.call_ext c = cilk.ext_tmp st ∧
        cilk.call_loc c = cilk.loc_tmp st ∧
        handled seg = true
    | None => inner_count seg = 0%nat ∧ handled seg = false
    end.
Proof.
  intros [l Hl]. unfold cilk.loc_enter, segment_indices, inner_count, handled
    in *.
  destruct (m_type seg); [| by eexists | | by eexists].
  - destruct (as_RangeISet seg) as [r|]; [|done]. simplify_eq/=.
    eexists. split; [done|]. done.
  - destruct (as_UnstructuredISet seg) as [u|]; [|done]. simplify_eq/=.
    unfold getLength. rewrite indirection_indices_length. cbn.
    eexists. split; [done|]. done.
Qed.

Lemma loc_total_inv_step loop_body hset nw ps calls st wk e ps' :
  well_formed hset →
  loc_total_inv hset ps calls st → (wk < nw)%nat →
  legal_step (inner_count <$> hset) ps e = Some ps' →
  ∃ calls' st',
    strand_step cilk.loc_enter
      (cilk.loc_inner (calc_by better) loop_body)
      (cilk.loc_leave (calc_by better) (λ a b, bool_decide (better a b)))
      hset wk e (calls, st) = Some (calls', st') ∧
    loc_total_inv hset ps' calls' st'.
Proof.
  intros Hwf (Hps & Hcalls & Hviews & Hrun) _ Hstep.
  pose proof (legal_step_length _ _ _ _ Hstep) as Hlen.
  destruct e as [isi|isi k|isi]; cbn in Hstep.
  - destruct (ps !! isi) as [[]|] eqn:Hisi; simplify_eq.
    pose proof (lookup_lt_Some _ _ _ Hisi) as Hlt. rewrite Hps in Hlt.
    destruct (lookup_lt_is_Some_2 hset isi Hlt) as [seg Hseg].
    destruct (loc_enter_well_formed wk seg st) as (call & Hcall & Hok).
    { eapply Forall_lookup_1 in Hwf; [|exact Hseg]. done. }
    eexists _, _. cbn. rewrite getSegment_of_nat, Hseg. cbn.
    rewrite Hcall. cbn. split; [done|].
    split; [by rewrite Hlen|]. split; [by rewrite length_insert|].
    split; [done|]. intros isi' ran Hisi'.
    destruct (decide (isi' = isi)) as [->|Hne].
    + exists seg, call. split; [done|].
      rewrite list_lookup_insert_eq by lia. split; [done|].
      destruct call as [c|]; [|by destruct Hok].
      destruct Hok as (_ & Hl & -> & _). by rewrite length_replicate.
    + rewrite list_lookup_insert_ne in Hisi' by done.
      rewrite list_lookup_insert_ne by done. by apply (Hrun isi' ran).
  - destruct (ps !! isi) as [[|ran|]|] eqn:Hisi; simplify_eq.
    destruct ((inner_count <$> hset) !! isi) as [n|] eqn:Hn; simplify_eq.
    case_bool_decide as Hk; simplify_eq. destruct Hk as [Hk _].
    destruct (Hrun isi ran Hisi) as (seg & call & Hseg & Hcall & Hok).
    rewrite list_lookup_fmap, Hseg in Hn. simplify_eq/=.
    destruct call as [c|]; [|lia]. destruct Hok as [Hits Hcv].
    destruct (lookup_lt_is_Some_2 (cilk.loc_its c) k) as [ii Hii]; [lia|].
    destruct (lookup_lt_is_Some_2 (cilk.call_views c) k) as [view Hview];
      [lia|].
    cbn. rewrite Hcall. cbn. unfold cilk.loc_inner.
    rewrite (loc_iteration_Some _ _ _ _ _ ii view) by done.
    cbn. eexists _, _. split; [done|].
    split; [by rewrite Hlen|]. split; [by rewrite length_insert|].
    split; [done|]. intros isi' ran' Hisi'.
    destruct (decide (isi' = isi)) as [->|Hne].
    + exists seg. eexists. split; [done|].
      rewrite list_lookup_insert_eq by by eapply lookup_lt_Some.
      split; [done|]. cbn.
      by rewrite length_insert.
    + rewrite list_lookup_insert_ne in Hisi' by done.
      rewrite list_lookup_insert_ne by done. by apply (Hrun isi' ran').
  - destruct (ps !! isi) as [[|ran|]|] eqn:Hisi; simplify_eq.
    destruct ((inner_count <$> hset) !! isi) as [n|] eqn:Hn; simplify_eq.
    case_bool_decide as Hk; simplify_eq.
    destruct (Hrun isi ran Hisi) as (seg & call & Hseg & Hcall & Hok).
    pose proof (lookup_lt_Some _ _ _ Hseg) as Hlt.
    destruct (lookup_lt_is_Some_2 (cilk.views st) isi) as [view Hview];
      [lia|].
    cbn. rewrite Hcall. cbn. unfold cilk.loc_leave.
    destruct (match call with Some c => _ | None => _ end) as [e l].
    rewrite Hview. cbn. eexists _, _. split; [done|].
    split; [by rewrite Hlen|]. split; [by rewrite length_insert|].
    split; [cbn; by rewrite length_insert|]. intros isi' ran' Hisi'.
    destruct (decide (isi' = isi)) as [->|Hne].
    + rewrite list_lookup_insert_eq in Hisi' by by eapply lookup_lt_Some.
      done.
    + rewrite list_lookup_insert_ne in Hisi' by done.
      rewrite list_lookup_insert_ne by done. by apply (Hrun isi' ran').
Qed.

(** Whatever the body does, the segmented loop returns, and it hands back
    the pair it was given or a strictly better value. *)
Lemma forall_loc_HybridISet_total nrt hset ext loc loop_body w :
  nested_fair nrt → well_formed hset →
  ∃ v l w',
    forall_loc_HybridISet_by better nrt hset ext loc loop_body w
    = Some (v, l, w') ∧
    ((v, l) = (ext, loc) ∨ better v ext).
Proof.
  intros Hfair Hwf. unfold forall_loc_HybridISet_by.
  destruct (nested_for_invariant cilk.loc_enter
              (cilk.loc_inner (calc_by better) loop_body)
              (cilk.loc_leave (calc_by better)
                 (λ a b, bool_decide (better a b)))
              hset (nested_nworkers nrt) (loc_total_inv hset)
              (λ ps calls s wk e ps' Hinv Hwk Hstep,
                 loc_total_inv_step loop_body hset (nested_nworkers nrt)
                   ps calls s wk e ps' Hwf Hinv Hwk Hstep)
              nrt
              {| cilk.ext_tmp := ext; cilk.loc_tmp := loc;
                 cilk.views := replicate (length hset) reducer_default;
                 cilk.world := w |} Hfair eq_refl)
    as (ps' & calls' & st' & -> & _ & _).
  - unfold loc_total_inv. cbn. rewrite !length_replicate.
    split; [done|]. split; [done|]. split; [done|].
    intros isi ran Hisi. apply lookup_replicate in Hisi as [? _]. done.
  - cbn. unfold loc_merge. case_bool_decide; eauto 10.
Qed.

End extremum_hybrid_any_body.

(** ** The segmented sum under a fair interleaving *)

Lemma join_insert_Permutation {A : Type} (ls : list (list A)) i a b :
  ls !! i = Some a → mjoin (<[i := b]> ls) ++ a ≡ₚ mjoin ls ++ b.
Proof.
  revert i. induction ls as [|x ls IH]; intros [|i] Hi; simplify_eq/=.
  - rewrite (Permutation_app_comm (b ++ mjoin ls) a).
    rewrite (Permutation_app_comm b). by rewrite (assoc_L (++)).
  - rewrite <- !(assoc_L (++)). f_equiv. by apply IH.
Qed.

Lemma segment_indices_length seg :
  length (default [] (segment_indices seg)) = inner_count seg.
Proof.
  unfold segment_indices, inner_count.
  destruct (m_type seg); [|done| |done].
  - by destruct (as_RangeISet seg).
  - by destruct (as_UnstructuredISet seg).
Qed.

Lemma omap_lookup_seq {A : Type} (l : list A) :
  omap (λ k, l !! k) (seq 0 (length l)) = l.
Proof.
  induction l as [|x l IH] using rev_ind; [done|].
  rewrite length_app. cbn. rewrite Nat.add_1_r, seq_S, omap_app. cbn.
  rewrite lookup_app_r, Nat.sub_diag by lia. cbn. f_equal.
  rewrite <- IH at 2. apply list_omap_ext, Forall2_same_length_lookup.
  split; [done|]. intros k i j Hi Hj. simplify_eq.
  apply lookup_seq in Hi as [-> Hk]. by apply lookup_app_l.
Qed.

Lemma all_positions_Permutation (ran : list nat) n :
  NoDup ran → (∀ k, k ∈ ran → (k < n)%nat) → length ran = n →
  ran ≡ₚ seq 0 n.
Proof.
  intros Hnd Hlt Hlen. apply submseteq_length_Permutation.
  - apply NoDup_submseteq; [done|]. intros k Hk. apply elem_of_seq.
    specialize (Hlt k Hk). lia.
  - rewrite length_seq. lia.
Qed.

Lemma done_of_all seg ran :
  NoDup ran → (∀ k, k ∈ ran → (k < inner_count seg)%nat) →
  length ran = inner_count seg →
  done_of seg (Running ran) ≡ₚ done_of seg Finished.
Proof.
  intros Hnd Hlt Hlen. unfold done_of.
  rewrite (all_positions_Permutation ran _ Hnd Hlt Hlen).
  by rewrite <- segment_indices_length, omap_lookup_seq.
Qed.

Lemma done_all_insert hset ps isi seg p p' :
  hset !! isi = Some seg → ps !! isi = Some p →
  done_all hset (<[isi := p']> ps) ++ done_of seg p
  ≡ₚ done_all hset ps ++ done_of seg p'.
Proof.
  intros Hseg Hp. unfold done_all.
  rewrite <- (list_insert_id hset isi seg Hseg) at 1.
  rewrite <- insert_zip_with. apply join_insert_Permutation.
  by rewrite lookup_zip_with, Hseg, Hp.
Qed.

Lemma done_all_insert_same hset ps isi seg p p' :
  hset !! isi = Some seg → ps !! isi = Some p →
  done_of seg p' ≡ₚ done_of seg p →
  done_all hset (<[isi := p']> ps) ≡ₚ done_all hset ps.
Proof.
  intros Hseg Hp Hsame.
  apply (Permutation_app_inv_r (done_of seg p)).
  rewrite (done_all_insert _ _ _ _ _ _ Hseg Hp). by rewrite Hsame.
Qed.

Lemma done_all_insert_cons hset ps isi seg p p' ii :
  hset !! isi = Some seg → ps !! isi = Some p →
  done_of seg p' = ii :: done_of seg p →
  done_all hset (<[isi := p']> ps) ≡ₚ done_all hset ps ++ [ii].
Proof.
  intros Hseg Hp Hcons.
  apply (Permutation_app_inv_r (done_of seg p)).
  rewrite (done_all_insert _ _ _ _ _ _ Hseg Hp), Hcons.
  rewrite <- (assoc_L (++)). by f_equiv.
Qed.

Lemma done_all_fresh hset :
  done_all hset (replicate (length hset) Fresh) = [].
Proof.
  unfold done_all. induction hset as [|seg hset IH]; [done|].
  change (done_of seg Fresh
          ++ mjoin (zip_with done_of hset (replicate (length hset) Fresh))
          = []).
  by rewrite IH.
Qed.

Lemma done_all_finished hset ps :
  length ps = length hset → Forall (λ p, p = Finished) ps →
  done_all hset ps = hybrid_indices hset.
Proof.
  unfold done_all. revert ps.
  induction hset as [|seg hset IH]; intros [|p ps] Hlen Hfin;
    simplify_eq/=; [done|].
  apply Forall_cons in Hfin as [-> Hfin].
  change (done_of seg Finished ++ mjoin (zip_with done_of hset ps)
          = default [] (segment_indices seg) ++ hybrid_indices hset).
  by rewrite IH.
Qed.

Section nested_sum.
Context {W T : Type} `{!Sum_type T} `{!Sum_laws T}.
Implicit Types (w : W) (eff : Index_type → W → W) (contrib : Index_type → T).
Implicit Types (calls : list (option (@cilk.sum_call T))).

Lemma T_sum_insert_split (l : list T) k old new :
  l !! k = Some old →
  T_sum (<[k := new]> l) = T_add (T_sum (<[k := T_zero]> l)) new.
Proof.
  revert k. induction l as [|x l IH]; intros [|k] Hk; simplify_eq/=.
  - unfold T_sum. cbn. fold (T_sum l).
    rewrite (T_add_comm T_zero), T_add_zero. apply T_add_comm.
  - unfold T_sum. cbn.
    fold (T_sum (<[k := new]> l)) (T_sum (<[k := T_zero]> l)).
    by rewrite (IH _ Hk), T_add_assoc.
Qed.

(** The arrays of the calls in flight: the one of the outer iteration
    [isi] and those of the others. *)
Lemma pending_split calls isi old new :
  calls !! isi = Some old →
  pending (<[isi := new]> calls)
  = T_add (pending (<[isi := None]> calls)) (call_value new).
Proof.
  intros Hold. unfold pending. rewrite !list_fmap_insert.
  eapply T_sum_insert_split. by rewrite list_lookup_fmap, Hold.
Qed.

Lemma pending_lookup calls isi old :
  calls !! isi = Some old →
  pending calls = T_add (pending (<[isi := None]> calls)) (call_value old).
Proof.
  intros Hold. rewrite <- (pending_split calls isi old old Hold).
  by rewrite list_insert_id.
Qed.

Lemma pending_none calls :
  Forall (λ call, call = None) calls → pending calls = T_zero.
Proof.
  unfold pending, T_sum. induction 1 as [|call calls -> _ IH]; [done|].
  cbn. by rewrite IH, T_add_zero.
Qed.

Lemma sum_enter_well_formed nw wk seg (st : list T * W) :
  is_Some (segment_indices seg) →
  ∃ call,
    cilk.sum_enter nw wk seg st = Some call ∧
    match call with
    | Some c => cilk.slot c = wk ∧
                cilk.inner_tmp c = replicate nw T_zero ∧
                segment_indices seg = Some (cilk.sum_its c)
    | None => inner_count seg = 0%nat
    end.
Proof.
  intros [l Hl]. unfold cilk.sum_enter, segment_indices, inner_count in *.
  destruct (m_type seg); [| by eexists | | by eexists].
  - destruct (as_RangeISet seg) as [r|]; [|done]. simplify_eq/=.
    by eexists.
  - destruct (as_UnstructuredISet seg) as [u|]; [|done]. simplify_eq/=.
    unfold getLength. rewrite indirection_indices_length. cbn.
    by eexists.
Qed.

Lemma sum_inv_step hset nw contrib eff w0 ps calls (st : list T * W)
    wk e ps' :
  well_formed hset →
  sum_inv hset nw contrib eff w0 ps calls st → (wk < nw)%nat →
  legal_step (inner_count <$> hset) ps e = Some ps' →
  ∃ calls' st',
    strand_step (cilk.sum_enter nw)
      (cilk.sum_inner (sum_body contrib eff)) cilk.sum_leave
      hset wk e (calls, st) = Some (calls', st') ∧
    sum_inv hset nw contrib eff w0 ps' calls' st'.
Proof.
  intros Hwf (Hps & Hcalls & Hslots & Hphase & σ & Hw & Hσ & Hacc) Hwk Hstep.
  pose proof (legal_step_length _ _ _ _ Hstep) as Hlen.
  destruct st as [sum_tmp w]. cbn [fst snd] in *.
  destruct e as [isi|isi k|isi].
  - apply legal_step_Enter in Hstep as [Hisi ->].
    pose proof (lookup_lt_Some _ _ _ Hisi) as Hlt. rewrite Hps in Hlt.
    destruct (lookup_lt_is_Some_2 hset isi Hlt) as [seg Hseg].
    destruct (sum_enter_well_formed nw wk seg (sum_tmp, w))
      as (call & Hcall & Hok).
    { eapply Forall_lookup_1 in Hwf; [|exact Hseg]. done. }
    pose proof (Hphase isi Fresh Hisi) as Hnone. cbn in Hnone.
    eexists _, _. cbn. rewrite getSegment_of_nat, Hseg. cbn.
    rewrite Hcall. cbn. split; [done|].
    split; [by rewrite Hlen|]. split; [by rewrite length_insert|].
    split; [done|]. split.
    + intros isi' p Hisi'. destruct (decide (isi' = isi)) as [->|Hne].
      * rewrite list_lookup_insert_eq in Hisi' by lia. simplify_eq.
        exists seg, call. split; [done|].
        rewrite list_lookup_insert_eq by lia. split; [done|].
        split; [constructor|]. split; [by intros k Hk%elem_of_nil|].
        destruct call as [c|]; [|done].
        destruct Hok as (-> & -> & ?). by rewrite length_replicate.
      * rewrite list_lookup_insert_ne in Hisi' by done.
        specialize (Hphase isi' p Hisi').
        by rewrite list_lookup_insert_ne by done.
    + exists σ. split; [done|]. split.
      * rewrite Hσ. symmetry. by eapply done_all_insert_same.
      * rewrite <- Hacc. f_equal.
        rewrite (pending_split calls isi None call Hnone).
        rewrite (pending_lookup calls isi None Hnone). f_equal.
        destruct call as [c|]; cbn [call_value]; [|done].
        destruct Hok as (_ & -> & _). by rewrite T_sum_replicate_zero.
  - apply legal_step_Inner in Hstep
      as (ran & n & Hisi & Hn & Hk & Hnew & ->).
    destruct (Hphase isi _ Hisi)
      as (seg & call & Hseg & Hcall & Hnd & Hran & Hok).
    rewrite list_lookup_fmap, Hseg in Hn. injection Hn as <-.
    destruct call as [c|]; [|lia]. destruct Hok as (Hslot & Htmp & Hits).
    assert (length (cilk.sum_its c) = inner_count seg) as Hitslen.
    { rewrite <- segment_indices_length, Hits. done. }
    destruct (lookup_lt_is_Some_2 (cilk.sum_its c) k) as [ii Hii]; [lia|].
    destruct (lookup_lt_is_Some_2 (cilk.inner_tmp c) wk) as [x Hx]; [lia|].
    cbn. rewrite Hcall. cbn. rewrite Hii. cbn. rewrite Hx. cbn.
    eexists _, _. split; [done|].
    split; [by rewrite Hlen|]. split; [by rewrite length_insert|].
    split; [done|]. split.
    + intros isi' p Hisi'. destruct (decide (isi' = isi)) as [->|Hne].
      * rewrite list_lookup_insert_eq in Hisi'
          by by eapply lookup_lt_Some.
        simplify_eq. exists seg. eexists. split; [done|].
        rewrite list_lookup_insert_eq by by eapply lookup_lt_Some.
        split; [done|]. split; [by constructor|]. split.
        -- intros k' Hk'. apply elem_of_cons in Hk' as [->|Hk']; auto.
        -- cbn. by rewrite length_insert.
      * rewrite list_lookup_insert_ne in Hisi' by done.
        specialize (Hphase isi' p Hisi').
        by rewrite list_lookup_insert_ne by done.
    + exists (σ ++ [ii]). split; [by rewrite foldl_app, Hw|]. split.
      * rewrite Hσ. symmetry.
        eapply done_all_insert_cons; [done..|].
        unfold done_of. rewrite Hits. cbn. by rewrite Hii.
      * rewrite T_total_app. cbn. rewrite T_add_zero, <- Hacc.
        rewrite (pending_split calls isi _ _ Hcall).
        rewrite (pending_lookup calls isi _ Hcall).
        cbn [call_value cilk.inner_tmp].
        rewrite (T_sum_insert _ _ _ _ Hx). by rewrite !T_add_assoc.
  - apply legal_step_Exit in Hstep as (ran & Hisi & Hn & ->).
    destruct (Hphase isi _ Hisi)
      as (seg & call & Hseg & Hcall & Hnd & Hran & Hok).
    rewrite list_lookup_fmap, Hseg in Hn. injection Hn as Hn.
    assert (done_all hset (<[isi := Finished]> ps) ≡ₚ done_all hset ps)
      as Hdone.
    { eapply done_all_insert_same; [done..|]. symmetry.
      by apply done_of_all. }
    cbn. rewrite Hcall. cbn. destruct call as [c|].
    + destruct Hok as (Hslot & Htmp & Hits).
      destruct (lookup_lt_is_Some_2 sum_tmp (cilk.slot c)) as [x Hx];
        [lia|].
      rewrite Hx. cbn. eexists _, _. split; [done|].
      unfold sum_inv. cbn [fst snd].
      split; [by rewrite Hlen|]. split; [by rewrite length_insert|].
      split; [by rewrite length_insert|]. split.
      * intros isi' p Hisi'. destruct (decide (isi' = isi)) as [->|Hne].
        -- rewrite list_lookup_insert_eq in Hisi'
             by by eapply lookup_lt_Some.
           simplify_eq. apply list_lookup_insert_eq.
           by eapply lookup_lt_Some.
        -- rewrite list_lookup_insert_ne in Hisi' by done.
           specialize (Hphase isi' p Hisi').
           by rewrite list_lookup_insert_ne by done.
      * exists σ. split; [done|]. split; [by rewrite Hσ, Hdone|].
        rewrite <- Hacc.
        rewrite (pending_lookup calls isi _ Hcall). cbn [call_value].
        rewrite foldl_T_add, (T_sum_insert _ _ _ _ Hx).
        rewrite <- !T_add_assoc. f_equal. apply T_add_comm.
    + eexists _, _. split; [done|].
      rewrite (list_insert_id calls) by done.
      unfold sum_inv. cbn [fst snd].
      split; [by rewrite Hlen|]. split; [done|]. split; [done|]. split.
      * intros isi' p Hisi'. destruct (decide (isi' = isi)) as [->|Hne].
        -- rewrite list_lookup_insert_eq in Hisi'
             by by eapply lookup_lt_Some.
           by simplify_eq.
        -- rewrite list_lookup_insert_ne in Hisi' by done.
           by apply Hphase.
      * exists σ. split; [done|]. split; [by rewrite Hσ, Hdone | done].
Qed.

(** The segmented sum under every fair interleaving of its strands: the
    caller's total grows by the contributions of the indices of all
    segments, and the body runs once for each of them. *)
Lemma forall_sum_HybridISet_spec nrt hset (sum : T) contrib eff w :
  nested_fair nrt → well_formed hset →
  ∃ σ, σ ≡ₚ hybrid_indices hset ∧
    cilk.forall_sum_HybridISet nrt hset sum (sum_body contrib eff) w
    = Some (T_add sum (T_total contrib (hybrid_indices hset)),
            foldl (λ w ii, eff ii w) w σ).
Proof.
  intros Hfair Hwf. unfold cilk.forall_sum_HybridISet.
  destruct (nested_for_invariant (cilk.sum_enter (nested_nworkers nrt))
              (cilk.sum_inner (sum_body contrib eff)) cilk.sum_leave
              hset (nested_nworkers nrt)
              (sum_inv hset (nested_nworkers nrt) contrib eff w)
              (λ ps calls s wk e ps' Hinv Hwk Hstep,
                 sum_inv_step hset (nested_nworkers nrt) contrib eff w
                   ps calls s wk e ps' Hwf Hinv Hwk Hstep)
              nrt (replicate (nested_nworkers nrt) T_zero, w) Hfair eq_refl)
    as (ps' & calls' & [sum_tmp w'] & -> & Hinv & Hfin).
  - unfold sum_inv. cbn [fst snd]. rewrite !length_replicate.
    split; [done|]. split; [done|]. split; [done|]. split.
    + intros isi p Hisi. apply lookup_replicate in Hisi as [-> Hlt].
      by apply lookup_replicate_2.
    + exists []. split; [done|]. split; [by rewrite done_all_fresh|].
      cbn. rewrite T_sum_replicate_zero.
      rewrite pending_none by apply Forall_replicate, eq_refl.
      by rewrite T_add_zero.
  - destruct Hinv as (Hps & Hcalls & _ & Hphase & σ & Hw & Hσ & Hacc).
    cbn [fst snd] in *. exists σ.
    rewrite (done_all_finished hset ps' Hps Hfin) in Hσ.
    split; [done|]. cbn. do 2 f_equal; [|done].
    rewrite foldl_T_add. f_equal.
    rewrite pending_none, T_add_zero in Hacc.
    + by rewrite Hacc, (T_total_Permutation _ _ _ Hσ).
    + apply Forall_lookup. intros isi call Hcall.
      destruct (lookup_lt_is_Some_2 ps' isi) as [p Hp].
      { rewrite Hps, <- Hcalls. by eapply lookup_lt_Some. }
      pose proof (proj1 (Forall_lookup _ _) Hfin isi p Hp) as ->.
      specialize (Hphase isi _ Hp). cbn in Hphase.
      rewrite Hcall in Hphase. by simplify_eq.
Qed.

End nested_sum.

Section extremum.
Context {W : Type}.
Context (better : Z → Z → Prop) `{!RelDecision better}.
Hypothesis better_irrefl : ∀ a, ¬ better a a.
Hypothesis better_trans : ∀ a b c, better a b → better b c → better a c.
Hypothesis better_total : ∀ a b, better a b ∨ a = b ∨ better b a.
Implicit Types (val : Index_type → Z) (eff : Index_type → W → W) (w : W).
Implicit Types (st : @cilk.loc_state W).

Lemma not_better_improved x e e' :
  ¬ better x e → better e' e ∨ e' = e → ¬ better x e'.
Proof. intros Hx [Hb| ->] Hxe; [|done]. apply Hx. by eapply better_trans. Qed.

Lemma not_better_both a b : ¬ better a b → ¬ better b a → a = b.
Proof. intros Hab Hba. by destruct (better_total a b) as [?|[?|?]]. Qed.

(** One iteration of the loop, at a position that has not run yet. *)
Lemma loc_step val eff its ext loc ran st k :
  loc_invariant better val its ext loc ran st →
  k ∉ ran → (k < length its)%nat →
  ∃ i st',
    its !! k = Some i ∧
    cilk.loc_iteration (calc_by better) (body_by better val eff) its k st
    = Some st' ∧
    loc_invariant better val its ext loc (ran ++ [k]) st' ∧
    cilk.world st' = eff i (cilk.world st) ∧
    cilk.views st'
    = <[k := {| m_index := i; m_value := cilk.ext_tmp st';
                m_is_set := true |}]> (cilk.views st) ∧
    (cilk.ext_tmp st' = val i ∨ cilk.ext_tmp st' = cilk.ext_tmp st).
Proof.
  intros (Ha & Hb & Hc & Hlen & He & Hf & Hg) Hk Hlt.
  destruct (lookup_lt_is_Some_2 its k) as [i Hi]; [done|].
  pose proof (He k Hk Hlt) as Hview.
  exists i. eexists. split; [done|].
  rewrite (loc_iteration_Some _ _ _ _ _ _ _ Hi Hview).
  split; [reflexivity|].
  destruct st as [e l vs w0]. cbn in *. unfold body_by.
  set (e' := if bool_decide (better (val i) e) then val i else e).
  set (l' := if bool_decide (better (val i) e) then i else l).
  assert ((if bool_decide (better (val i) e)
           then (val i, i, eff i w0) else (e, l, eff i w0))
          = (e', l', eff i w0)) as ->
    by (unfold e', l'; by case_bool_decide).
  cbn.
  assert (better e' e ∨ e' = e) as Himp
    by (unfold e'; case_bool_decide; auto).
  assert (¬ better (val i) e') as Hnew
    by (unfold e'; case_bool_decide; auto).
  split; [|split; [done|split; [done|]]].
  - unfold loc_invariant.
    cbn [cilk.views cilk.ext_tmp cilk.loc_tmp cilk.world].
    split; [by eapply not_better_improved|].
    split; [|split; [|split; [|split; [|split]]]].
    + intros k' i' Hin Hi'. apply elem_of_app in Hin as [Hin|Hin].
      * eapply not_better_improved; [by eapply Hb | done].
      * apply list_elem_of_singleton in Hin as ->.
        rewrite Hi in Hi'. by simplify_eq.
    + unfold e', l'. case_bool_decide.
      * right. exists k, i. rewrite elem_of_app, list_elem_of_singleton.
        auto.
      * destruct Hc as [Hc|(k' & i' & Hin & Hrest)]; [by left|].
        right. exists k', i'. rewrite elem_of_app. auto.
    + by rewrite length_insert.
    + intros k' Hk' Hlt'. rewrite elem_of_app, list_elem_of_singleton in Hk'.
      rewrite list_lookup_insert_ne by (intros ->; apply Hk'; auto).
      apply He; [intros Hin; apply Hk'; auto | done].
    + intros k' Hin. apply elem_of_app in Hin as [Hin|Hin].
      * destruct (Hf k' Hin) as (i' & v & Hi' & Hv & Hnb).
        exists i', v. split; [done|].
        rewrite list_lookup_insert_ne by (intros ->; by apply Hk).
        split; [done|]. by eapply not_better_improved.
      * apply list_elem_of_singleton in Hin as ->.
        exists i, e'. split; [done|].
        rewrite list_lookup_insert_eq by lia. split; [done|].
        apply better_irrefl.
    + intros ran' k' Heq. apply app_inj_tail in Heq as [_ <-].
      eexists. rewrite list_lookup_insert_eq by lia. done.
  - unfold e'. case_bool_decide; auto.
Qed.

(** The iterations at the positions [ks], none of which has run. *)
Lemma loc_iterations_invariant val eff its ext loc
    (sched : list (nat * Z)) (ks : list nat) ran st :
  sched.*2 = Z.of_nat <$> ks →
  loc_invariant better val its ext loc ran st →
  NoDup (ran ++ ks) → Forall (λ k, (k < length its)%nat) ks →
  ∃ st',
    run_iterations
      (λ _ k st, cilk.loc_iteration (calc_by better) (body_by better val eff)
                   its (Z.to_nat k) st) sched st = Some st' ∧
    loc_invariant better val its ext loc (ran ++ ks) st' ∧
    cilk.world st'
    = foldl (λ w ii, eff ii w) (cilk.world st) (elements_at its sched.*2).
Proof.
  revert ks ran st.
  induction sched as [|[wk kz] sched IH]; intros ks ran st Hks Hinv Hnd Hlt.
  - destruct ks; [|done]. exists st. by rewrite app_nil_r.
  - destruct ks as [|k ks]; [done|]. cbn in Hks. simplify_eq.
    apply Forall_cons in Hlt as [Hk Hlt].
    assert (k ∉ ran) as Hnin.
    { apply NoDup_app in Hnd as (_ & Hdisj & _). intros Hin.
      apply (Hdisj k Hin). left. }
    destruct (loc_step val eff its ext loc ran st k Hinv Hnin Hk)
      as (i & st1 & Hi & Hrun & Hinv1 & Hw & _).
    destruct (IH ks (ran ++ [k]) st1) as (st' & Hrun' & Hinv' & Hw').
    { done. }
    { done. }
    { by rewrite <- (assoc_L (++)). }
    { done. }
    exists st'. cbn [run_iterations]. rewrite Nat2Z.id, Hrun.
    cbn [mbind option_bind]. rewrite Hrun'.
    rewrite <- (assoc_L (++)) in Hinv'. split; [done|]. split; [done|].
    rewrite Hw', Hw. unfold elements_at. cbn [fmap list_fmap omap list_omap snd].
    by rewrite Nat2Z.id, Hi.
Qed.

(** The views of a loop all of whose iterations have run, reduced: the
    reducer holds the leftmost of the views that no other view beats. *)
Lemma reduce_views_spec (vs : list reducer_index) :
  vs ≠ [] → Forall (λ view, m_is_set view = true) vs →
  ∃ k,
    vs !! k = Some (reduce_views (calc_by better) vs) ∧
    (∀ j view, (j < k)%nat → vs !! j = Some view →
       better (m_value (reduce_views (calc_by better) vs)) (m_value view)) ∧
    (∀ view, view ∈ vs →
       ¬ better (m_value view) (m_value (reduce_views (calc_by better) vs))).
Proof.
  induction vs as [|x vs IH] using rev_ind; [done|]. intros _ Hset.
  apply Forall_app in Hset as [Hset Hx]. rewrite Forall_singleton in Hx.
  unfold reduce_views in *. rewrite foldl_snoc, Hx.
  destruct vs as [|y vs'] using rev_ind.
  - cbn. exists 0%nat. destruct x as [i v s]. cbn in *. subst s.
    split; [done|]. split; [intros; lia|].
    intros view Hview. apply list_elem_of_singleton in Hview as ->.
    apply better_irrefl.
  - clear IHvs'. destruct IH as (k & Hk & Hleft & Hbest); [|done|].
    { by destruct vs'. }
    set (vs := vs' ++ [y]) in *. clearbody vs.
    set (acc := foldl _ reducer_default vs) in *.
    assert (m_is_set acc = true) as Hacc.
    { eapply Forall_lookup_1 in Hset; [|exact Hk]. done. }
    unfold calc_by. rewrite Hacc. cbn.
    case_bool_decide as Hb.
    + exists (length vs). destruct x as [i v s]. cbn in *. subst s.
      split; [by rewrite lookup_app_r, Nat.sub_diag by lia|].
      split.
      * intros j view Hj Hview. rewrite lookup_app_l in Hview by done.
        assert (¬ better (m_value view) (m_value acc)) as Hnb
          by (apply Hbest; by eapply list_elem_of_lookup_2).
        destruct (better_total (m_value acc) (m_value view))
          as [?|[Heq|?]]; [by eapply better_trans| |done].
        by rewrite <- Heq.
      * intros view Hview. apply elem_of_app in Hview as [Hview|Hview].
        -- intros Hbv. apply (Hbest view Hview). by eapply better_trans.
        -- apply list_elem_of_singleton in Hview as ->. apply better_irrefl.
    + exists k. split; [by rewrite lookup_app_l by by eapply lookup_lt_Some|].
      split.
      * intros j view Hj Hview. apply (Hleft j view Hj).
        rewrite lookup_app_l in Hview; [done|].
        apply lookup_lt_Some in Hk. lia.
      * intros view Hview. apply elem_of_app in Hview as [Hview|Hview].
        -- by apply Hbest.
        -- by apply list_elem_of_singleton in Hview as ->.
Qed.

Lemma loc_invariant_init val its ext loc w :
  loc_invariant better val its ext loc []
    {| cilk.ext_tmp := ext; cilk.loc_tmp := loc;
       cilk.views := replicate (length its) reducer_default;
       cilk.world := w |}.
Proof.
  unfold loc_invariant. cbn.
  split; [apply better_irrefl|]. split; [by intros k i Hin%elem_of_nil|].
  split; [by left|]. split; [by rewrite length_replicate|].
  split; [intros k _ Hk; by apply lookup_replicate_2|].
  split; [by intros k Hin%elem_of_nil|].
  intros ran' k Heq. by destruct ran'.
Qed.

(** The merge after a loop all of whose iterations have run. *)
Lemma loc_merge_spec val its ext loc ran st :
  its ≠ [] →
  loc_invariant better val its ext loc ran st →
  (∀ k, (k < length its)%nat → k ∈ ran) →
  ∃ v l,
    loc_merge better ext loc st = Some (v, l, cilk.world st) ∧
    ¬ better ext v ∧
    (∀ i, i ∈ its → ¬ better (val i) v) ∧
    ((v, l) = (ext, loc) ∨
     better v ext ∧ (∃ i, i ∈ its ∧ val i = v) ∧
     ∃ k, its !! k = Some l ∧
          cilk.views st !! k
          = Some {| m_index := l; m_value := v; m_is_set := true |} ∧
          ∀ j view, (j < k)%nat → cilk.views st !! j = Some view →
                    better v (m_value view)).
Proof.
  intros Hne (Ha & Hb & Hc & Hlen & He & Hf & Hg) Hall.
  assert (Forall (λ view, m_is_set view = true) (cilk.views st)) as Hset.
  { apply Forall_lookup. intros k view Hview.
    destruct (Hf k) as (i & v & _ & Hview' & _).
    { apply Hall. rewrite <- Hlen. by eapply lookup_lt_Some. }
    rewrite Hview in Hview'. by simplify_eq. }
  assert (cilk.views st ≠ []) as Hvne.
  { intros Hnil. rewrite Hnil in Hlen. by destruct its. }
  destruct (reduce_views_spec (cilk.views st) Hvne Hset) as (k & Hk & Hleft & Hbest).
  assert (∃ ran' k', ran = ran' ++ [k']) as (ran' & k' & Hran).
  { destruct ran as [|x ran _] using rev_ind; [|by eauto].
    destruct its; [done|]. specialize (Hall 0%nat). cbn in Hall.
    by apply elem_of_nil in Hall; [|lia]. }
  destruct (Hg ran' k' Hran) as (view' & Hview' & Hval').
  destruct (Hf k) as (i & v & Hi & Hview & Hv).
  { apply Hall. rewrite <- Hlen. by eapply lookup_lt_Some. }
  rewrite Hk in Hview. injection Hview as Hred.
  assert (v = cilk.ext_tmp st) as ->.
  { apply not_better_both; [done..|].
    rewrite <- Hval'. replace v with (m_value (reduce_views (calc_by better)
                                                (cilk.views st)))
      by by rewrite Hred.
    apply Hbest. by eapply list_elem_of_lookup_2. }
  assert (∀ i', i' ∈ its → ¬ better (val i') (cilk.ext_tmp st)) as Hbound.
  { intros i' Hi'. apply list_elem_of_lookup_1 in Hi' as [k0 Hk0].
    eapply Hb; [|done]. apply Hall. by eapply lookup_lt_Some. }
  unfold loc_merge, get_value, get_index. rewrite Hred. cbn.
  case_bool_decide as Hguard.
  - exists (cilk.ext_tmp st), i. split; [done|]. split; [done|].
    split; [done|]. right. split; [done|]. split.
    + destruct Hc as [Hc|(k0 & i0 & _ & Hi0 & Hv0 & _)].
      * injection Hc as Hc1 Hc2. rewrite Hc1 in Hguard.
        by apply better_irrefl in Hguard.
      * exists i0. split; [by eapply list_elem_of_lookup_2 | done].
    + exists k. rewrite Hk, Hred. split; [done|]. split; [done|].
      intros j view Hj Hjv. specialize (Hleft j view Hj Hjv).
      by rewrite Hred in Hleft.
  - assert (cilk.ext_tmp st = ext) as Heq by by apply not_better_both.
    exists ext, loc. split; [done|]. split; [apply better_irrefl|].
    split; [by rewrite <- Heq | by left].
Qed.

(** The flat loop under any fair schedule. *)
Lemma forall_loc_indices_spec val eff rt its ext loc w :
  fair rt → its ≠ [] →
  ∃ v l σ,
    σ ≡ₚ its ∧
    forall_loc_indices_by better rt its ext loc (body_by better val eff) w
    = Some (v, l, foldl (λ w ii, eff ii w) w σ) ∧
    ¬ better ext v ∧
    (∀ i, i ∈ its → ¬ better (val i) v) ∧
    ((v, l) = (ext, loc) ∨
     better v ext ∧ l ∈ its ∧ ∃ i, i ∈ its ∧ val i = v).
Proof.
  intros Hfair Hne. unfold forall_loc_indices_by, parallel_for.
  set (n := Z.of_nat (length its)).
  set (sched := schedule rt (seqZ 0 n)).
  destruct (Hfair (seqZ 0 n)) as [Hperm _]. fold sched in Hperm.
  assert (Forall (λ k, 0 ≤ k < n) sched.*2) as Hrange.
  { apply Forall_forall. intros k Hk. rewrite Hperm in Hk.
    apply elem_of_seqZ in Hk. lia. }
  set (ks := Z.to_nat <$> sched.*2).
  assert (sched.*2 = Z.of_nat <$> ks) as Hks.
  { unfold ks. rewrite <- list_fmap_compose.
    rewrite <- (list_fmap_id sched.*2) at 1.
    apply Forall_fmap_ext_1. eapply Forall_impl; [exact Hrange|].
    intros k Hk. simpl in Hk. unfold id, compose. lia. }
  assert (NoDup ks) as Hnd.
  { unfold ks. apply NoDup_fmap_2_strong.
    - intros x y Hx Hy Hxy.
      pose proof (proj1 (Forall_forall _ _) Hrange x Hx).
      pose proof (proj1 (Forall_forall _ _) Hrange y Hy). simpl in *. lia.
    - rewrite Hperm. apply NoDup_seqZ. }
  assert (Forall (λ k, (k < length its)%nat) ks) as Hlt.
  { unfold ks. apply Forall_fmap. eapply Forall_impl; [exact Hrange|].
    intros k Hk. simpl in *. lia. }
  assert (∀ k, (k < length its)%nat → k ∈ ks) as Hall.
  { intros k Hk. unfold ks. apply list_elem_of_fmap.
    exists (Z.of_nat k). split; [lia|]. rewrite Hperm.
    apply elem_of_seqZ. lia. }
  destruct (loc_iterations_invariant val eff its ext loc sched ks []
              {| cilk.ext_tmp := ext; cilk.loc_tmp := loc;
                 cilk.views := replicate (length its) reducer_default;
                 cilk.world := w |} Hks
              (loc_invariant_init val its ext loc w) Hnd Hlt)
    as (st' & -> & Hinv & Hw).
  cbn [mbind option_bind app] in *.
  destruct (loc_merge_spec val its ext loc ks st' Hne Hinv Hall)
    as (v & l & -> & Hext & Hbound & Hcase).
  exists v, l, (elements_at its sched.*2).
  split; [by apply elements_at_fair|]. rewrite Hw. split; [done|].
  split; [done|]. split; [done|].
  destruct Hcase as [?|(Hb & Hex & k & Hk & _)]; [by left|].
  right. split; [done|]. split; [by eapply list_elem_of_lookup_2 | done].
Qed.

(** One worker, iterations in program order. *)
Lemma loc_iterations_serial val eff its ext loc (j m : nat) st :
  (m + j = length its)%nat →
  loc_invariant better val its ext loc (seq 0 m) st →
  loc_chained better val its ext m st →
  ∃ st',
    run_iterations
      (λ _ k st, cilk.loc_iteration (calc_by better) (body_by better val eff)
                   its (Z.to_nat k) st)
      (pair 0%nat <$> seqZ (Z.of_nat m) (Z.of_nat j)) st = Some st' ∧
    loc_invariant better val its ext loc (seq 0 (m + j)) st' ∧
    loc_chained better val its ext (m + j) st' ∧
    cilk.world st'
    = foldl (λ w ii, eff ii w) (cilk.world st) (drop m its).
Proof.
  revert m st. induction j as [|j IH]; intros m st Hm Hinv Hch.
  - exists st. rewrite Nat.add_0_r. rewrite drop_ge by lia. done.
  - rewrite seqZ_cons by lia. cbn [fmap list_fmap run_iterations].
    rewrite Nat2Z.id.
    destruct (loc_step val eff its ext loc (seq 0 m) st m Hinv)
      as (i & st1 & Hi & -> & Hinv1 & Hw1 & Hviews1 & Hval1).
    { rewrite elem_of_seq. lia. }
    { lia. }
    cbn [mbind option_bind].
    replace (Z.succ (Z.of_nat m)) with (Z.of_nat (S m)) by lia.
    replace (Z.pred (Z.of_nat (S j))) with (Z.of_nat j) by lia.
    rewrite <- seq_S in Hinv1.
    destruct (IH (S m) st1) as (st' & -> & Hinv' & Hch' & Hw'); [lia|done| |].
    + split; [done|]. intros k Hk. rewrite Hviews1.
      destruct (decide (k = m)) as [->|Hkm].
      * exists i, (cilk.ext_tmp st1). split; [done|].
        rewrite list_lookup_insert_eq
          by (destruct Hinv as (_ & _ & _ & -> & _); lia).
        split; [done|].
        split.
        { destruct Hinv1 as (_ & Hb1 & _). apply (Hb1 m i); [|done].
          rewrite elem_of_seq. lia. }
        destruct Hval1 as [?|Hval1]; [by left|]. right.
        destruct m as [|m'].
        -- left. split; [done|]. rewrite Hval1. by apply Hch.
        -- right. destruct Hinv as (_ & _ & _ & _ & _ & _ & Hg).
           destruct (Hg (seq 0 m') m') as (view' & Hview' & Hv').
           { by rewrite <- seq_S. }
           exists m', view'. split; [done|].
           rewrite list_lookup_insert_ne by lia. split; [done|]. congruence.
      * destruct Hch as [_ Hch].
        destruct (Hch k) as (i' & v' & Hi' & Hview' & Hnb & Hcase); [lia|].
        exists i', v'. split; [done|].
        rewrite list_lookup_insert_ne by done. split; [done|].
        split; [done|].
        destruct Hcase as [?|[?|(k' & view' & -> & Hk' & Hv')]]; auto.
        right. right. exists k', view'.
        rewrite list_lookup_insert_ne by lia. done.
    + exists st'. split; [done|].
      replace (m + S j)%nat with (S m + j)%nat by lia.
      split; [done|]. split; [done|].
      rewrite Hw', Hw1. by rewrite (drop_S _ _ _ Hi).
Qed.

Lemma forall_loc_indices_serial val eff its ext loc w :
  its ≠ [] →
  ∃ v l,
    forall_loc_indices_by better serial its ext loc (body_by better val eff) w
    = Some (v, l, foldl (λ w ii, eff ii w) w its) ∧
    ¬ better ext v ∧
    (∀ i, i ∈ its → ¬ better (val i) v) ∧
    ((v, l) = (ext, loc) ∨
     better v ext ∧
     ∃ k, its !! k = Some l ∧ val l = v ∧
          ∀ j i, (j < k)%nat → its !! j = Some i → better v (val i)).
Proof.
  intros Hne. unfold forall_loc_indices_by, parallel_for.
  destruct (loc_iterations_serial val eff its ext loc (length its) 0
              {| cilk.ext_tmp := ext; cilk.loc_tmp := loc;
                 cilk.views := replicate (length its) reducer_default;
                 cilk.world := w |})
    as (st' & Hrun & Hinv & Hch & Hw).
  { done. }
  { apply loc_invariant_init. }
  { split; [done|]. intros k Hk. lia. }
  change (Z.of_nat 0) with 0 in Hrun.
  change (schedule serial ?l) with (pair 0%nat <$> l).
  rewrite Hrun. cbn [mbind option_bind].
  cbn in Hinv, Hch, Hw. rewrite drop_0 in Hw.
  destruct (loc_merge_spec val its ext loc (seq 0 (length its)) st' Hne Hinv)
    as (v & l & -> & Hext & Hbound & Hcase).
  { intros k Hk. rewrite elem_of_seq. lia. }
  exists v, l. rewrite Hw. split; [done|]. split; [done|]. split; [done|].
  destruct Hcase as [?|(Hb & Hex & k & Hk & Hview & Hleft)]; [by left|].
  right. split; [done|]. exists k. split; [done|].
  destruct Hch as [_ Hch]. split.
  - destruct (Hch k) as (i' & v' & Hi' & Hview' & _ & Hcase).
    { by eapply lookup_lt_Some. }
    rewrite Hview in Hview'. simplify_eq.
    destruct Hcase as [?|[[_ ->]|(k' & view' & -> & Hk' & Hv')]]; [done| |].
    + by apply better_irrefl in Hb.
    + specialize (Hleft k' view' (Nat.lt_succ_diag_r k') Hk').
      rewrite Hv' in Hleft. by apply better_irrefl in Hleft.
  - intros j i Hj Hi.
    destruct (Hch j) as (i' & vj & Hi' & Hviewj & Hnb & _).
    { apply lookup_lt_Some in Hk. lia. }
    rewrite Hi in Hi'. simplify_eq.
    specialize (Hleft j _ Hj Hviewj). cbn in Hleft.
    destruct (better_total v (val i')) as [?|[Heq|Hlt]]; [done| |].
    + rewrite <- Heq in Hnb. done.
    + exfalso. apply Hnb. by eapply better_trans.
Qed.

(** The reducer of a flat loop all of whose iterations have run. *)
Lemma loc_reduction_spec val its ext loc ran st :
  its ≠ [] →
  loc_invariant better val its ext loc ran st →
  (∀ k, (k < length its)%nat → k ∈ ran) →
  ∃ idx,
    reduce_views (calc_by better) (cilk.views st)
    = {| m_index := idx; m_value := cilk.ext_tmp st; m_is_set := true |} ∧
    idx ∈ its ∧
    (∀ i, i ∈ its → ¬ better (val i) (cilk.ext_tmp st)) ∧
    (cilk.ext_tmp st = ext ∨ ∃ i, i ∈ its ∧ val i = cilk.ext_tmp st).
Proof.
  intros Hne (Ha & Hb & Hc & Hlen & He & Hf & Hg) Hall.
  assert (Forall (λ view, m_is_set view = true) (cilk.views st)) as Hset.
  { apply Forall_lookup. intros k view Hview.
    destruct (Hf k) as (i & v & _ & Hview' & _).
    { apply Hall. rewrite <- Hlen. by eapply lookup_lt_Some. }
    rewrite Hview in Hview'. by simplify_eq. }
  assert (cilk.views st ≠ []) as Hvne.
  { intros Hnil. rewrite Hnil in Hlen. by destruct its. }
  destruct (reduce_views_spec (cilk.views st) Hvne Hset)
    as (k & Hk & _ & Hbest).
  assert (∃ ran' k', ran = ran' ++ [k']) as (ran' & k' & Hran).
  { destruct ran as [|x ran _] using rev_ind; [|by eauto].
    destruct its; [done|]. specialize (Hall 0%nat). cbn in Hall.
    by apply elem_of_nil in Hall; [|lia]. }
  destruct (Hg ran' k' Hran) as (view' & Hview' & Hval').
  destruct (Hf k) as (i & v & Hi & Hview & Hv).
  { apply Hall. rewrite <- Hlen. by eapply lookup_lt_Some. }
  rewrite Hk in Hview. injection Hview as Hred.
  assert (v = cilk.ext_tmp st) as ->.
  { apply not_better_both; [done..|].
    rewrite <- Hval'. replace v with (m_value (reduce_views (calc_by better)
                                                (cilk.views st)))
      by by rewrite Hred.
    apply Hbest. by eapply list_elem_of_lookup_2. }
  exists i. split; [done|]. split; [by eapply list_elem_of_lookup_2|].
  split.
  - intros i' Hi'. apply list_elem_of_lookup_1 in Hi' as [k0 Hk0].
    eapply Hb; [|done]. apply Hall. by eapply lookup_lt_Some.
  - destruct Hc as [Hc|(k0 & i0 & _ & Hi0 & Hv0 & _)].
    + left. by injection Hc.
    + right. exists i0. split; [by eapply list_elem_of_lookup_2 | done].
Qed.

(** ** Min and max with location: the segmented loop *)

Lemma not_better_total x e e' :
  ¬ better x e → ¬ better e e' → ¬ better x e'.
Proof.
  intros Hx He. apply (not_better_improved x e e' Hx).
  destruct (better_total e' e) as [?|[?|?]]; auto. done.
Qed.

Lemma unhandled_no_pairs val seg l v :
  handled seg = false → ¬ seg_pairs val seg l v.
Proof.
  intros Hh Hp. unfold seg_pairs, segment_indices in Hp.
  unfold handled in *. destruct (m_type seg); try done; by destruct Hp.
Qed.

Lemma unhandled_inner_count seg :
  handled seg = false → inner_count seg = 0%nat.
Proof. unfold handled, inner_count. by destruct (m_type seg). Qed.

(** What the flat call of a segment hands back when it is left. *)
Lemma call_reduction val seg ran c st :
  call_inv better val seg ran (Some c) st →
  NoDup ran → (∀ k, k ∈ ran → (k < inner_count seg)%nat) →
  length ran = inner_count seg →
  let reduction := reduce_views (calc_by better) (cilk.call_views c) in
  (∀ l v, seg_pairs val seg l v → ¬ better v (get_value reduction)) ∧
  (better (get_value reduction) (cilk.ext_tmp st) →
   seg_pairs val seg (get_index reduction) (get_value reduction)).
Proof.
  intros (Hh & Hits & e0 & l0 & He0 & Hinv) Hnd Hlt Hlen reduction.
  pose proof (Hinv (cilk.world st)) as Hcall.
  pose proof (segment_indices_length seg) as Hcount.
  rewrite Hits in Hcount. cbn in Hcount.
  destruct (decide (cilk.loc_its c = [])) as [Hnil|Hne].
  - assert (cilk.call_views c = []) as Hviews.
    { destruct Hcall as (_ & _ & _ & Hl & _). cbn in Hl.
      rewrite Hnil in Hl. by destruct (cilk.call_views c). }
    unfold reduction. rewrite Hviews. cbn.
    unfold seg_pairs. rewrite Hits, Hnil. split.
    + intros l v (_ & _ & ->). apply better_irrefl.
    + done.
  - destruct (loc_reduction_spec val (cilk.loc_its c) e0 l0 (reverse ran) _
                Hne Hcall) as (idx & Hred & Hidx & Hbound & Horigin).
    { intros k Hk. rewrite elem_of_reverse.
      rewrite (all_positions_Permutation ran _ Hnd Hlt Hlen).
      apply elem_of_seq. lia. }
    cbn [cilk.views cilk.ext_tmp] in Hred, Hbound, Horigin.
    unfold reduction. rewrite Hred. cbn.
    unfold seg_pairs. rewrite Hits.
    destruct (cilk.loc_its c) as [|x its] eqn:Hc; [done|]. split.
    + intros l v (_ & i & Hi & <-). by apply Hbound.
    + intros Hb. split; [done|].
      destruct Horigin as [Heq|?]; [|done].
      rewrite Heq in Hb. done.
Qed.

Lemma hyb_inv_step val eff hset nw ext loc ps calls st wk e ps' :
  well_formed hset →
  hyb_inv better val hset ext loc ps calls st → (wk < nw)%nat →
  legal_step (inner_count <$> hset) ps e = Some ps' →
  ∃ calls' st',
    strand_step cilk.loc_enter
      (cilk.loc_inner (calc_by better) (body_by better val eff))
      (cilk.loc_leave (calc_by better) (λ a b, bool_decide (better a b)))
      hset wk e (calls, st) = Some (calls', st') ∧
    hyb_inv better val hset ext loc ps' calls' st'.
Proof.
  intros Hwf (Hps & Hcalls & Hviews & Hext & Hpair & Hphase & Hlast) _ Hstep.
  pose proof (legal_step_length _ _ _ _ Hstep) as Hlen.
  destruct e as [isi|isi k|isi].
  - apply legal_step_Enter in Hstep as [Hisi ->].
    destruct (Hphase isi _ Hisi) as (seg & Hseg & Hview).
    assert (isi < length calls)%nat as Hlc
      by (rewrite Hcalls; by eapply lookup_lt_Some).
    destruct (loc_enter_well_formed wk seg st) as (call & Hcall & Hok).
    { eapply Forall_lookup_1 in Hwf; [|exact Hseg]. done. }
    eexists _, _. cbn. rewrite getSegment_of_nat, Hseg. cbn.
    rewrite Hcall. cbn. split; [done|].
    split; [by rewrite Hlen|]. split; [by rewrite length_insert|].
    split; [done|]. split; [done|]. split; [done|]. split.
    + intros isi' p Hisi'. destruct (decide (isi' = isi)) as [->|Hne].
      * rewrite list_lookup_insert_eq in Hisi' by by eapply lookup_lt_Some.
        simplify_eq. exists seg. split; [done|]. split; [done|].
        split; [constructor|]. split; [by intros k Hk%elem_of_nil|].
        exists call. split; [by apply list_lookup_insert_eq|].
        destruct call as [c|]; [|by destruct Hok].
        destruct Hok as (Hits & _ & Hcv & Hce & Hcl & Hh).
        split; [done|]. split; [done|].
        exists (cilk.ext_tmp st), (cilk.loc_tmp st).
        split; [apply better_irrefl|]. intros w.
        rewrite Hcv, Hce, Hcl. apply loc_invariant_init.
      * rewrite list_lookup_insert_ne in Hisi' by done.
        destruct (Hphase isi' p Hisi') as (seg' & Hseg' & Hp).
        exists seg'. split; [done|]. destruct p as [|ran|]; [done| |done].
        destruct Hp as (? & ? & ? & call' & Hcall' & Hinv').
        split; [done|]. split; [done|]. split; [done|].
        exists call'. by rewrite list_lookup_insert_ne by done.
    + intros [isi' Hisi']. destruct (decide (isi' = isi)) as [->|Hne].
      * rewrite list_lookup_insert_eq in Hisi' by by eapply lookup_lt_Some.
        done.
      * rewrite list_lookup_insert_ne in Hisi' by done.
        destruct Hlast as (isi0 & l0 & Hisi0 & Hview0); [by eauto|].
        exists isi0, l0. split; [|done].
        rewrite list_lookup_insert_ne; [done|]. intros ->.
        rewrite Hisi in Hisi0. done.
  - apply legal_step_Inner in Hstep
      as (ran & n & Hisi & Hn & Hk & Hnew & ->).
    destruct (Hphase isi _ Hisi)
      as (seg & Hseg & Hview & Hnd & Hran & call & Hcall & Hinv).
    rewrite list_lookup_fmap, Hseg in Hn. injection Hn as <-.
    destruct call as [c|];
      [|apply unhandled_inner_count in Hinv; lia].
    destruct Hinv as (Hh & Hits & e0 & l0 & He0 & Hinv).
    pose proof (segment_indices_length seg) as Hcount.
    rewrite Hits in Hcount. cbn in Hcount.
    destruct (loc_step val eff (cilk.loc_its c) e0 l0 (reverse ran) _ k
                (Hinv (cilk.world st)))
      as (i & st1 & Hi & Hrun & Hinv1 & Hw1 & Hviews1 & _).
    { by rewrite elem_of_reverse. }
    { lia. }
    cbn. rewrite Hcall. cbn. unfold cilk.loc_inner. rewrite Hrun. cbn.
    eexists _, _. split; [done|].
    split; [by rewrite Hlen|]. split; [by rewrite length_insert|].
    split; [done|]. split; [done|]. split; [done|]. split.
    + intros isi' p Hisi'. destruct (decide (isi' = isi)) as [->|Hne].
      * rewrite list_lookup_insert_eq in Hisi' by by eapply lookup_lt_Some.
        simplify_eq. exists seg. split; [done|]. split; [done|].
        split; [by constructor|]. split.
        { intros k' Hk'. apply elem_of_cons in Hk' as [->|Hk']; auto. }
        eexists. split; [apply list_lookup_insert_eq;
                         by eapply lookup_lt_Some|].
        split; [done|]. split; [done|]. exists e0, l0. split; [done|].
        intros w. cbn [cilk.loc_its cilk.call_ext cilk.call_loc
                       cilk.call_views].
        rewrite reverse_cons.
        destruct Hinv1 as (H1 & H2 & H3 & H4 & H5 & H6 & H7).
        done.
      * rewrite list_lookup_insert_ne in Hisi' by done.
        destruct (Hphase isi' p Hisi') as (seg' & Hseg' & Hp).
        exists seg'. split; [done|]. destruct p as [|ran'|]; [done| |done].
        destruct Hp as (? & ? & ? & call' & Hcall' & Hinv').
        split; [done|]. split; [done|]. split; [done|].
        exists call'. rewrite list_lookup_insert_ne by done.
        split; [done|]. destruct call' as [c'|]; [|done]. done.
    + intros [isi' Hisi']. destruct (decide (isi' = isi)) as [->|Hne].
      * rewrite list_lookup_insert_eq in Hisi' by by eapply lookup_lt_Some.
        done.
      * rewrite list_lookup_insert_ne in Hisi' by done.
        destruct Hlast as (isi0 & l1 & Hisi0 & Hview0); [by eauto|].
        exists isi0, l1. split; [|done].
        rewrite list_lookup_insert_ne; [done|]. intros ->.
        rewrite Hisi in Hisi0. done.
  - apply legal_step_Exit in Hstep as (ran & Hisi & Hn & ->).
    destruct (Hphase isi _ Hisi)
      as (seg & Hseg & Hview & Hnd & Hran & call & Hcall & Hinv).
    rewrite list_lookup_fmap, Hseg in Hn. injection Hn as Hn.
    (* the pair after the call, and what is known of it *)
    assert (∃ E' L',
      cilk.loc_leave (calc_by better) (λ a b, bool_decide (better a b))
        wk isi call st
      = Some {| cilk.ext_tmp := E'; cilk.loc_tmp := L';
                cilk.views :=
                  <[isi := {| m_index := L'; m_value := E';
                              m_is_set := true |}]> (cilk.views st);
                cilk.world := cilk.world st |} ∧
      (better E' (cilk.ext_tmp st) ∧ seg_pairs val seg L' E' ∨
       E' = cilk.ext_tmp st ∧ L' = cilk.loc_tmp st) ∧
      ∀ l v, seg_pairs val seg l v → ¬ better v E')
      as (E' & L' & Hleave & Hnew & Hbound).
    { unfold cilk.loc_leave. destruct call as [c|].
      - destruct (call_reduction val seg ran c st Hinv Hnd Hran)
          as [Hb Hp]; [done|].
        cbn zeta in Hb, Hp. case_bool_decide as Hbeats.
        + rewrite Hview. cbn. eexists _, _. split; [done|].
          split; [left; by auto | done].
        + rewrite Hview. cbn. eexists _, _. split; [done|].
          split; [by right|]. intros l v Hlv.
          eapply not_better_total; [by apply (Hb l v) | done].
      - rewrite Hview. cbn. eexists _, _. split; [done|].
        split; [by right|]. intros l v Hlv.
        by apply unhandled_no_pairs in Hlv. }
    cbn. rewrite Hcall. cbn. rewrite Hleave. cbn.
    eexists _, _. split; [done|].
    assert (better E' (cilk.ext_tmp st) ∨ E' = cilk.ext_tmp st) as Himp
      by (destruct Hnew as [[? _]|[? _]]; auto).
    unfold hyb_inv.
    cbn [cilk.ext_tmp cilk.loc_tmp cilk.views cilk.world].
    split; [by rewrite Hlen|]. split; [by rewrite length_insert|].
    split; [by rewrite length_insert|].
    split; [by eapply not_better_improved|]. split.
    { destruct Hnew as [[_ Hp]|[-> ->]]; [|done].
      right. exists seg. split; [by eapply list_elem_of_lookup_2 | done]. }
    split.
    + intros isi' p Hisi'. destruct (decide (isi' = isi)) as [->|Hne].
      * rewrite list_lookup_insert_eq in Hisi' by by eapply lookup_lt_Some.
        simplify_eq. exists seg. split; [done|]. exists L', E'.
        rewrite list_lookup_insert_eq by by eapply lookup_lt_Some.
        split; [done|]. split; [apply better_irrefl|]. done.
      * rewrite list_lookup_insert_ne in Hisi' by done.
        destruct (Hphase isi' p Hisi') as (seg' & Hseg' & Hp).
        exists seg'. split; [done|]. rewrite list_lookup_insert_ne by done.
        destruct p as [|ran'|]; [done| |].
        -- destruct Hp as (? & ? & ? & call' & Hcall' & Hinv').
           split; [done|]. split; [done|]. split; [done|].
           exists call'. rewrite list_lookup_insert_ne by done.
           split; [done|]. destruct call' as [c'|]; [|done].
           destruct Hinv' as (? & ? & e0 & l0 & He0 & Hinv').
           split; [done|]. split; [done|]. exists e0, l0.
           split; [by eapply not_better_improved | done].
        -- destruct Hp as (l1 & e1 & Hv1 & Hnb1 & Heq1 & Hb1).
           exists l1, e1. split; [done|].
           split; [by eapply not_better_improved|]. split.
           ++ destruct Hnew as [[Hb _]|[-> ->]]; [|done].
              intros ->. done.
           ++ intros l v Hlv. eapply not_better_improved; [|done].
              by eapply Hb1.
    + intros _. exists isi, L'. split.
      * apply list_lookup_insert_eq. by eapply lookup_lt_Some.
      * apply list_lookup_insert_eq. rewrite Hviews, <- Hps.
        by eapply lookup_lt_Some.
Qed.

(** The segmented loop under every fair interleaving of its strands: the
    value handed back is the best of the caller's value and of what the
    segments can hand back, and a value that beats the caller's comes with
    a location that its segment can hand back. *)
Lemma forall_loc_HybridISet_spec val eff nrt hset ext loc w :
  nested_fair nrt → well_formed hset → hset ≠ [] →
  ∃ v l w',
    forall_loc_HybridISet_by better nrt hset ext loc
      (body_by better val eff) w = Some (v, l, w') ∧
    ¬ better ext v ∧
    (∀ seg l' e, seg ∈ hset → seg_pairs val seg l' e → ¬ better e v) ∧
    ((v, l) = (ext, loc) ∨
     better v ext ∧ ∃ seg, seg ∈ hset ∧ seg_pairs val seg l v).
Proof.
  intros Hfair Hwf Hne. unfold forall_loc_HybridISet_by.
  destruct (nested_for_invariant cilk.loc_enter
              (cilk.loc_inner (calc_by better) (body_by better val eff))
              (cilk.loc_leave (calc_by better)
                 (λ a b, bool_decide (better a b)))
              hset (nested_nworkers nrt) (hyb_inv better val hset ext loc)
              (λ ps calls s wk e ps' Hinv Hwk Hstep,
                 hyb_inv_step val eff hset (nested_nworkers nrt) ext loc
                   ps calls s wk e ps' Hwf Hinv Hwk Hstep)
              nrt
              {| cilk.ext_tmp := ext; cilk.loc_tmp := loc;
                 cilk.views := replicate (length hset) reducer_default;
                 cilk.world := w |} Hfair eq_refl)
    as (ps' & calls' & st' & -> & Hinv & Hfin).
  - unfold hyb_inv. cbn. rewrite !length_replicate.
    split; [done|]. split; [done|]. split; [done|].
    split; [apply better_irrefl|]. split; [by left|]. split.
    + intros isi p Hisi. apply lookup_replicate in Hisi as [-> Hlt].
      destruct (lookup_lt_is_Some_2 hset isi Hlt) as [seg Hseg].
      exists seg. split; [done|]. by apply lookup_replicate_2.
    + intros [isi Hisi]. by apply lookup_replicate in Hisi as [? _].
  - destruct Hinv as (Hps & Hcalls & Hviews & Hext & Hpair & Hphase & Hlast).
    assert (∀ isi, (isi < length hset)%nat →
              ps' !! isi = Some Finished) as Hall.
    { intros isi Hlt. destruct (lookup_lt_is_Some_2 ps' isi) as [p Hp];
        [lia|].
      by rewrite (proj1 (Forall_lookup _ _) Hfin isi p Hp) in Hp. }
    assert (Forall (λ view, m_is_set view = true) (cilk.views st')) as Hset.
    { apply Forall_lookup. intros isi view Hview.
      destruct (Hphase isi Finished) as (seg & _ & l1 & e1 & Hv1 & _).
      { apply Hall. rewrite <- Hviews. by eapply lookup_lt_Some. }
      rewrite Hview in Hv1. by simplify_eq. }
    assert (cilk.views st' ≠ []) as Hvne.
    { intros Hnil. rewrite Hnil in Hviews. by destruct hset. }
    destruct (reduce_views_spec (cilk.views st') Hvne Hset)
      as (k & Hk & _ & Hbest).
    destruct Hlast as (isi0 & l0 & Hisi0 & Hview0).
    { exists 0%nat. apply Hall. destruct hset; [done|]. cbn. lia. }
    destruct (Hphase k Finished) as (seg & _ & l1 & e1 & Hv1 & Hnb1 & Heq1 & _).
    { apply Hall. rewrite <- Hviews. by eapply lookup_lt_Some. }
    rewrite Hk in Hv1. injection Hv1 as Hred.
    assert (e1 = cilk.ext_tmp st') as ->.
    { apply not_better_both; [done|].
      replace e1 with (m_value (reduce_views (calc_by better)
                                  (cilk.views st')))
        by by rewrite Hred.
      apply (Hbest _ (list_elem_of_lookup_2 _ _ _ Hview0)). }
    specialize (Heq1 eq_refl). subst l1.
    assert (∀ seg l' e, seg ∈ hset → seg_pairs val seg l' e →
              ¬ better e (cilk.ext_tmp st')) as Hbound.
    { intros seg' l' e Hin Hp.
      apply list_elem_of_lookup_1 in Hin as [isi Hisi].
      destruct (Hphase isi Finished)
        as (seg'' & Hseg'' & _ & _ & _ & _ & _ & Hb).
      { apply Hall. by eapply lookup_lt_Some. }
      rewrite Hisi in Hseg''. simplify_eq. by eapply Hb. }
    cbn. unfold loc_merge, get_value, get_index. rewrite Hred. cbn.
    case_bool_decide as Hguard.
    + eexists _, _, _. split; [done|]. split; [done|]. split; [done|].
      right. split; [done|].
      destruct Hpair as [Hp|?]; [|done].
      injection Hp as Hp1 Hp2. rewrite Hp1 in Hguard.
      by apply better_irrefl in Hguard.
    + assert (cilk.ext_tmp st' = ext) as Heq by by apply not_better_both.
      eexists _, _, _. split; [done|]. split; [apply better_irrefl|].
      split; [by rewrite <- Heq | by left].
Qed.

End extremum.

(** ** The OpenMP overloads under a fair run time *)

Lemma serial_omp_fair : omp.omp_fair serial_omp.
Proof. intros cl nowait. apply serial_fair. Qed.

Section omp_facts.
Context {P W : Type} `{!omp.ParamMultiplexer P}.
Implicit Types (omp_priv : list P) (w : W).
Implicit Types (stmt : Z → P → W → option (P * W)).
Implicit Types (g : Index_type → P → W → P * W).

Lemma body_invoke_runs begin_it (loop_body : omp.Func P W) :
  runs_body begin_it (omp.body_invoke begin_it loop_body)
    (λ idx p w, omp.call_params loop_body idx p w).
Proof. intros i idx p w Hidx. unfold omp.body_invoke. by rewrite Hidx. Qed.

Lemma body_call_runs begin_it (loop_body : omp.Func P W) :
  runs_body begin_it (omp.body_call begin_it loop_body)
    (λ idx p w, (p, omp.call loop_body idx w)).
Proof. intros i idx p w Hidx. unfold omp.body_call. by rewrite Hidx. Qed.

Lemma omp_iteration_step begin_it stmt g th i omp_priv w p idx :
  runs_body begin_it stmt g →
  omp_priv !! th = Some p → begin_it !! Z.to_nat i = Some idx →
  omp_iteration stmt th i (omp_priv, w)
  = Some (<[th := (g idx p w).1]> omp_priv, (g idx p w).2).
Proof.
  intros Hiter Hp Hidx. unfold omp_iteration. rewrite Hp. cbn.
  rewrite (Hiter _ _ _ _ Hidx). cbn. by destruct (g idx p w).
Qed.

(** The work-shared loop is defined for every body: each position is inside
    the iterable and each thread has its private copy. *)
Lemma omp_iterations_defined begin_it stmt g n sched omp_priv w :
  runs_body begin_it stmt g →
  Forall (λ p, (p.1 < n)%nat ∧ 0 ≤ p.2 < Z.of_nat (length begin_it)) sched →
  length omp_priv = n →
  is_Some (run_iterations (omp_iteration stmt) sched (omp_priv, w)).
Proof.
  intros Hiter Hsched. revert omp_priv w.
  induction Hsched as [|[th i] sched [Hth Hi] _ IH]; intros omp_priv w Hlen.
  - by eexists.
  - simpl in Hth, Hi.
    destruct (lookup_lt_is_Some_2 omp_priv th) as [p Hp]; [lia|].
    destruct (lookup_lt_is_Some_2 begin_it (Z.to_nat i)) as [idx Hidx]; [lia|].
    cbn [run_iterations].
    rewrite (omp_iteration_step _ _ _ _ _ _ _ _ _ Hiter Hp Hidx).
    cbn [mbind option_bind].
    apply IH. by rewrite length_insert.
Qed.

Lemma omp_for_reduction_defined rt begin_it stmt g f_params w :
  runs_body begin_it stmt g → fair rt →
  is_Some (omp.omp_for_reduction rt (Z.of_nat (length begin_it))
             stmt f_params w).
Proof.
  intros Hiter Hfair. unfold omp.omp_for_reduction, parallel_for.
  destruct (omp_iterations_defined begin_it stmt g (nworkers rt)
              (schedule rt (seqZ 0 (Z.of_nat (length begin_it))))
              (replicate (nworkers rt) f_params) w Hiter)
    as [[omp_priv w'] Hrun].
  { by apply fair_positions. }
  { by rewrite length_replicate. }
  unfold omp_iteration in Hrun. rewrite Hrun. by eexists.
Qed.

(** A body that acts on the parameters by [gp] and on the memory by [gw],
    where [gp] moves the measure [μ] of a private copy by the contribution
    of the index. *)
Lemma omp_iterations_spec (μ : P → Z) contrib
    (gp : Index_type → P → P) (gw : Index_type → W → W)
    begin_it stmt n sched omp_priv w :
  runs_body begin_it stmt (λ idx p w, (gp idx p, gw idx w)) →
  (∀ idx p, μ (gp idx p) = μ p + contrib idx) →
  Forall (λ p, (p.1 < n)%nat ∧ 0 ≤ p.2 < Z.of_nat (length begin_it)) sched →
  length omp_priv = n →
  ∃ omp_priv',
    run_iterations (omp_iteration stmt) sched (omp_priv, w)
    = Some (omp_priv',
            foldl (λ w idx, gw idx w) w (elements_at begin_it sched.*2)) ∧
    total (λ x, x) (μ <$> omp_priv')
    = total (λ x, x) (μ <$> omp_priv)
      + total contrib (elements_at begin_it sched.*2).
Proof.
  intros Hiter Hμ Hsched. revert omp_priv w.
  induction Hsched as [|[th i] sched [Hth Hi] _ IH]; intros omp_priv w Hlen.
  - exists omp_priv. simpl. split; [done | lia].
  - simpl in Hth, Hi.
    destruct (lookup_lt_is_Some_2 omp_priv th) as [p Hp]; [lia|].
    destruct (lookup_lt_is_Some_2 begin_it (Z.to_nat i)) as [idx Hidx]; [lia|].
    destruct (IH (<[th := gp idx p]> omp_priv) (gw idx w))
      as (omp_priv' & Hrun & Htot); [by rewrite length_insert|].
    exists omp_priv'. cbn [run_iterations].
    rewrite (omp_iteration_step _ _ _ _ _ _ _ _ _ Hiter Hp Hidx).
    cbn [mbind option_bind fst snd]. rewrite Hrun.
    unfold elements_at. rewrite fmap_cons. cbn [snd omap list_omap].
    rewrite Hidx. cbn. split; [done|].
    unfold elements_at in Htot. rewrite Htot, list_fmap_insert.
    rewrite (total_insert _ _ (μ p)) by (by rewrite list_lookup_fmap, Hp).
    rewrite Hμ. lia.
Qed.

Lemma omp_for_reduction_spec (μ : P → Z) contrib gp gw rt begin_it stmt
    f_params w :
  runs_body begin_it stmt (λ idx p w, (gp idx p, gw idx w)) →
  (∀ idx p, μ (gp idx p) = μ p + contrib idx) → fair rt →
  ∃ omp_priv σ,
    σ ≡ₚ begin_it ∧
    omp.omp_for_reduction rt (Z.of_nat (length begin_it)) stmt f_params w
    = Some (foldl omp.combine f_params omp_priv,
            foldl (λ w idx, gw idx w) w σ) ∧
    total (λ x, x) (μ <$> omp_priv)
    = Z.of_nat (nworkers rt) * μ f_params + total contrib begin_it.
Proof.
  intros Hiter Hμ Hfair. unfold omp.omp_for_reduction, parallel_for.
  destruct (omp_iterations_spec μ contrib gp gw begin_it stmt (nworkers rt)
              (schedule rt (seqZ 0 (Z.of_nat (length begin_it))))
              (replicate (nworkers rt) f_params) w Hiter Hμ)
    as (omp_priv & Hrun & Htot).
  { by apply fair_positions. }
  { by rewrite length_replicate. }
  exists omp_priv, (elements_at begin_it
    (schedule rt (seqZ 0 (Z.of_nat (length begin_it)))).*2).
  split; [by apply elements_at_fair|].
  unfold omp_iteration in Hrun. rewrite Hrun. split; [done|].
  rewrite Htot, (total_Permutation _ _ _ (elements_at_fair rt begin_it Hfair)).
  f_equal. generalize (nworkers rt). intros n.
  induction n as [|n IH]; [done|].
  cbn [replicate fmap list_fmap total]. fold (fmap μ (replicate n f_params)).
  rewrite IH. lia.
Qed.

(** Every overload is defined, whatever the body and the parameters. *)
Lemma forall_impl_defined ort p iter (loop_body : omp.Func P W) f_params w :
  omp.omp_fair ort →
  is_Some (omp.forall_impl ort p iter loop_body f_params w).
Proof.
  intros Hfair. unfold omp.forall_impl.
  assert (∀ rt, fair rt →
    is_Some (omp.omp_for_reduction rt (Z.of_nat (length iter))
               (omp.body_invoke iter loop_body) (omp.init f_params) w))
    as Hinvoke.
  { intros rt Hrt. eapply omp_for_reduction_defined;
      [apply body_invoke_runs | done]. }
  assert (∀ rt, fair rt →
    is_Some (omp.omp_for_reduction rt (Z.of_nat (length iter))
               (omp.body_call iter loop_body) (omp.init f_params) w))
    as Hcall.
  { intros rt Hrt. eapply omp_for_reduction_defined;
      [apply body_call_runs | done]. }
  destruct p as [|c|c|c|]; cbn zeta; try case_bool_decide.
  all: match goal with
       | |- is_Some (?m ≫= _) =>
           let H := fresh in
           assert (is_Some m) as [[f' w'] H] by (first [apply Hinvoke | apply Hcall]; apply Hfair);
           rewrite H; by eexists
       end.
Qed.

(** The memory after an overload, for a body that acts on it by [gw] in
    both of its call forms. *)
Lemma forall_impl_world ort p iter (loop_body : omp.Func P W) gp gw
    f_params w :
  omp.omp_fair ort →
  (∀ idx p w, omp.call_params loop_body idx p w = (gp idx p, gw idx w)) →
  (∀ idx w, omp.call loop_body idx w = gw idx w) →
  ∃ f' σ, σ ≡ₚ iter ∧
    omp.forall_impl ort p iter loop_body f_params w
    = Some (f', foldl (λ w idx, gw idx w) w σ).
Proof.
  intros Hfair Hparams Hcall. unfold omp.forall_impl.
  assert (∀ rt, fair rt → ∃ f' σ, σ ≡ₚ iter ∧
    omp.omp_for_reduction rt (Z.of_nat (length iter))
      (omp.body_invoke iter loop_body) (omp.init f_params) w
    = Some (f', foldl (λ w idx, gw idx w) w σ)) as Hi.
  { intros rt Hrt.
    destruct (omp_for_reduction_spec (λ _, 0) (λ _, 0) gp gw rt iter
                (omp.body_invoke iter loop_body) (omp.init f_params) w)
      as (priv & σ & Hσ & Hrun & _); [|done|done|by eauto].
    intros i idx p0 w0 Hidx. unfold omp.body_invoke, omp.invoke_body.
    by rewrite Hidx, <- Hparams. }
  assert (∀ rt, fair rt → ∃ f' σ, σ ≡ₚ iter ∧
    omp.omp_for_reduction rt (Z.of_nat (length iter))
      (omp.body_call iter loop_body) (omp.init f_params) w
    = Some (f', foldl (λ w idx, gw idx w) w σ)) as Hc.
  { intros rt Hrt.
    destruct (omp_for_reduction_spec (λ _, 0) (λ _, 0) (λ _ p, p) gw rt iter
                (omp.body_call iter loop_body) (omp.init f_params) w)
      as (priv & σ & Hσ & Hrun & _); [|done|done|by eauto].
    intros i idx p0 w0 Hidx. unfold omp.body_call.
    by rewrite Hidx, <- Hcall. }
  destruct p as [|c|c|c|]; cbn zeta; try case_bool_decide.
  all: match goal with
       | |- ∃ _ _, _ ∧ (?m ≫= _) = _ =>
           let H := fresh in
           assert (∃ f' σ, σ ≡ₚ iter ∧
                     m = Some (f', foldl (λ w idx, gw idx w) w σ))
             as (f' & σ & Hσ & H)
             by (first [apply Hi | apply Hc]; apply Hfair);
           rewrite H; by eauto
       end.
Qed.

End omp_facts.

Section omp_nowait.
Context {P W : Type} `{!omp.ParamMultiplexer P}.

Lemma forall_impl_nowait_world ort iter (loop_body : omp.Func P W) f_params w :
  omp.omp_fair ort →
  (∃ f' σ, σ ≡ₚ iter ∧
     omp.forall_impl_nowait_Auto ort iter loop_body f_params w
     = Some (f', foldl (λ w idx, omp.call loop_body idx w) w σ)) ∧
  (∀ ChunkSize, ∃ f' σ, σ ≡ₚ iter ∧
     omp.forall_impl_nowait_Static ort ChunkSize iter loop_body f_params w
     = Some (f', foldl (λ w idx, omp.call loop_body idx w) w σ)).
Proof.
  intros Hfair.
  assert (∀ rt, fair rt → ∃ f' σ, σ ≡ₚ iter ∧
    omp.omp_for_reduction rt (Z.of_nat (length iter))
      (omp.body_call iter loop_body) (omp.init f_params) w
    = Some (f', foldl (λ w idx, omp.call loop_body idx w) w σ)) as Hc.
  { intros rt Hrt.
    destruct (omp_for_reduction_spec (λ _, 0) (λ _, 0) (λ _ p, p)
                (omp.call loop_body) rt iter
                (omp.body_call iter loop_body) (omp.init f_params) w)
      as (priv & σ & Hσ & Hrun & _); [apply body_call_runs|done|done|by eauto]. }
  split; [|intros ChunkSize];
    unfold omp.forall_impl_nowait_Auto, omp.forall_impl_nowait_Static;
    cbn zeta; try case_bool_decide.
  all: match goal with
       | |- ∃ _ _, _ ∧ (?m ≫= _) = _ =>
           let H := fresh in
           assert (∃ f' σ, σ ≡ₚ iter ∧
                     m = Some (f', foldl (λ w idx, omp.call loop_body idx w) w σ))
             as (f' & σ & Hσ & H)
             by (apply Hc; apply Hfair);
           rewrite H; by eauto
       end.
Qed.

End omp_nowait.

(** *** The sum member of the parameter pack *)

Lemma foldl_combine_sum (r : omp.Reducer) (l : list omp.Reducer) :
  foldl omp.combine r l
  = {| omp.val := omp.val r + total (λ x, x) (omp.val <$> l);
       omp.target := omp.target r |}.
Proof.
  revert r. induction l as [|x l IH]; intros r.
  - destruct r. simpl. f_equal. lia.
  - cbn [foldl]. rewrite IH. cbn. f_equal. lia.
Qed.

(** Under every schedule that hands the parameters to the body the caller's
    total grows by the sum of the contributions. *)
Lemma forall_impl_sum {W : Type} ort p iter contrib eff (r : omp.Reducer)
    (w : W) :
  omp.omp_fair ort → p ≠ omp.Runtime →
  ∃ w', omp.forall_impl ort p iter (reduce_sum_body contrib eff) r w
        = Some ({| omp.val := total contrib iter;
                   omp.target := omp.target r + total contrib iter |}, w').
Proof.
  intros Hfair Hp. unfold omp.forall_impl.
  assert (∀ rt, fair rt → ∃ w',
    omp.omp_for_reduction rt (Z.of_nat (length iter))
      (omp.body_invoke iter (reduce_sum_body contrib eff)) (omp.init r) w
    = Some ({| omp.val := total contrib iter; omp.target := omp.target r |},
            w')) as Hi.
  { intros rt Hrt.
    destruct (omp_for_reduction_spec omp.val contrib
                (λ idx r, {| omp.val := omp.val r + contrib idx;
                             omp.target := omp.target r |}) eff rt iter
                (omp.body_invoke iter (reduce_sum_body contrib eff))
                (omp.init r) w)
      as (priv & σ & Hσ & Hrun & Htot); [apply body_invoke_runs|done|done|].
    eexists. rewrite Hrun, foldl_combine_sum, Htot. cbn.
    replace (0 + (Z.of_nat (nworkers rt) * 0 + total contrib iter))
      with (total contrib iter) by lia.
    done. }
  destruct p as [|c|c|c|]; [| | | |done]; cbn zeta; try case_bool_decide.
  all: match goal with
       | |- ∃ _, (?m ≫= _) = _ =>
           let H := fresh in
           assert (∃ w', m = Some ({| omp.val := total contrib iter;
                                      omp.target := omp.target r |}, w'))
             as (w' & H) by (apply Hi; apply Hfair);
           rewrite H; by eauto
       end.
Qed.

(** Under the [Runtime] schedule the body is called with the index alone:
    no contribution reaches the parameters and the caller's total is left
    as it was. *)
Lemma forall_impl_Runtime_sum {W : Type} ort iter
    (loop_body : omp.Func omp.Reducer W) (r : omp.Reducer) (w : W) :
  omp.omp_fair ort →
  ∃ w', omp.forall_impl ort omp.Runtime iter loop_body r w
        = Some ({| omp.val := 0; omp.target := omp.target r |}, w').
Proof.
  intros Hfair. unfold omp.forall_impl. cbn zeta.
  destruct (omp_for_reduction_spec omp.val (λ _, 0) (λ _ r, r)
              (omp.call loop_body) (omp.team ort omp.sched_runtime false) iter
              (omp.body_call iter loop_body) (omp.init r) w)
    as (priv & σ & Hσ & Hrun & Htot);
    [apply body_call_runs | intros; lia | apply Hfair |].
  eexists. rewrite Hrun, foldl_combine_sum, Htot. cbn.
  assert (total (λ _ : Z, 0) iter = 0) as ->
    by (clear; induction iter; simpl; lia).
  replace (0 + (Z.of_nat (nworkers (omp.team ort omp.sched_runtime false)) * 0
                + 0)) with 0 by lia.
  rewrite Z.add_0_r. done.
Qed.

(** ** The iterations of the strided loop and of the indirection array *)

(** The strided loop runs over [ii], [ii + stride], ... in this order; the
    number of rounds is the quotient of [end_ - ii], rounded up. *)
Lemma stride_loop_closed stride end_ fuel ii :
  0 < stride → (end_ - ii + stride - 1) `div` stride ≤ Z.of_nat fuel →
  stride_loop fuel ii end_ stride
  = Some ((λ k, ii + k * stride)
            <$> seqZ 0 ((end_ - ii + stride - 1) `div` stride)).
Proof.
  intros Hs. revert ii.
  induction fuel as [|fuel IH]; intros ii Hfuel; simpl.
  - case_bool_decide as Hlt.
    + assert (1 ≤ (end_ - ii + stride - 1) `div` stride); [|lia].
      apply Z.div_le_lower_bound; lia.
    + rewrite seqZ_nil; [done|].
      assert ((end_ - ii + stride - 1) `div` stride < 1); [|lia].
      apply Z.div_lt_upper_bound; lia.
  - case_bool_decide as Hlt.
    + replace (end_ - ii + stride - 1)
        with (end_ - (ii + stride) + stride - 1 + 1 * stride) in * by lia.
      rewrite Z.div_add in * by lia.
      set (n := (end_ - (ii + stride) + stride - 1) `div` stride) in *.
      assert (0 ≤ n) by (apply Z.div_pos; lia).
      rewrite IH by lia. cbn. fold n. clearbody n.
      rewrite (seqZ_cons 0 (n + 1)) by lia. rewrite fmap_cons.
      replace (Z.pred (n + 1)) with n by lia.
      replace (Z.succ 0) with (1 + 0) by lia.
      rewrite <- (fmap_add_seqZ 1 0 n), <- list_fmap_compose.
      do 2 f_equal; [lia|].
      apply list_fmap_ext. intros _ k _. cbn. lia.
    + rewrite seqZ_nil; [done|].
      assert ((end_ - ii + stride - 1) `div` stride < 1); [|lia].
      apply Z.div_lt_upper_bound; lia.
Qed.

Lemma range_stride_indices_closed begin end_ stride :
  0 < stride →
  range_stride_indices begin end_ stride
  = Some ((λ k, begin + k * stride)
            <$> seqZ 0 ((end_ - begin + stride - 1) `div` stride)).
Proof.
  intros Hs. apply stride_loop_closed; [done|].
  destruct (decide (begin < end_)) as [Hlt|Hge].
  - assert ((end_ - begin + stride - 1) `div` stride < end_ - begin + 1);
      [|lia].
    apply Z.div_lt_upper_bound; [done|]. nia.
  - assert ((end_ - begin + stride - 1) `div` stride < 1); [|lia].
    apply Z.div_lt_upper_bound; lia.
Qed.

Lemma range_stride_indices_unit begin end_ :
  range_stride_indices begin end_ 1 = Some (range_indices begin end_).
Proof.
  rewrite range_stride_indices_closed by lia. f_equal.
  unfold range_indices. rewrite Z.div_1_r.
  replace (end_ - begin + 1 - 1) with (end_ - begin) by lia.
  rewrite <- (Z.add_0_r begin) at 2.
  rewrite <- (fmap_add_seqZ begin 0).
  apply list_fmap_ext. intros _ k _. lia.
Qed.

Lemma range_stride_indices_diverges begin end_ stride :
  stride ≤ 0 → begin < end_ → range_stride_indices begin end_ stride = None.
Proof. intros. by apply stride_loop_diverges. Qed.

Lemma range_stride_indices_empty begin end_ stride :
  end_ ≤ begin → range_stride_indices begin end_ stride = Some [].
Proof.
  intros Hempty. unfold range_stride_indices.
  destruct (Z.to_nat (end_ - begin)); simpl;
    by rewrite bool_decide_eq_false_2 by lia.
Qed.

(** The indirection loop reads the first [len] entries of the array, in
    position order; it is defined exactly when the array has that many. *)
Lemma indirection_indices_take idx len :
  len ≤ Z.of_nat (length idx) →
  indirection_indices idx len = Some (take (Z.to_nat len) idx).
Proof.
  intros Hlen. unfold indirection_indices. apply mapM_Some.
  apply Forall2_same_length_lookup. split.
  - rewrite length_seqZ, length_take. lia.
  - intros i k x Hk Hx. apply lookup_seqZ in Hk as [-> Hi].
    rewrite Z.add_0_l, Nat2Z.id.
    rewrite lookup_take_Some in Hx. by destruct Hx.
Qed.

Lemma indirection_indices_overrun idx len :
  Z.of_nat (length idx) < len → indirection_indices idx len = None.
Proof.
  intros Hlen. unfold indirection_indices.
  apply eq_None_not_Some. rewrite mapM_is_Some, Forall_forall.
  intros Hall.
  destruct (Hall (Z.of_nat (length idx))) as [x Hx].
  - apply elem_of_seqZ. lia.
  - cbn in Hx. rewrite Nat2Z.id in Hx.
    apply lookup_lt_Some in Hx. lia.
Qed.

(** ** Minimum and maximum as instances *)

Lemma range_indices_nonempty begin end_ :
  begin < end_ → range_indices begin end_ ≠ [].
Proof. intros Hne. unfold range_indices. rewrite seqZ_cons by lia. done. Qed.

Lemma range_indices_empty begin end_ :
  end_ ≤ begin → range_indices begin end_ = [].
Proof. intros Hempty. unfold range_indices. by rewrite seqZ_nil by lia. Qed.

Lemma elem_of_range_indices begin end_ i :
  i ∈ range_indices begin end_ ↔ begin ≤ i < end_.
Proof. unfold range_indices. rewrite elem_of_seqZ. lia. Qed.

Section min_max.
Context {W : Type}.
Implicit Types (val : Index_type → Z) (eff : Index_type → W → W) (w : W).

(** Under every fair schedule the value is the true minimum of the caller's
    value and the values of the indices; when it is below the caller's
    value the location is an index of the loop. *)
Lemma forall_minloc_indices_extreme rt val eff its min loc w :
  fair rt → its ≠ [] →
  ∃ v l σ,
    σ ≡ₚ its ∧
    cilk.forall_minloc_indices rt its min loc (min_body val eff) w
    = Some (v, l, foldl (λ w ii, eff ii w) w σ) ∧
    v ≤ min ∧ (∀ i, i ∈ its → v ≤ val i) ∧
    (v = min ∧ l = loc ∨
     v < min ∧ l ∈ its ∧ ∃ i, i ∈ its ∧ val i = v).
Proof.
  intros Hfair Hne. rewrite forall_minloc_indices_by, min_body_by.
  destruct (forall_loc_indices_spec Z.lt Z.lt_irrefl Z.lt_trans lt_total
              val eff rt its min loc w Hfair Hne)
    as (v & l & σ & Hσ & -> & Hext & Hbound & Hcase).
  exists v, l, σ. split; [done|]. split; [done|]. split; [lia|].
  split; [intros i Hi; specialize (Hbound i Hi); lia|].
  destruct Hcase as [?|?]; [left; by simplify_eq | by right].
Qed.

Lemma forall_maxloc_indices_extreme rt val eff its max loc w :
  fair rt → its ≠ [] →
  ∃ v l σ,
    σ ≡ₚ its ∧
    cilk.forall_maxloc_indices rt its max loc (max_body val eff) w
    = Some (v, l, foldl (λ w ii, eff ii w) w σ) ∧
    max ≤ v ∧ (∀ i, i ∈ its → val i ≤ v) ∧
    (v = max ∧ l = loc ∨
     max < v ∧ l ∈ its ∧ ∃ i, i ∈ its ∧ val i = v).
Proof.
  intros Hfair Hne. rewrite forall_maxloc_indices_by, max_body_by.
  destruct (forall_loc_indices_spec gt_rel gt_rel_irrefl gt_rel_trans
              gt_rel_total val eff rt its max loc w Hfair Hne)
    as (v & l & σ & Hσ & -> & Hext & Hbound & Hcase).
  unfold gt_rel in *.
  exists v, l, σ. split; [done|]. split; [done|]. split; [lia|].
  split; [intros i Hi; specialize (Hbound i Hi); lia|].
  destruct Hcase as [?|?]; [left; by simplify_eq | by right].
Qed.

(** On one worker the location is, moreover, the first index that has the
    value: every index before it has a value that the result beats. *)
Lemma forall_minloc_indices_serial val eff its min loc w :
  its ≠ [] →
  ∃ v l,
    cilk.forall_minloc_indices serial its min loc (min_body val eff) w
    = Some (v, l, foldl (λ w ii, eff ii w) w its) ∧
    v ≤ min ∧ (∀ i, i ∈ its → v ≤ val i) ∧
    (v = min ∧ l = loc ∨
     v < min ∧
     ∃ k, its !! k = Some l ∧ val l = v ∧
          ∀ j i, (j < k)%nat → its !! j = Some i → v < val i).
Proof.
  intros Hne. rewrite forall_minloc_indices_by, min_body_by.
  destruct (forall_loc_indices_serial Z.lt Z.lt_irrefl Z.lt_trans lt_total
              val eff its min loc w Hne)
    as (v & l & -> & Hext & Hbound & Hcase).
  exists v, l. split; [done|]. split; [lia|].
  split; [intros i Hi; specialize (Hbound i Hi); lia|].
  destruct Hcase as [?|?]; [left; by simplify_eq | by right].
Qed.

Lemma forall_maxloc_indices_serial val eff its max loc w :
  its ≠ [] →
  ∃ v l,
    cilk.forall_maxloc_indices serial its max loc (max_body val eff) w
    = Some (v, l, foldl (λ w ii, eff ii w) w its) ∧
    max ≤ v ∧ (∀ i, i ∈ its → val i ≤ v) ∧
    (v = max ∧ l = loc ∨
     max < v ∧
     ∃ k, its !! k = Some l ∧ val l = v ∧
          ∀ j i, (j < k)%nat → its !! j = Some i → val i < v).
Proof.
  intros Hne. rewrite forall_maxloc_indices_by, max_body_by.
  destruct (forall_loc_indices_serial gt_rel gt_rel_irrefl gt_rel_trans
              gt_rel_total val eff its max loc w Hne)
    as (v & l & -> & Hext & Hbound & Hcase).
  unfold gt_rel in *.
  exists v, l. split; [done|]. split; [lia|].
  split; [intros i Hi; specialize (Hbound i Hi); lia|].
  destruct Hcase as [?|?]; [left; by simplify_eq | by right].
Qed.

(** Without indices the merge reads the reducer as it was constructed. *)
Lemma forall_minloc_indices_nil rt (loop_body : @cilk.LOOP_BODY_loc W)
    min loc w :
  fair rt →
  cilk.forall_minloc_indices rt [] min loc loop_body w
  = if bool_decide (0 < min) then Some (0, 0, w) else Some (min, loc, w).
Proof.
  intros Hfair. rewrite forall_minloc_indices_by.
  by rewrite forall_loc_indices_nil.
Qed.

Lemma forall_maxloc_indices_nil rt (loop_body : @cilk.LOOP_BODY_loc W)
    max loc w :
  fair rt →
  cilk.forall_maxloc_indices rt [] max loc loop_body w
  = if bool_decide (max < 0) then Some (0, 0, w) else Some (max, loc, w).
Proof.
  intros Hfair. rewrite forall_maxloc_indices_by.
  by rewrite forall_loc_indices_nil.
Qed.

End min_max.

(** ** The segmented min and max with location *)

Lemma elem_of_hybrid_indices hset i :
  i ∈ hybrid_indices hset ↔
  ∃ seg, seg ∈ hset ∧ i ∈ default [] (segment_indices seg).
Proof.
  induction hset as [|seg hset IH]; cbn.
  - split; [by intros ?%elem_of_nil | by intros (? & ?%elem_of_nil & _)].
  - rewrite elem_of_app, IH. split.
    + intros [Hi|(seg' & Hseg' & Hi)].
      * exists seg. split; [left | done].
      * exists seg'. split; [by right | done].
    + intros (seg' & Hseg' & Hi).
      apply elem_of_cons in Hseg' as [->|Hseg']; [by left|].
      right. by exists seg'.
Qed.

Lemma productive_well_formed hset : productive hset → well_formed hset.
Proof.
  intros Hprod. eapply Forall_impl; [exact Hprod|].
  intros seg (l & Hl & _). rewrite Hl. by eexists.
Qed.

(** In a set whose range and unstructured segments all hold an index, a
    segment hands back an index of the set and the value of one. *)
Lemma productive_pairs val hset seg l v :
  productive hset → seg ∈ hset → seg_pairs val seg l v →
  l ∈ hybrid_indices hset ∧ ∃ i, i ∈ hybrid_indices hset ∧ val i = v.
Proof.
  intros Hprod Hseg Hp.
  pose proof (proj1 (Forall_forall _ _) Hprod seg Hseg)
    as (its & Hits & Hne).
  unfold seg_pairs in Hp. rewrite Hits in Hp.
  destruct its as [|x its]; [destruct Hp as [Hh _]; by apply Hne in Hh|].
  destruct Hp as (Hl & i & Hi & Hv). split.
  - apply elem_of_hybrid_indices. exists seg. by rewrite Hits.
  - exists i. split; [|done].
    apply elem_of_hybrid_indices. exists seg. by rewrite Hits.
Qed.

Lemma hybrid_indices_pairs val hset i :
  i ∈ hybrid_indices hset →
  ∃ seg, seg ∈ hset ∧ seg_pairs val seg i (val i).
Proof.
  intros (seg & Hseg & Hi)%elem_of_hybrid_indices.
  exists seg. split; [done|]. unfold seg_pairs.
  destruct (segment_indices seg) as [[|x its]|]; cbn in Hi;
    [by apply elem_of_nil in Hi | | by apply elem_of_nil in Hi].
  split; [done|]. by exists i.
Qed.

Section min_max_hybrid.
Context {W : Type}.
Implicit Types (val : Index_type → Z) (eff : Index_type → W → W) (w : W).

(** Under every fair interleaving, over a set with at least one segment
    whose range and unstructured segments all hold an index: the value is
    the true minimum, and a value below the caller's comes with an index of
    the set. *)
Lemma forall_minloc_HybridISet_extreme nrt val eff hset min loc w :
  nested_fair nrt → hset ≠ [] → productive hset →
  ∃ v l w',
    cilk.forall_minloc_HybridISet nrt hset min loc (min_body val eff) w
    = Some (v, l, w') ∧
    v ≤ min ∧ (∀ i, i ∈ hybrid_indices hset → v ≤ val i) ∧
    (v = min ∧ l = loc ∨
     v < min ∧ l ∈ hybrid_indices hset ∧
     ∃ i, i ∈ hybrid_indices hset ∧ val i = v).
Proof.
  intros Hfair Hne Hprod.
  rewrite forall_minloc_HybridISet_by, min_body_by.
  destruct (forall_loc_HybridISet_spec Z.lt Z.lt_irrefl Z.lt_trans lt_total
              val eff nrt hset min loc w Hfair
              (productive_well_formed _ Hprod) Hne)
    as (v & l & w' & -> & Hext & Hbound & Hcase).
  exists v, l, w'. split; [done|]. split; [lia|]. split.
  - intros i Hi.
    destruct (hybrid_indices_pairs val hset i Hi) as (seg & Hseg & Hp).
    specialize (Hbound seg i (val i) Hseg Hp). lia.
  - destruct Hcase as [?|(Hlt & seg & Hseg & Hp)];
      [left; by simplify_eq|].
    right. split; [done|]. by eapply productive_pairs.
Qed.

Lemma forall_maxloc_HybridISet_extreme nrt val eff hset max loc w :
  nested_fair nrt → hset ≠ [] → productive hset →
  ∃ v l w',
    cilk.forall_maxloc_HybridISet nrt hset max loc (max_body val eff) w
    = Some (v, l, w') ∧
    max ≤ v ∧ (∀ i, i ∈ hybrid_indices hset → val i ≤ v) ∧
    (v = max ∧ l = loc ∨
     max < v ∧ l ∈ hybrid_indices hset ∧
     ∃ i, i ∈ hybrid_indices hset ∧ val i = v).
Proof.
  intros Hfair Hne Hprod.
  rewrite forall_maxloc_HybridISet_by, max_body_by.
  destruct (forall_loc_HybridISet_spec gt_rel gt_rel_irrefl gt_rel_trans
              gt_rel_total val eff nrt hset max loc w Hfair
              (productive_well_formed _ Hprod) Hne)
    as (v & l & w' & -> & Hext & Hbound & Hcase).
  unfold gt_rel in *.
  exists v, l, w'. split; [done|]. split; [lia|]. split.
  - intros i Hi.
    destruct (hybrid_indices_pairs val hset i Hi) as (seg & Hseg & Hp).
    specialize (Hbound seg i (val i) Hseg Hp). lia.
  - destruct Hcase as [?|(Hlt & seg & Hseg & Hp)];
      [left; by simplify_eq|].
    right. split; [done|]. by eapply productive_pairs.
Qed.

End min_max_hybrid.

(** ** Exactly-once visitation *)

Lemma visits_of_range rt begin end_ :
  fair rt →
  ∃ c, cilk.forall_indices rt (range_indices begin end_) visit no_visits
       = Some c ∧ visited_once_in begin end_ c.
Proof.
  intros Hfair.
  destruct (forall_indices_visits rt (range_indices begin end_) Hfair)
    as (c & Hrun & Hc).
  exists c. split; [done|]. intros i. by rewrite Hc, occurrences_range.
Qed.

Lemma visits_after_permutation σ begin end_ :
  σ ≡ₚ range_indices begin end_ →
  visited_once_in begin end_ (foldl (λ c idx, visit idx c) no_visits σ).
Proof.
  intros Hσ i. rewrite foldl_visit. unfold no_visits. simpl.
  by rewrite (occurrences_Permutation _ _ _ Hσ), occurrences_range.
Qed.

(** C5. Exactly-once visitation, contiguous: for every non-empty contiguous
    range [begin, end_) and every scheduling-mode policy, flat iteration
    invokes the loop body exactly once for each index [begin <= i < end_]
    and for no other index.  Stated with the visitation counter array, for
    the [cilk_for] loop over a range and over a range index set under every
    fair schedule, and for every OpenMP scheduling policy, barriered and
    no-wait, under every fair OpenMP run time. *)
Theorem contiguous_range_visited_exactly_once
    (rt : runtime) (ort : omp.omp_runtime) (begin end_ : Index_type) :
  fair rt → omp.omp_fair ort → begin < end_ →
  (∃ c, cilk.forall_range rt begin end_ visit no_visits = Some c ∧
        visited_once_in begin end_ c) ∧
  (∃ c, cilk.forall_RangeISet rt {| getBegin := begin; getEnd := end_ |}
          visit no_visits = Some c ∧
        visited_once_in begin end_ c) ∧
  (∀ (P : Type) (M : omp.ParamMultiplexer P) (p : omp.Schedule) (f_params : P),
     ∃ f' c, omp.forall_impl ort p (range_indices begin end_) visiting
               f_params no_visits = Some (f', c) ∧
             visited_once_in begin end_ c) ∧
  (∀ (P : Type) (M : omp.ParamMultiplexer P) (f_params : P),
     ∃ f' c, omp.forall_impl_nowait_Auto ort (range_indices begin end_)
               visiting f_params no_visits = Some (f', c) ∧
             visited_once_in begin end_ c) ∧
  (∀ (P : Type) (M : omp.ParamMultiplexer P) (ChunkSize : Z) (f_params : P),
     ∃ f' c, omp.forall_impl_nowait_Static ort ChunkSize
               (range_indices begin end_) visiting f_params no_visits
             = Some (f', c) ∧
             visited_once_in begin end_ c).
Proof.
  intros Hfair Hofair _.
  split; [by apply visits_of_range|]. split; [by apply visits_of_range|].
  split; [|split].
  - intros P M p f_params.
    destruct (forall_impl_world ort p (range_indices begin end_) visiting
                (λ _ p, p) visit f_params no_visits Hofair)
      as (f' & σ & Hσ & Hrun); [done|done|].
    eexists f', _. split; [exact Hrun|]. by apply visits_after_permutation.
  - intros P M f_params.
    destruct (forall_impl_nowait_world ort (range_indices begin end_)
                (@visiting P) f_params no_visits Hofair)
      as [(f' & σ & Hσ & Hrun) _].
    eexists f', _. split; [exact Hrun|]. by apply visits_after_permutation.
  - intros P M ChunkSize f_params.
    destruct (forall_impl_nowait_world ort (range_indices begin end_)
                (@visiting P) f_params no_visits Hofair)
      as [_ Hstatic].
    destruct (Hstatic ChunkSize) as (f' & σ & Hσ & Hrun).
    eexists f', _. split; [exact Hrun|]. by apply visits_after_permutation.
Qed.

Lemma contiguous_range_visited_exactly_once_witness :
  fair reversed_pair ∧ omp.omp_fair serial_omp ∧ 2 < 6 ∧
  ∃ c, cilk.forall_range reversed_pair 2 6 visit no_visits = Some c ∧
       visited_once_in 2 6 c.
Proof.
  split; [apply reversed_pair_fair|]. split; [apply serial_omp_fair|].
  split; [lia|].
  apply (contiguous_range_visited_exactly_once reversed_pair serial_omp 2 6);
    [apply reversed_pair_fair | apply serial_omp_fair | lia].
Defined.

(** C6. Exactly-once visitation, strided: for every non-empty strided range
    with positive stride, flat iteration invokes the loop body exactly once
    for each index in { begin, begin+stride, begin+2*stride, ... } strictly
    below [end_], and for no other index.  The loop terminates, under every
    fair schedule, for the raw bounds and for the strided index set. *)
Theorem strided_range_visited_exactly_once
    (rt : runtime) (begin end_ stride : Index_type) :
  fair rt → 0 < stride → begin < end_ →
  (∃ c, cilk.forall_range_stride rt begin end_ stride visit no_visits
        = Some c ∧
        ∀ i, (on_stride begin end_ stride i → c i = 1%nat) ∧
             (¬ on_stride begin end_ stride i → c i = 0%nat)) ∧
  (∃ c, cilk.forall_RangeStrideISet rt
          {| rs_getBegin := begin; rs_getEnd := end_; getStride := stride |}
          visit no_visits = Some c ∧
        ∀ i, (on_stride begin end_ stride i → c i = 1%nat) ∧
             (¬ on_stride begin end_ stride i → c i = 0%nat)).
Proof.
  intros Hfair Hstride _.
  destruct (range_stride_indices_spec begin end_ stride Hstride)
    as (l & Hl & Hnd & Hin).
  destruct (forall_indices_visits rt l Hfair) as (c & Hrun & Hc).
  assert (∀ i, (on_stride begin end_ stride i → c i = 1%nat) ∧
               (¬ on_stride begin end_ stride i → c i = 0%nat)) as Honce.
  { intros i. rewrite Hc. split; intros Hi.
    - apply occurrences_NoDup; [done | by apply Hin].
    - apply occurrences_not_elem. by rewrite Hin. }
  split; exists c; (split; [|done]).
  - unfold cilk.forall_range_stride. rewrite Hl. exact Hrun.
  - unfold cilk.forall_RangeStrideISet. cbn. rewrite Hl. exact Hrun.
Qed.

Lemma strided_range_visited_exactly_once_witness :
  fair reversed_pair ∧ 0 < 3 ∧ 2 < 11 ∧
  ∃ c, cilk.forall_range_stride reversed_pair 2 11 3 visit no_visits
       = Some c ∧
       ∀ i, (on_stride 2 11 3 i → c i = 1%nat) ∧
            (¬ on_stride 2 11 3 i → c i = 0%nat).
Proof.
  split; [apply reversed_pair_fair|]. split; [lia|]. split; [lia|].
  apply (strided_range_visited_exactly_once reversed_pair 2 11 3);
    [apply reversed_pair_fair | lia | lia].
Defined.

(** ** Sum reduction *)

(** The flat [forall_sum] over a range, a strided range and an indirection
    array, for a reduced type whose addition is associative and commutative
    with neutral zero: under every fair schedule and team size the caller's
    total grows by the sum of the contributions of the iterated indices. *)
Lemma forall_sum_flat {W T : Type} `{!Sum_type T} `{!Sum_laws T}
    rt (sum : T) contrib eff (w : W) :
  fair rt →
  (∀ begin end_, ∃ w',
     cilk.forall_sum_range rt begin end_ sum (sum_body contrib eff) w
     = Some (T_add sum (T_total contrib (range_indices begin end_)), w')) ∧
  (∀ begin end_ stride, 0 < stride → ∃ its w',
     range_stride_indices begin end_ stride = Some its ∧
     cilk.forall_sum_range_stride rt begin end_ stride sum
       (sum_body contrib eff) w
     = Some (T_add sum (T_total contrib its), w')) ∧
  (∀ idx, ∃ w',
     cilk.forall_sum_indirection rt idx (Z.of_nat (length idx)) sum
       (sum_body contrib eff) w
     = Some (T_add sum (T_total contrib idx), w')).
Proof.
  intros Hfair. split; [|split].
  - intros begin end_. eexists. unfold cilk.forall_sum_range.
    by rewrite forall_sum_indices_spec.
  - intros begin end_ stride Hs.
    destruct (range_stride_indices_spec begin end_ stride Hs) as (l & Hl & _).
    exists l. eexists. split; [done|].
    unfold cilk.forall_sum_range_stride. rewrite Hl. cbn.
    by rewrite forall_sum_indices_spec.
  - intros idx. eexists. unfold cilk.forall_sum_indirection.
    rewrite indirection_indices_length. cbn.
    by rewrite forall_sum_indices_spec.
Qed.

(** The sum of [i * i] over [0, 1000) is 332833500 under every fair
    schedule and team size. *)
Example sum_of_squares {W : Type} rt (eff : Index_type → W → W) (w : W) :
  fair rt →
  ∃ w', cilk.forall_sum_range rt 0 1000 0 (sum_body (λ i, i * i) eff) w
        = Some (332833500, w').
Proof.
  intros Hfair.
  destruct (forall_sum_flat rt 0 (λ i, i * i) eff w Hfair) as [Hrange _].
  destruct (Hrange 0 1000) as [w' Hrun]. exists w'. rewrite Hrun.
  do 2 f_equal.
Qed.

(** C1. Sum reduction: for every range and every scheduling-mode policy the
    caller's accumulator should equal its prior value plus the sum of all
    per-index contributions.  The OpenMP overload for the [Runtime] schedule
    calls [loop_body(begin_it[i])] without the reduction parameters, where
    the overloads for the other schedules call [invoke_body]: on the range
    [1, 4) with contributions 1, 2, 3 and a prior total of 10 the [Auto]
    schedule yields 16 and the [Runtime] schedule leaves 10. *)
Theorem Runtime_schedule_loses_sum_contributions :
  omp.forall_impl serial_omp omp.Auto (range_indices 1 4)
    (reduce_sum_body (λ i, i) (λ _ w, w)) {| omp.val := 0; omp.target := 10 |} tt
  = Some ({| omp.val := 6; omp.target := 16 |}, tt) ∧
  omp.forall_impl serial_omp omp.Runtime (range_indices 1 4)
    (reduce_sum_body (λ i, i) (λ _ w, w)) {| omp.val := 0; omp.target := 10 |} tt
  = Some ({| omp.val := 0; omp.target := 10 |}, tt).
Proof. split; reflexivity. Qed.

(** ** The text written by the parallel policy *)



(** ** Minimum and maximum with location *)

(** Over a non-empty range, under every fair schedule: the value is the
    true minimum, and a value below the caller's comes with a location in
    the range. *)
Lemma forall_minloc_range_extreme {W : Type} rt val
    (eff : Index_type → W → W) begin end_ min loc (w : W) :
  fair rt → begin < end_ →
  ∃ v l w',
    cilk.forall_minloc_range rt begin end_ min loc (min_body val eff) w
    = Some (v, l, w') ∧
    v ≤ min ∧ (∀ i, begin ≤ i < end_ → v ≤ val i) ∧
    (v = min ∧ l = loc ∨
     v < min ∧ begin ≤ l < end_ ∧ ∃ i, begin ≤ i < end_ ∧ val i = v).
Proof.
  intros Hfair Hne. unfold cilk.forall_minloc_range.
  destruct (forall_minloc_indices_extreme rt val eff
              (range_indices begin end_) min loc w Hfair
              (range_indices_nonempty _ _ Hne))
    as (v & l & σ & _ & Hrun & Hle & Hall & Hcase).
  exists v, l. eexists. split; [exact Hrun|]. split; [done|].
  split; [intros i Hi; apply Hall; by apply elem_of_range_indices|].
  destruct Hcase as [?|(Hlt & Hl & i & Hi & Hval)]; [by left|].
  right. split; [done|]. split; [by apply elem_of_range_indices|].
  exists i. split; [by apply elem_of_range_indices | done].
Qed.

Lemma forall_maxloc_range_extreme {W : Type} rt val
    (eff : Index_type → W → W) begin end_ max loc (w : W) :
  fair rt → begin < end_ →
  ∃ v l w',
    cilk.forall_maxloc_range rt begin end_ max loc (max_body val eff) w
    = Some (v, l, w') ∧
    max ≤ v ∧ (∀ i, begin ≤ i < end_ → val i ≤ v) ∧
    (v = max ∧ l = loc ∨
     max < v ∧ begin ≤ l < end_ ∧ ∃ i, begin ≤ i < end_ ∧ val i = v).
Proof.
  intros Hfair Hne. unfold cilk.forall_maxloc_range.
  destruct (forall_maxloc_indices_extreme rt val eff
              (range_indices begin end_) max loc w Hfair
              (range_indices_nonempty _ _ Hne))
    as (v & l & σ & _ & Hrun & Hle & Hall & Hcase).
  exists v, l. eexists. split; [exact Hrun|]. split; [done|].
  split; [intros i Hi; apply Hall; by apply elem_of_range_indices|].
  destruct Hcase as [?|(Hlt & Hl & i & Hi & Hval)]; [by left|].
  right. split; [done|]. split; [by apply elem_of_range_indices|].
  exists i. split; [by apply elem_of_range_indices | done].
Qed.

Lemma range_indices_lookup begin end_ (k : nat) i :
  range_indices begin end_ !! k = Some i ↔
  i = begin + Z.of_nat k ∧ begin ≤ i < end_.
Proof.
  unfold range_indices. rewrite lookup_seqZ. lia.
Qed.

(** On one worker the location is the first index of the range whose value
    is the minimum. *)
Lemma forall_minloc_range_serial {W : Type} val (eff : Index_type → W → W)
    begin end_ min loc (w : W) :
  begin < end_ →
  ∃ v l,
    cilk.forall_minloc_range serial begin end_ min loc (min_body val eff) w
    = Some (v, l, foldl (λ w ii, eff ii w) w (range_indices begin end_)) ∧
    v ≤ min ∧ (∀ i, begin ≤ i < end_ → v ≤ val i) ∧
    (v = min ∧ l = loc ∨
     v < min ∧ begin ≤ l < end_ ∧ val l = v ∧
     ∀ i, begin ≤ i < l → v < val i).
Proof.
  intros Hne. unfold cilk.forall_minloc_range.
  destruct (forall_minloc_indices_serial val eff
              (range_indices begin end_) min loc w
              (range_indices_nonempty _ _ Hne))
    as (v & l & Hrun & Hle & Hall & Hcase).
  exists v, l. split; [exact Hrun|]. split; [done|].
  split; [intros i Hi; apply Hall; by apply elem_of_range_indices|].
  destruct Hcase as [?|(Hlt & k & Hk & Hval & Hfirst)]; [by left|].
  right. apply range_indices_lookup in Hk as [-> Hk].
  split; [done|]. split; [done|]. split; [done|].
  intros i Hi. apply (Hfirst (Z.to_nat (i - begin)) i); [lia|].
  apply range_indices_lookup. lia.
Qed.

Lemma forall_maxloc_range_serial {W : Type} val (eff : Index_type → W → W)
    begin end_ max loc (w : W) :
  begin < end_ →
  ∃ v l,
    cilk.forall_maxloc_range serial begin end_ max loc (max_body val eff) w
    = Some (v, l, foldl (λ w ii, eff ii w) w (range_indices begin end_)) ∧
    max ≤ v ∧ (∀ i, begin ≤ i < end_ → val i ≤ v) ∧
    (v = max ∧ l = loc ∨
     max < v ∧ begin ≤ l < end_ ∧ val l = v ∧
     ∀ i, begin ≤ i < l → val i < v).
Proof.
  intros Hne. unfold cilk.forall_maxloc_range.
  destruct (forall_maxloc_indices_serial val eff
              (range_indices begin end_) max loc w
              (range_indices_nonempty _ _ Hne))
    as (v & l & Hrun & Hle & Hall & Hcase).
  exists v, l. split; [exact Hrun|]. split; [done|].
  split; [intros i Hi; apply Hall; by apply elem_of_range_indices|].
  destruct Hcase as [?|(Hlt & k & Hk & Hval & Hfirst)]; [by left|].
  right. apply range_indices_lookup in Hk as [-> Hk].
  split; [done|]. split; [done|]. split; [done|].
  intros i Hi. apply (Hfirst (Z.to_nat (i - begin)) i); [lia|].
  apply range_indices_lookup. lia.
Qed.

(** C2. Minloc/maxloc reduction: for every non-empty range, the
    (value, location) pair written back by [forall_minloc] (resp.
    [forall_maxloc]) should have value equal to the true minimum (resp.
    maximum) of all per-index contributed values compared against the
    caller's prior accumulator, and the reported location should be an
    index whose loop-body invocation actually produced that extreme value.
    The iterations share [min_tmp] and [loc_tmp], and each records its own
    index with the shared value.  On two workers that run the second
    iteration of the range [0, 2) first, with the values 5 at index 0 and 3
    at index 1 and the caller's pair (100, -1), [forall_minloc] writes the
    value 3 with the location 0, whose body produced 5; [forall_maxloc]
    writes the value 5 with the location 0 for the values 3 and 5 and the
    caller's pair (0, -1).  The schedule is fair: every iteration runs
    once, on a worker of the team. *)
Theorem minloc_location_of_another_iteration :
  fair reversed_pair ∧
  (∃ c, cilk.forall_minloc_range reversed_pair 0 2 100 (-1)
          (min_body (λ i, 5 - 2 * i) visit) no_visits
        = Some (3, 0, c) ∧ visited_once_in 0 2 c) ∧
  (∃ c, cilk.forall_maxloc_range reversed_pair 0 2 0 (-1)
          (max_body (λ i, 3 + 2 * i) visit) no_visits
        = Some (5, 0, c) ∧ visited_once_in 0 2 c) ∧
  5 - 2 * 0 ≠ 3 ∧ 3 + 2 * 0 ≠ 5.
Proof.
  split; [exact reversed_pair_fair|].
  split; [|split; [|lia]].
  - exists (visit 0 (visit 1 no_visits)). split; [reflexivity|].
    intros i. unfold visit, no_visits. repeat case_bool_decide; lia.
  - exists (visit 0 (visit 1 no_visits)). split; [reflexivity|].
    intros i. unfold visit, no_visits. repeat case_bool_decide; lia.
Qed.

(** ** Segmented dispatch *)

(** C4. Segmented-dispatch equivalence: for every flat range partitioned
    into k >= 1 contiguous segments, running the segmented dispatch should
    produce the same exactly-once index visitation and the same final
    reduction accumulator values as running the corresponding flat dispatch
    directly over the unpartitioned range.  The range [0, 3) cut at 3 and 3
    is the segments [0, 3) and [3, 3), which hold the indices of the range.
    On one worker, with the values 10, 11, 12 and the caller's pair
    (100, -1), the flat [forall_minloc] writes (10, 0) and the segmented one
    (0, 0): the call for the segment without indices reads its reducer, in
    which nothing was recorded, and 0 is below the 10 found so far.  The
    segmented [forall_maxloc] writes (0, 0) where the flat one writes
    (-10, 0) for the values -10, -11, -12 and the caller's pair (-100, -1).
    Both visit every index of the range once. *)
Theorem empty_segment_changes_the_extremum :
  hybrid_indices (partition_segments 0 [3; 3]) = range_indices 0 3 ∧
  (∃ c, cilk.forall_minloc_range serial 0 3 100 (-1)
          (min_body (λ i, i + 10) visit) no_visits
        = Some (10, 0, c) ∧ visited_once_in 0 3 c) ∧
  (∃ c, cilk.forall_minloc_HybridISet serial_nested
          (partition_segments 0 [3; 3]) 100 (-1)
          (min_body (λ i, i + 10) visit) no_visits
        = Some (0, 0, c) ∧ visited_once_in 0 3 c) ∧
  (∃ c, cilk.forall_maxloc_range serial 0 3 (-100) (-1)
          (max_body (λ i, - i - 10) visit) no_visits
        = Some (-10, 0, c) ∧ visited_once_in 0 3 c) ∧
  (∃ c, cilk.forall_maxloc_HybridISet serial_nested
          (partition_segments 0 [3; 3]) (-100) (-1)
          (max_body (λ i, - i - 10) visit) no_visits
        = Some (0, 0, c) ∧ visited_once_in 0 3 c).
Proof.
  split; [reflexivity|].
  repeat split;
    (exists (visit 2 (visit 1 (visit 0 no_visits))); split; [reflexivity|];
     intros i; unfold visit, no_visits; repeat case_bool_decide; lia).
Qed.

(** C8. Unrecognized segment kind: every segmented dispatch variant should
    leave such a segment a silent no-op, with no change to the reduction
    result relative to the same collection without that segment.  When the
    segment is the only one, the min-with-location over the set leaves the
    caller's pair (5, 3) as it is, while over the same set without the
    segment, which is empty, it writes (0, 0): the unset reducer is read
    after a loop over no segment.  The max-with-location does the same with
    a negative prior maximum.  This is so under every fair run time. *)
Theorem unknown_segment_alone_differs_from_none (nrt : nested_runtime) :
  nested_fair nrt →
  let seg := {| m_type := _Unknown_;
                m_segment := IsRange {| getBegin := 0; getEnd := 4 |} |} in
  cilk.forall_minloc_HybridISet nrt [seg] 5 3 (min_body (λ i, i) visit)
    no_visits
  = Some (5, 3, no_visits) ∧
  cilk.forall_minloc_HybridISet nrt [] 5 3 (min_body (λ i, i) visit)
    no_visits
  = Some (0, 0, no_visits) ∧
  cilk.forall_maxloc_HybridISet nrt [seg] (-5) 3 (max_body (λ i, i) visit)
    no_visits
  = Some (-5, 3, no_visits) ∧
  cilk.forall_maxloc_HybridISet nrt [] (-5) 3 (max_body (λ i, i) visit)
    no_visits
  = Some (0, 0, no_visits).
Proof.
  intros Hfair seg.
  destruct (strands_single_zero nrt Hfair) as (wk1 & wk2 & Hone).
  pose proof (strands_nil nrt Hfair) as Hnone.
  unfold cilk.forall_minloc_HybridISet, cilk.forall_maxloc_HybridISet,
    nested_for.
  change (inner_count <$> [seg]) with [0%nat].
  change (inner_count <$> []) with (@nil nat).
  rewrite Hone, Hnone. repeat split; reflexivity.
Qed.

Lemma unknown_segment_alone_differs_from_none_witness :
  nested_fair serial_nested ∧
  cilk.forall_minloc_HybridISet serial_nested
    [{| m_type := _Unknown_;
        m_segment := IsRange {| getBegin := 0; getEnd := 4 |} |}]
    5 3 (min_body (λ i, i) visit) no_visits
  = Some (5, 3, no_visits) ∧
  cilk.forall_minloc_HybridISet serial_nested [] 5 3
    (min_body (λ i, i) visit) no_visits
  = Some (0, 0, no_visits).
Proof.
  split; [exact serial_nested_fair|].
  pose proof (unknown_segment_alone_differs_from_none serial_nested
                serial_nested_fair) as H.
  cbv zeta in H. destruct H as (H1 & H2 & _). split; [exact H1 | exact H2].
Defined.

(** ** Empty iteration spaces *)

Lemma forall_indices_nil {W : Type} rt (loop_body : Index_type → W → W) w :
  fair rt → cilk.forall_indices rt [] loop_body w = Some w.
Proof.
  intros Hfair. unfold cilk.forall_indices, parallel_for.
  by rewrite fair_nil.
Qed.

Lemma forall_sum_indices_nil {W T : Type} `{!Sum_type T} rt (sum : T)
    (loop_body : @cilk.LOOP_BODY_sum W T) w :
  (∀ x : T, T_add x T_zero = x) → fair rt →
  cilk.forall_sum_indices rt [] sum loop_body w = Some (sum, w).
Proof.
  intros Hzero Hfair. unfold cilk.forall_sum_indices, parallel_for.
  rewrite fair_nil by done. cbn. by rewrite foldl_T_add_zeros.
Qed.

(** Over an empty range the flat loop and the sum reduction run no body and
    leave the memory and the total as they were; the min-with-location
    leaves the caller's pair only when the prior minimum is not positive,
    the max-with-location only when the prior maximum is not negative. *)
Lemma empty_range_dispatch {W T : Type} `{!Sum_type T} rt begin end_
    (loop_body : Index_type → W → W)
    (sum_loop_body : @cilk.LOOP_BODY_sum W T)
    (loc_loop_body : @cilk.LOOP_BODY_loc W) (sum : T) ext loc (w : W) :
  (∀ x : T, T_add x T_zero = x) → fair rt → end_ ≤ begin →
  cilk.forall_range rt begin end_ loop_body w = Some w ∧
  cilk.forall_sum_range rt begin end_ sum sum_loop_body w = Some (sum, w) ∧
  cilk.forall_minloc_range rt begin end_ ext loc loc_loop_body w
  = (if bool_decide (0 < ext) then Some (0, 0, w) else Some (ext, loc, w)) ∧
  cilk.forall_maxloc_range rt begin end_ ext loc loc_loop_body w
  = (if bool_decide (ext < 0) then Some (0, 0, w) else Some (ext, loc, w)).
Proof.
  intros Hzero Hfair Hempty.
  unfold cilk.forall_range, cilk.forall_sum_range, cilk.forall_minloc_range,
    cilk.forall_maxloc_range.
  rewrite range_indices_empty by done.
  rewrite forall_indices_nil, forall_sum_indices_nil by done.
  by rewrite forall_minloc_indices_nil, forall_maxloc_indices_nil by done.
Qed.

(** C7. Empty-collection property: every flat and reduction variant should
    perform zero loop-body invocations over an empty iterable and leave
    every caller-owned accumulator unchanged.  Over the empty range [0, 0)
    with the caller's pair (5, 3) [forall_minloc] runs no body and writes
    (0, 0); [forall_maxloc] does so for the pair (-5, 3): the reducer is
    read although no value was recorded in it.  This is so for every loop
    body and under every fair schedule. *)
Theorem empty_range_minloc_changes_accumulators {W : Type} (rt : runtime)
    (loop_body : @cilk.LOOP_BODY_loc W) (w : W) :
  fair rt →
  cilk.forall_minloc_range rt 0 0 5 3 loop_body w = Some (0, 0, w) ∧
  cilk.forall_maxloc_range rt 0 0 (-5) 3 loop_body w = Some (0, 0, w).
Proof.
  intros Hfair. unfold cilk.forall_minloc_range, cilk.forall_maxloc_range.
  change (range_indices 0 0) with (@nil Index_type).
  by rewrite forall_minloc_indices_nil, forall_maxloc_indices_nil by done.
Qed.

Lemma empty_range_minloc_changes_accumulators_witness :
  fair reversed_pair ∧
  cilk.forall_minloc_range reversed_pair 0 0 5 3
    (min_body (λ i, i) visit) no_visits
  = Some (0, 0, no_visits) ∧
  cilk.forall_maxloc_range reversed_pair 0 0 (-5) 3
    (max_body (λ i, i) visit) no_visits
  = Some (0, 0, no_visits).
Proof.
  split; [exact reversed_pair_fair|].
  split.
  - exact (proj1 (empty_range_minloc_changes_accumulators reversed_pair
                    (min_body (λ i, i) visit) no_visits reversed_pair_fair)).
  - exact (proj2 (empty_range_minloc_changes_accumulators reversed_pair
                    (max_body (λ i, i) visit) no_visits reversed_pair_fair)).
Defined.

(** ** The merge condition *)

(** Over a non-empty range, under every fair schedule, the caller's pair is
    replaced, value and location together, exactly when some candidate is
    strictly smaller (for the maximum, strictly greater) than the caller's
    value; otherwise both are left as they were. *)
Lemma minloc_merge_nonempty {W : Type} rt val (eff : Index_type → W → W)
    begin end_ min loc (w : W) :
  fair rt → begin < end_ →
  ∃ v l w',
    cilk.forall_minloc_range rt begin end_ min loc (min_body val eff) w
    = Some (v, l, w') ∧
    ((∃ i, begin ≤ i < end_ ∧ val i < min) →
     v < min ∧ begin ≤ l < end_) ∧
    ((∀ i, begin ≤ i < end_ → min ≤ val i) → v = min ∧ l = loc).
Proof.
  intros Hfair Hne.
  destruct (forall_minloc_range_extreme rt val eff begin end_ min loc w
              Hfair Hne)
    as (v & l & w' & Hrun & Hle & Hall & Hcase).
  exists v, l, w'. split; [done|]. split.
  - intros (i & Hi & Hlt). specialize (Hall i Hi).
    destruct Hcase as [[-> ->]|(? & ? & _)]; [lia | done].
  - intros Hmin. destruct Hcase as [Hcase|(Hlt & _ & i & Hi & Hval)]; [done|].
    specialize (Hmin i Hi). lia.
Qed.

Lemma maxloc_merge_nonempty {W : Type} rt val (eff : Index_type → W → W)
    begin end_ max loc (w : W) :
  fair rt → begin < end_ →
  ∃ v l w',
    cilk.forall_maxloc_range rt begin end_ max loc (max_body val eff) w
    = Some (v, l, w') ∧
    ((∃ i, begin ≤ i < end_ ∧ max < val i) →
     max < v ∧ begin ≤ l < end_) ∧
    ((∀ i, begin ≤ i < end_ → val i ≤ max) → v = max ∧ l = loc).
Proof.
  intros Hfair Hne.
  destruct (forall_maxloc_range_extreme rt val eff begin end_ max loc w
              Hfair Hne)
    as (v & l & w' & Hrun & Hle & Hall & Hcase).
  exists v, l, w'. split; [done|]. split.
  - intros (i & Hi & Hlt). specialize (Hall i Hi).
    destruct Hcase as [[-> ->]|(? & ? & _)]; [lia | done].
  - intros Hmax. destruct Hcase as [Hcase|(Hlt & _ & i & Hi & Hval)]; [done|].
    specialize (Hmax i Hi). lia.
Qed.

(** C3. Minloc merge conditional: for every input, [forall_minloc] should
    update the caller's value and location together if and only if the best
    candidate seen during the region is strictly smaller than the caller's
    current best, and [forall_maxloc] symmetrically.  Over the empty range
    [4, 4) no candidate is seen, yet the caller's pair (10, 7) is replaced
    by (0, 0), and for the maximum the pair (-10, 7) likewise, under every
    fair schedule. *)
Theorem merge_updates_without_any_candidate (rt : runtime) :
  fair rt →
  cilk.forall_minloc_range rt 4 4 10 7 (min_body (λ i, i) visit) no_visits
  = Some (0, 0, no_visits) ∧
  cilk.forall_maxloc_range rt 4 4 (-10) 7 (max_body (λ i, i) visit)
    no_visits
  = Some (0, 0, no_visits).
Proof.
  intros Hfair. unfold cilk.forall_minloc_range, cilk.forall_maxloc_range.
  change (range_indices 4 4) with (@nil Index_type).
  by rewrite forall_minloc_indices_nil, forall_maxloc_indices_nil by done.
Qed.

Lemma merge_updates_without_any_candidate_witness :
  fair serial ∧
  cilk.forall_minloc_range serial 4 4 10 7 (min_body (λ i, i) visit)
    no_visits
  = Some (0, 0, no_visits) ∧
  cilk.forall_maxloc_range serial 4 4 (-10) 7 (max_body (λ i, i) visit)
    no_visits
  = Some (0, 0, no_visits).
Proof.
  split; [exact serial_fair|].
  exact (merge_updates_without_any_candidate serial serial_fair).
Defined.

(** ** The location that is written *)

(** C10. For every range [begin, end), whenever flat [forall_minloc] or
    [forall_maxloc] updates the caller's location, the written location
    should be an index actually iterated.  Over the empty range [7, 7)
    nothing is iterated, yet the caller's location -1 is replaced: the
    location 0 of the unset reducer is written, with the value 0, for the
    minimum below a prior 1 and for the maximum above a prior -1, for every
    loop body and under every fair schedule. *)
Theorem written_location_not_iterated {W : Type} (rt : runtime)
    (loop_body : @cilk.LOOP_BODY_loc W) (w : W) :
  fair rt →
  cilk.forall_minloc_range rt 7 7 1 (-1) loop_body w = Some (0, 0, w) ∧
  cilk.forall_maxloc_range rt 7 7 (-1) (-1) loop_body w = Some (0, 0, w) ∧
  range_indices 7 7 = [].
Proof.
  intros Hfair. unfold cilk.forall_minloc_range, cilk.forall_maxloc_range.
  change (range_indices 7 7) with (@nil Index_type).
  by rewrite forall_minloc_indices_nil, forall_maxloc_indices_nil by done.
Qed.

Lemma written_location_not_iterated_witness :
  fair reversed_pair ∧
  cilk.forall_minloc_range reversed_pair 7 7 1 (-1)
    (min_body (λ i, i * i) visit) no_visits
  = Some (0, 0, no_visits) ∧
  range_indices 7 7 = [].
Proof.
  split; [exact reversed_pair_fair|].
  pose proof (written_location_not_iterated reversed_pair
                (min_body (λ i, i * i) visit) no_visits reversed_pair_fair)
    as (H1 & _ & H3).
  split; [exact H1 | exact H3].
Defined.

(** ** Strided loops *)

(** X1. For a positive stride the strided [forall] terminates and calls the
    loop body, whatever it is, once for each of [begin], [begin + stride],
    [begin + 2 * stride], ...: the number of calls is [end - begin] divided
    by the stride, rounded up (none when [end <= begin]).  The same holds
    for the strided index set object. *)
Theorem strided_forall_calls {W : Type} (rt : runtime)
    (begin end_ stride : Index_type) (loop_body : Index_type → W → W)
    (w : W) :
  fair rt → 0 < stride →
  let n := (end_ - begin + stride - 1) `div` stride in
  ∃ σ, σ ≡ₚ (λ k, begin + k * stride) <$> seqZ 0 n ∧
       length σ = Z.to_nat n ∧
       cilk.forall_range_stride rt begin end_ stride loop_body w
       = Some (foldl (λ w ii, loop_body ii w) w σ) ∧
       cilk.forall_RangeStrideISet rt
         {| rs_getBegin := begin; rs_getEnd := end_; getStride := stride |}
         loop_body w
       = Some (foldl (λ w ii, loop_body ii w) w σ).
Proof.
  intros Hfair Hs n.
  exists (schedule rt ((λ k, begin + k * stride) <$> seqZ 0 n)).*2.
  destruct (Hfair ((λ k, begin + k * stride) <$> seqZ 0 n)) as [Hperm _].
  split; [done|]. split.
  - by rewrite Hperm, length_fmap, length_seqZ.
  - unfold cilk.forall_RangeStrideISet, cilk.forall_range_stride. cbn.
    rewrite range_stride_indices_closed by done. cbn.
    by rewrite forall_indices_trace.
Qed.

Lemma strided_forall_calls_witness :
  fair reversed_pair ∧ 0 < 3 ∧
  ∃ σ, σ ≡ₚ (λ k, 2 + k * 3) <$> seqZ 0 ((11 - 2 + 3 - 1) `div` 3) ∧
       length σ = 3%nat ∧
       cilk.forall_range_stride reversed_pair 2 11 3 visit no_visits
       = Some (foldl (λ w ii, visit ii w) no_visits σ).
Proof.
  split; [exact reversed_pair_fair|]. split; [lia|].
  destruct (strided_forall_calls reversed_pair 2 11 3 visit no_visits
              reversed_pair_fair ltac:(lia)) as (σ & Hσ & Hlen & Hrun & _).
  exists σ. split; [exact Hσ|]. split; [exact Hlen | exact Hrun].
Defined.

(** X2. With a stride that is zero or negative and [begin < end] the
    strided loop never reaches its bound: no number of rounds completes it,
    and the strided [forall], [forall_sum], [forall_minloc] and
    [forall_maxloc] have no result, under any schedule, for any loop body
    and any reduced type. *)
Theorem strided_loops_need_positive_stride {W T : Type} `{!Sum_type T}
    (rt : runtime) (begin end_ stride : Index_type)
    (loop_body : Index_type → W → W)
    (sum_loop_body : @cilk.LOOP_BODY_sum W T)
    (loc_loop_body : @cilk.LOOP_BODY_loc W)
    (sum : T) (ext : Z) (loc : Index_type) (w : W) :
  stride ≤ 0 → begin < end_ →
  (∀ fuel, stride_loop fuel begin end_ stride = None) ∧
  cilk.forall_range_stride rt begin end_ stride loop_body w = None ∧
  cilk.forall_sum_range_stride rt begin end_ stride sum sum_loop_body w
  = None ∧
  cilk.forall_minloc_range_stride rt begin end_ stride ext loc
    loc_loop_body w
  = None ∧
  cilk.forall_maxloc_range_stride rt begin end_ stride ext loc
    loc_loop_body w
  = None.
Proof.
  intros Hs Hlt. split.
  - intros fuel. by apply stride_loop_diverges.
  - unfold cilk.forall_range_stride, cilk.forall_sum_range_stride,
      cilk.forall_minloc_range_stride, cilk.forall_maxloc_range_stride.
    by rewrite range_stride_indices_diverges.
Qed.

Lemma strided_loops_need_positive_stride_witness :
  0 ≤ 0 ∧ 1 < 4 ∧
  cilk.forall_range_stride serial 1 4 0 visit no_visits = None ∧
  cilk.forall_minloc_range_stride reversed_pair 1 4 0 0 0
    (min_body (λ i, i) visit) no_visits = None.
Proof.
  split; [lia|]. split; [lia|]. split.
  - exact (proj1 (proj2 (strided_loops_need_positive_stride serial 1 4 0
      visit (sum_body (λ i, i) visit) (min_body (λ i, i) visit) 0 0 0
      no_visits ltac:(lia) ltac:(lia)))).
  - exact (proj1 (proj2 (proj2 (proj2 (strided_loops_need_positive_stride
      reversed_pair 1 4 0
      visit (sum_body (λ i, i) visit) (min_body (λ i, i) visit) 0 0 0
      no_visits ltac:(lia) ltac:(lia)))))).
Defined.

(** X3. With stride one the strided loops are the contiguous ones: the
    strided [forall], [forall_sum], [forall_minloc] and [forall_maxloc]
    return what their range counterparts return, for every schedule, loop
    body, reduced type and bounds. *)
Theorem unit_stride_is_contiguous {W T : Type} `{!Sum_type T}
    (rt : runtime) (begin end_ : Index_type)
    (loop_body : Index_type → W → W)
    (sum_loop_body : @cilk.LOOP_BODY_sum W T)
    (loc_loop_body : @cilk.LOOP_BODY_loc W)
    (sum : T) (ext : Z) (loc : Index_type) (w : W) :
  cilk.forall_range_stride rt begin end_ 1 loop_body w
  = cilk.forall_range rt begin end_ loop_body w ∧
  cilk.forall_sum_range_stride rt begin end_ 1 sum sum_loop_body w
  = cilk.forall_sum_range rt begin end_ sum sum_loop_body w ∧
  cilk.forall_minloc_range_stride rt begin end_ 1 ext loc loc_loop_body w
  = cilk.forall_minloc_range rt begin end_ ext loc loc_loop_body w ∧
  cilk.forall_maxloc_range_stride rt begin end_ 1 ext loc loc_loop_body w
  = cilk.forall_maxloc_range rt begin end_ ext loc loc_loop_body w.
Proof.
  unfold cilk.forall_range_stride, cilk.forall_sum_range_stride,
    cilk.forall_minloc_range_stride, cilk.forall_maxloc_range_stride.
  rewrite range_stride_indices_unit. done.
Qed.

(** ** Indirection arrays *)

(** X4. The [forall] over an indirection array calls the loop body on the
    first [len] entries of the array and on nothing else: an index is
    visited as often as it is listed among them, so a repeated entry is
    visited repeatedly, and with a negative [len] nothing is visited.  An
    array shorter than [len] is read past its end, which has no defined
    result.  The unstructured index set object passes its own length and
    visits all its entries. *)
Theorem indirection_forall_visits (rt : runtime)
    (idx : list Index_type) (len : Index_type) :
  fair rt →
  (len ≤ Z.of_nat (length idx) →
   ∃ c, cilk.forall_indirection rt idx len visit no_visits = Some c ∧
        ∀ j, c j = occurrences j (take (Z.to_nat len) idx)) ∧
  (Z.of_nat (length idx) < len →
   cilk.forall_indirection rt idx len visit no_visits = None) ∧
  (∃ c, cilk.forall_UnstructuredISet rt {| getIndex := idx |}
          visit no_visits = Some c ∧
        ∀ j, c j = occurrences j idx).
Proof.
  intros Hfair. split; [|split].
  - intros Hlen. unfold cilk.forall_indirection.
    rewrite indirection_indices_take by done. cbn.
    by apply forall_indices_visits.
  - intros Hlen. unfold cilk.forall_indirection.
    by rewrite indirection_indices_overrun.
  - unfold cilk.forall_UnstructuredISet, getLength. cbn.
    rewrite indirection_indices_length. cbn.
    by apply forall_indices_visits.
Qed.

Lemma indirection_forall_visits_witness :
  fair reversed_pair ∧
  ∃ c, cilk.forall_indirection reversed_pair [7; 3; 7; 9] 3
         visit no_visits = Some c ∧
       c 7 = 2%nat ∧ c 3 = 1%nat ∧ c 9 = 0%nat.
Proof.
  split; [exact reversed_pair_fair|].
  destruct (proj1 (indirection_forall_visits reversed_pair [7; 3; 7; 9] 3
                     reversed_pair_fair) ltac:(cbn; lia)) as (c & Hrun & Hc).
  exists c. split; [exact Hrun|]. rewrite !Hc. done.
Defined.

(** ** The sum reduction of the Cilk back end *)

(** X5. The Cilk [forall_sum] over a range, a range index set, an
    indirection array and an unstructured index set, for a reduced type [T]
    whose addition is associative and commutative with neutral zero, as the
    integers are and as 32-bit unsigned arithmetic with its wrap-around is:
    for a body that adds the contribution of its index to the slot it is
    handed, the caller's total grows by the sum in [T] of the contributions
    of the iterated indices, under every fair schedule and team size, and
    the body runs once per iteration. *)
Theorem cilk_forall_sum_adds_contributions {W T : Type}
    `{!Sum_type T} `{!Sum_laws T} (rt : runtime)
    (contrib : Index_type → T) (eff : Index_type → W → W)
    (sum : T) (w : W) :
  fair rt →
  (∀ begin end_, ∃ σ,
     σ ≡ₚ range_indices begin end_ ∧
     cilk.forall_sum_range rt begin end_ sum (sum_body contrib eff) w
     = Some (T_add sum (T_total contrib (range_indices begin end_)),
             foldl (λ w ii, eff ii w) w σ) ∧
     cilk.forall_sum_RangeISet rt {| getBegin := begin; getEnd := end_ |}
       sum (sum_body contrib eff) w
     = Some (T_add sum (T_total contrib (range_indices begin end_)),
             foldl (λ w ii, eff ii w) w σ)) ∧
  (∀ idx len, len ≤ Z.of_nat (length idx) → ∃ σ,
     σ ≡ₚ take (Z.to_nat len) idx ∧
     cilk.forall_sum_indirection rt idx len sum (sum_body contrib eff) w
     = Some (T_add sum (T_total contrib (take (Z.to_nat len) idx)),
             foldl (λ w ii, eff ii w) w σ)) ∧
  (∀ idx, ∃ σ,
     σ ≡ₚ idx ∧
     cilk.forall_sum_UnstructuredISet rt {| getIndex := idx |} sum
       (sum_body contrib eff) w
     = Some (T_add sum (T_total contrib idx),
             foldl (λ w ii, eff ii w) w σ)).
Proof.
  intros Hfair. split; [|split].
  - intros begin end_. eexists. split; [apply Hfair|].
    unfold cilk.forall_sum_RangeISet, cilk.forall_sum_range. cbn.
    by rewrite forall_sum_indices_spec.
  - intros idx len Hlen. eexists. split; [apply Hfair|].
    unfold cilk.forall_sum_indirection.
    rewrite indirection_indices_take by done. cbn.
    by rewrite forall_sum_indices_spec.
  - intros idx. eexists. split; [apply Hfair|].
    unfold cilk.forall_sum_UnstructuredISet, cilk.forall_sum_indirection,
      getLength. cbn.
    rewrite indirection_indices_length. cbn.
    by rewrite forall_sum_indices_spec.
Qed.

(** With 32-bit unsigned arithmetic: 4294967290 + (5 + 5 + 8) wraps to
    12. *)
Lemma cilk_forall_sum_adds_contributions_witness :
  Sum_laws unsigned ∧ fair reversed_pair ∧
  ∃ σ, σ ≡ₚ [5; 5; 8] ∧
       cilk.forall_sum_UnstructuredISet reversed_pair
         {| getIndex := [5; 5; 8] |} (unsigned_of 4294967290)
         (sum_body unsigned_of visit) no_visits
       = Some (T_add (unsigned_of 4294967290)
                 (T_total unsigned_of [5; 5; 8]),
               foldl (λ w ii, visit ii w) no_visits σ) ∧
       proj1_sig (T_add (unsigned_of 4294967290)
                    (T_total unsigned_of [5; 5; 8]))
       = 12.
Proof.
  split; [exact unsigned_sum_laws|]. split; [exact reversed_pair_fair|].
  destruct (proj2 (proj2 (cilk_forall_sum_adds_contributions reversed_pair
    unsigned_of visit (unsigned_of 4294967290) no_visits
    reversed_pair_fair)) [5; 5; 8]) as (σ & Hσ & Hrun).
  exists σ. split; [exact Hσ|]. split; [exact Hrun | reflexivity].
Defined.

(** X6. The strided [forall_sum], for a positive stride and a reduced type
    whose addition is associative and commutative with neutral zero: the
    caller's total grows by the contributions of [begin], [begin + stride],
    ... below [end], under every fair schedule and team size. *)
Theorem cilk_strided_sum_adds_contributions {W T : Type}
    `{!Sum_type T} `{!Sum_laws T} (rt : runtime)
    (contrib : Index_type → T) (eff : Index_type → W → W)
    (begin end_ stride : Index_type) (sum : T) (w : W) :
  fair rt → 0 < stride →
  let its := (λ k, begin + k * stride)
               <$> seqZ 0 ((end_ - begin + stride - 1) `div` stride) in
  ∃ σ, σ ≡ₚ its ∧
    cilk.forall_sum_range_stride rt begin end_ stride sum
      (sum_body contrib eff) w
    = Some (T_add sum (T_total contrib its),
            foldl (λ w ii, eff ii w) w σ) ∧
    cilk.forall_sum_RangeStrideISet rt
      {| rs_getBegin := begin; rs_getEnd := end_; getStride := stride |}
      sum (sum_body contrib eff) w
    = Some (T_add sum (T_total contrib its),
            foldl (λ w ii, eff ii w) w σ).
Proof.
  intros Hfair Hs its. eexists. split; [apply Hfair|].
  unfold cilk.forall_sum_RangeStrideISet, cilk.forall_sum_range_stride. cbn.
  rewrite range_stride_indices_closed by done. cbn.
  by rewrite forall_sum_indices_spec.
Qed.

Lemma cilk_strided_sum_adds_contributions_witness :
  Sum_laws Z ∧ fair reversed_pair ∧ 0 < 4 ∧
  ∃ w', cilk.forall_sum_range_stride reversed_pair 1 10 4 7
          (sum_body (λ i, i) visit) no_visits
        = Some (7 + (1 + (5 + (9 + 0))), w').
Proof.
  split; [exact Z_sum_laws|].
  split; [exact reversed_pair_fair|]. split; [lia|].
  destruct (cilk_strided_sum_adds_contributions reversed_pair (λ i, i)
              visit 1 10 4 7 no_visits reversed_pair_fair ltac:(lia))
    as (σ & _ & Hrun & _).
  eexists. exact Hrun.
Defined.

(** ** Loops without iterations *)

Lemma indirection_indices_empty idx len :
  len ≤ 0 → indirection_indices idx len = Some [].
Proof. intros. unfold indirection_indices. by rewrite seqZ_nil by lia. Qed.

Lemma forall_sum_HybridISet_nil {W T : Type} `{!Sum_type T} nrt (sum : T)
    (loop_body : @cilk.LOOP_BODY_sum W T) w :
  (∀ x : T, T_add x T_zero = x) → nested_fair nrt →
  cilk.forall_sum_HybridISet nrt [] sum loop_body w = Some (sum, w).
Proof.
  intros Hzero Hfair. unfold cilk.forall_sum_HybridISet, nested_for.
  change (inner_count <$> []) with (@nil nat).
  rewrite strands_nil by done. cbn. by rewrite foldl_T_add_zeros.
Qed.

(** X7. Over an iteration space without indices the [forall] and the
    [forall_sum] of the Cilk back end call no loop body and hand back the
    caller's memory and total unchanged, for every loop body, every fair
    schedule and every reduced type in which adding zero changes nothing: a
    range with [end <= begin], a strided range with [end <= begin] and a
    positive stride, an indirection array with [len <= 0] whatever the
    array, and a hybrid index set without segments. *)
Theorem empty_iteration_space_is_skipped {W T : Type} `{!Sum_type T}
    (rt : runtime) (nrt : nested_runtime)
    (loop_body : Index_type → W → W)
    (sum_loop_body : @cilk.LOOP_BODY_sum W T)
    (sum : T) (w : W) :
  (∀ x : T, T_add x T_zero = x) → fair rt → nested_fair nrt →
  (∀ begin end_, end_ ≤ begin →
     cilk.forall_range rt begin end_ loop_body w = Some w ∧
     cilk.forall_sum_range rt begin end_ sum sum_loop_body w
     = Some (sum, w)) ∧
  (∀ begin end_ stride, 0 < stride → end_ ≤ begin →
     cilk.forall_range_stride rt begin end_ stride loop_body w = Some w ∧
     cilk.forall_sum_range_stride rt begin end_ stride sum sum_loop_body w
     = Some (sum, w)) ∧
  (∀ idx len, len ≤ 0 →
     cilk.forall_indirection rt idx len loop_body w = Some w ∧
     cilk.forall_sum_indirection rt idx len sum sum_loop_body w
     = Some (sum, w)) ∧
  cilk.forall_HybridISet rt [] loop_body w = Some w ∧
  cilk.forall_sum_HybridISet nrt [] sum sum_loop_body w = Some (sum, w).
Proof.
  intros Hzero Hfair Hnfair. split; [|split; [|split; [|split]]].
  - intros begin end_ Hempty.
    unfold cilk.forall_range, cilk.forall_sum_range.
    rewrite range_indices_empty by done.
    by rewrite forall_indices_nil, forall_sum_indices_nil.
  - intros begin end_ stride _ Hempty.
    unfold cilk.forall_range_stride, cilk.forall_sum_range_stride.
    rewrite range_stride_indices_empty by done. cbn.
    by rewrite forall_indices_nil, forall_sum_indices_nil.
  - intros idx len Hempty.
    unfold cilk.forall_indirection, cilk.forall_sum_indirection.
    rewrite indirection_indices_empty by done. cbn.
    by rewrite forall_indices_nil, forall_sum_indices_nil.
  - unfold cilk.forall_HybridISet, parallel_for. cbn.
    by rewrite fair_nil.
  - by apply forall_sum_HybridISet_nil.
Qed.

Lemma empty_iteration_space_is_skipped_witness :
  (∀ x : Z, T_add x T_zero = x) ∧
  fair reversed_pair ∧ nested_fair serial_nested ∧
  cilk.forall_range_stride reversed_pair 9 4 2 visit no_visits
  = Some no_visits ∧
  cilk.forall_sum_range_stride reversed_pair 9 4 2 31
    (sum_body (λ i, i) visit) no_visits
  = Some (31, no_visits).
Proof.
  split; [exact Z.add_0_r|].
  split; [exact reversed_pair_fair|]. split; [exact serial_nested_fair|].
  exact (proj1 (proj2 (empty_iteration_space_is_skipped reversed_pair
    serial_nested visit (sum_body (λ i, i) visit) 31 no_visits
    Z.add_0_r reversed_pair_fair serial_nested_fair))
    9 4 2 ltac:(lia) ltac:(lia)).
Defined.

(** X8. Over an iteration space without indices [forall_minloc] calls no
    loop body and then reads the reducer, in which nothing was recorded:
    it writes the value 0 and the location 0 when the caller's minimum is
    positive and leaves the caller's pair otherwise.  [forall_maxloc] writes
    0 and 0 when the caller's maximum is negative.  This is so for a range,
    a strided range with a positive stride, an indirection array and a
    hybrid index set without segments, for every loop body and under every
    fair schedule. *)
Theorem empty_iteration_space_extremum {W : Type}
    (rt : runtime) (nrt : nested_runtime)
    (loop_body : @cilk.LOOP_BODY_loc W)
    (ext : Z) (loc : Index_type) (w : W) :
  fair rt → nested_fair nrt →
  let r_min := if bool_decide (0 < ext) then Some (0, 0, w)
               else Some (ext, loc, w) in
  let r_max := if bool_decide (ext < 0) then Some (0, 0, w)
               else Some (ext, loc, w) in
  (∀ begin end_, end_ ≤ begin →
     cilk.forall_minloc_range rt begin end_ ext loc loop_body w = r_min ∧
     cilk.forall_maxloc_range rt begin end_ ext loc loop_body w = r_max) ∧
  (∀ begin end_ stride, 0 < stride → end_ ≤ begin →
     cilk.forall_minloc_range_stride rt begin end_ stride ext loc
       loop_body w
     = r_min ∧
     cilk.forall_maxloc_range_stride rt begin end_ stride ext loc
       loop_body w
     = r_max) ∧
  (∀ idx len, len ≤ 0 →
     cilk.forall_minloc_indirection rt idx len ext loc loop_body w = r_min ∧
     cilk.forall_maxloc_indirection rt idx len ext loc loop_body w
     = r_max) ∧
  cilk.forall_minloc_HybridISet nrt [] ext loc loop_body w = r_min ∧
  cilk.forall_maxloc_HybridISet nrt [] ext loc loop_body w = r_max.
Proof.
  intros Hfair Hnfair r_min r_max.
  split; [|split; [|split; [|split]]].
  - intros begin end_ Hempty.
    unfold cilk.forall_minloc_range, cilk.forall_maxloc_range.
    rewrite range_indices_empty by done.
    by rewrite forall_minloc_indices_nil, forall_maxloc_indices_nil.
  - intros begin end_ stride _ Hempty.
    unfold cilk.forall_minloc_range_stride, cilk.forall_maxloc_range_stride.
    rewrite range_stride_indices_empty by done. cbn.
    by rewrite forall_minloc_indices_nil, forall_maxloc_indices_nil.
  - intros idx len Hempty.
    unfold cilk.forall_minloc_indirection, cilk.forall_maxloc_indirection.
    rewrite indirection_indices_empty by done. cbn.
    by rewrite forall_minloc_indices_nil, forall_maxloc_indices_nil.
  - unfold cilk.forall_minloc_HybridISet, nested_for.
    change (inner_count <$> []) with (@nil nat).
    by rewrite strands_nil.
  - unfold cilk.forall_maxloc_HybridISet, nested_for.
    change (inner_count <$> []) with (@nil nat).
    by rewrite strands_nil.
Qed.

Lemma empty_iteration_space_extremum_witness :
  fair reversed_pair ∧ nested_fair serial_nested ∧
  cilk.forall_minloc_indirection reversed_pair [4; 2] 0 9 (-1)
    (min_body (λ i, i) visit) no_visits
  = Some (0, 0, no_visits) ∧
  cilk.forall_maxloc_HybridISet serial_nested [] 9 (-1)
    (max_body (λ i, i) visit) no_visits
  = Some (9, -1, no_visits).
Proof.
  split; [exact reversed_pair_fair|]. split; [exact serial_nested_fair|].
  pose proof (empty_iteration_space_extremum reversed_pair serial_nested
                (min_body (λ i, i) visit) 9 (-1) no_visits
                reversed_pair_fair serial_nested_fair) as Hmin.
  pose proof (empty_iteration_space_extremum reversed_pair serial_nested
                (max_body (λ i, i) visit) 9 (-1) no_visits
                reversed_pair_fair serial_nested_fair) as Hmax.
  cbv zeta in Hmin, Hmax.
  destruct Hmin as (_ & _ & Hind & _). destruct Hmax as (_ & _ & _ & _ & Hh).
  split; [exact (proj1 (Hind [4; 2] 0 ltac:(lia))) | exact Hh].
Defined.

(** ** Min and max with location over strided ranges and indirection arrays *)





(** ** The merge, whatever the loop body *)

(** X11. Whatever the loop body does, [forall_minloc] returns, and it hands
    back either the caller's value and location, both unchanged, or a
    strictly smaller value: it never raises the caller's minimum and never
    moves the location without lowering the value.  This holds under every
    fair schedule for a range with any bounds, given as such or as a range
    index set object, and under every fair interleaving of the nested loops
    for a hybrid index set whose segments hold objects of the class their
    type names.  [forall_maxloc] behaves the same way with the order
    reversed. *)
Theorem extremum_is_kept_or_improved {W : Type}
    (rt : runtime) (nrt : nested_runtime)
    (loop_body : @cilk.LOOP_BODY_loc W) (hset : HybridISet)
    (begin end_ : Index_type) (ext : Z) (loc : Index_type) (w : W) :
  fair rt → nested_fair nrt → well_formed hset →
  let iset := {| getBegin := begin; getEnd := end_ |} in
  (∃ v l w',
     cilk.forall_minloc_range rt begin end_ ext loc loop_body w
     = Some (v, l, w') ∧
     cilk.forall_minloc_RangeISet rt iset ext loc loop_body w
     = Some (v, l, w') ∧ ((v, l) = (ext, loc) ∨ v < ext)) ∧
  (∃ v l w',
     cilk.forall_maxloc_range rt begin end_ ext loc loop_body w
     = Some (v, l, w') ∧
     cilk.forall_maxloc_RangeISet rt iset ext loc loop_body w
     = Some (v, l, w') ∧ ((v, l) = (ext, loc) ∨ ext < v)) ∧
  (∃ v l w',
     cilk.forall_minloc_HybridISet nrt hset ext loc loop_body w
     = Some (v, l, w') ∧ ((v, l) = (ext, loc) ∨ v < ext)) ∧
  (∃ v l w',
     cilk.forall_maxloc_HybridISet nrt hset ext loc loop_body w
     = Some (v, l, w') ∧ ((v, l) = (ext, loc) ∨ ext < v)).
Proof.
  intros Hfair Hnfair Hwf iset. split; [|split; [|split]].
  - unfold cilk.forall_minloc_RangeISet, cilk.forall_minloc_range.
    cbn [iset getBegin getEnd]. rewrite forall_minloc_indices_by.
    destruct (forall_loc_indices_total Z.lt rt (range_indices begin end_)
                ext loc loop_body w Hfair) as (v & l & w' & Hrun & Hcases).
    by exists v, l, w'.
  - unfold cilk.forall_maxloc_RangeISet, cilk.forall_maxloc_range.
    cbn [iset getBegin getEnd]. rewrite forall_maxloc_indices_by.
    destruct (forall_loc_indices_total gt_rel rt (range_indices begin end_)
                ext loc loop_body w Hfair) as (v & l & w' & Hrun & Hcases).
    by exists v, l, w'.
  - rewrite forall_minloc_HybridISet_by.
    by apply forall_loc_HybridISet_total.
  - rewrite forall_maxloc_HybridISet_by.
    by apply (forall_loc_HybridISet_total gt_rel).
Qed.

Lemma extremum_is_kept_or_improved_witness :
  let hset := [range_segment 0 3;
               {| m_type := _Unstructured_;
                  m_segment := IsUnstructured {| getIndex := [9; 4] |} |}] in
  fair reversed_pair ∧ nested_fair serial_nested ∧ well_formed hset ∧
  ∃ v l w',
    cilk.forall_minloc_HybridISet serial_nested hset 6 (-1)
      (λ ii m l w, (m + ii, ii, visit ii w)) no_visits
    = Some (v, l, w') ∧ ((v, l) = (6, -1) ∨ v < 6).
Proof.
  assert (well_formed
            [range_segment 0 3;
             {| m_type := _Unstructured_;
                m_segment := IsUnstructured {| getIndex := [9; 4] |} |}])
    as Hwf by (repeat constructor; by eexists).
  split; [exact reversed_pair_fair|]. split; [exact serial_nested_fair|].
  split; [exact Hwf|].
  exact (proj1 (proj2 (proj2 (extremum_is_kept_or_improved reversed_pair
    serial_nested
    (λ ii m l w, (m + ii, ii, visit ii w)) _ 0 0 6 (-1) no_visits
    reversed_pair_fair serial_nested_fair Hwf)))).
Defined.

(** ** Accumulating over consecutive ranges *)

Lemma range_indices_split a b c :
  a ≤ b → b ≤ c →
  range_indices a c = range_indices a b ++ range_indices b c.
Proof.
  intros Hab Hbc. unfold range_indices.
  replace (c - a) with ((b - a) + (c - b)) by lia.
  rewrite seqZ_app by lia. do 2 f_equal. lia.
Qed.

(** X15. Sum reductions chain, for a reduced type whose addition is
    associative and commutative with neutral zero: for a body that adds the
    contribution of its index to the slot it is handed, running
    [forall_sum] over [a, b) and then, with the total it returned, over
    [b, c) gives the total and the visits of one [forall_sum] over [a, c),
    under every fair schedule and team size. *)
Theorem sum_accumulates_over_consecutive_ranges {T : Type}
    `{!Sum_type T} `{!Sum_laws T} (rt : runtime)
    (a b c : Index_type) (contrib : Index_type → T) (sum : T) :
  fair rt → a ≤ b → b ≤ c →
  ∃ s1 c1 s2 c2 c3,
    cilk.forall_sum_range rt a b sum (sum_body contrib visit) no_visits
    = Some (s1, c1) ∧
    cilk.forall_sum_range rt b c s1 (sum_body contrib visit) c1
    = Some (s2, c2) ∧
    cilk.forall_sum_range rt a c sum (sum_body contrib visit) no_visits
    = Some (s2, c3) ∧
    ∀ j, c2 j = c3 j.
Proof.
  intros Hfair Hab Hbc. unfold cilk.forall_sum_range.
  rewrite !forall_sum_indices_spec by done.
  do 5 eexists. split; [done|].
  rewrite forall_sum_indices_spec by done.
  split; [done|]. split.
  - rewrite (range_indices_split a b c), T_total_app by done.
    by rewrite T_add_assoc.
  - intros j. rewrite !foldl_visit. unfold no_visits.
    rewrite !(occurrences_Permutation j _ _ (proj1 (Hfair _))).
    rewrite ?(range_indices_split a b c) by done.
    rewrite occurrences_app. lia.
Qed.

(** With 32-bit unsigned arithmetic, across the wrap-around. *)
Lemma sum_accumulates_over_consecutive_ranges_witness :
  Sum_laws unsigned ∧ fair reversed_pair ∧ 0 ≤ 3 ∧ 3 ≤ 7 ∧
  ∃ s1 c1 s2 c2 c3,
    cilk.forall_sum_range reversed_pair 0 3 (unsigned_of 4294967290)
      (sum_body unsigned_of visit) no_visits = Some (s1, c1) ∧
    cilk.forall_sum_range reversed_pair 3 7 s1
      (sum_body unsigned_of visit) c1
    = Some (s2, c2) ∧
    cilk.forall_sum_range reversed_pair 0 7 (unsigned_of 4294967290)
      (sum_body unsigned_of visit) no_visits = Some (s2, c3) ∧
    ∀ j, c2 j = c3 j.
Proof.
  split; [exact unsigned_sum_laws|].
  split; [exact reversed_pair_fair|]. split; [lia|]. split; [lia|].
  exact (sum_accumulates_over_consecutive_ranges reversed_pair 0 3 7
    unsigned_of (unsigned_of 4294967290) reversed_pair_fair
    ltac:(lia) ltac:(lia)).
Defined.



(** ** Hybrid index sets with segments of both kinds *)

(** A segment of an unhandled kind stands for no index. *)
Lemma unhandled_indices seg :
  handled seg = false → segment_indices seg = Some [].
Proof. unfold handled, segment_indices. by destruct (m_type seg). Qed.

Lemma hybrid_indices_app hset1 hset2 :
  hybrid_indices (hset1 ++ hset2)
  = hybrid_indices hset1 ++ hybrid_indices hset2.
Proof.
  induction hset1 as [|seg hset1 IH]; simpl; [done|].
  by rewrite IH, (assoc_L (++)).
Qed.

Lemma hybrid_indices_skip pre seg post :
  handled seg = false →
  hybrid_indices (pre ++ seg :: post) = hybrid_indices (pre ++ post).
Proof.
  intros Hseg. rewrite !hybrid_indices_app. simpl.
  by rewrite (unhandled_indices seg Hseg).
Qed.

Lemma well_formed_insert pre seg post :
  handled seg = false → well_formed (pre ++ post) →
  well_formed (pre ++ seg :: post).
Proof.
  intros Hseg Hwf. apply Forall_app in Hwf as [Hpre Hpost].
  apply Forall_app. split; [done|]. constructor; [|done].
  rewrite (unhandled_indices seg Hseg). by eexists.
Qed.





Lemma productive_insert pre seg post :
  handled seg = false → productive (pre ++ post) →
  productive (pre ++ seg :: post).
Proof.
  intros Hseg Hprod. apply Forall_app in Hprod as [Hpre Hpost].
  apply Forall_app. split; [done|]. constructor; [|done].
  exists []. split; [by apply unhandled_indices|]. by rewrite Hseg.
Qed.



(** ** A hybrid index set with an empty segment *)



(** ** The reduction parameters of the OpenMP overloads *)

Section omp_parameters.
Context {P W : Type} `{!omp.ParamMultiplexer P}.
Implicit Types (omp_priv : list P) (w : W) (f_params : P).
Implicit Types (stmt : Z → P → W → option (P * W)).

(** A loop statement that leaves the private copy alone leaves all of them
    as they were initialized. *)
Lemma omp_iterations_untouched (gw : Index_type → W → W)
    begin_it stmt n sched omp_priv w :
  runs_body begin_it stmt (λ idx p w, (p, gw idx w)) →
  Forall (λ p, (p.1 < n)%nat ∧ 0 ≤ p.2 < Z.of_nat (length begin_it)) sched →
  length omp_priv = n →
  run_iterations (omp_iteration stmt) sched (omp_priv, w)
  = Some (omp_priv,
          foldl (λ w idx, gw idx w) w (elements_at begin_it sched.*2)).
Proof.
  intros Hiter Hsched. revert w.
  induction Hsched as [|[th i] sched [Hth Hi] _ IH]; intros w Hlen; [done|].
  simpl in Hth, Hi.
  destruct (lookup_lt_is_Some_2 omp_priv th) as [p Hp]; [lia|].
  destruct (lookup_lt_is_Some_2 begin_it (Z.to_nat i)) as [idx Hidx]; [lia|].
  cbn [run_iterations].
  rewrite (omp_iteration_step _ _ _ _ _ _ _ _ _ Hiter Hp Hidx).
  cbn [mbind option_bind fst snd].
  rewrite list_insert_id by done. rewrite IH by done.
  unfold elements_at. rewrite fmap_cons. cbn [snd omap list_omap].
  by rewrite Hidx.
Qed.

Lemma omp_for_reduction_untouched rt iter (loop_body : omp.Func P W)
    f_params w :
  fair rt →
  ∃ σ, σ ≡ₚ iter ∧
    omp.omp_for_reduction rt (Z.of_nat (length iter))
      (omp.body_call iter loop_body) f_params w
    = Some (foldl omp.combine f_params (replicate (nworkers rt) f_params),
            foldl (λ w idx, omp.call loop_body idx w) w σ).
Proof.
  intros Hfair. unfold omp.omp_for_reduction, parallel_for.
  pose proof (omp_iterations_untouched (omp.call loop_body) iter
                (omp.body_call iter loop_body) (nworkers rt)
                (schedule rt (seqZ 0 (Z.of_nat (length iter))))
                (replicate (nworkers rt) f_params) w
                (body_call_runs iter loop_body)
                (fair_positions rt _ Hfair)
                (length_replicate _ _)) as Hrun.
  unfold omp_iteration in Hrun. rewrite Hrun. cbn.
  eexists. split; [by apply elements_at_fair | done].
Qed.

Lemma foldl_combine_measure (μ : P → Z) f_params omp_priv :
  (∀ a b, μ (omp.combine a b) = μ a + μ b) →
  μ (foldl omp.combine f_params omp_priv)
  = μ f_params + total (λ x, x) (μ <$> omp_priv).
Proof.
  intros Hμ. revert f_params.
  induction omp_priv as [|p omp_priv IH]; intros f_params; cbn; [lia|].
  rewrite IH, Hμ. lia.
Qed.

End omp_parameters.

(** X17. The OpenMP overloads that call [loop_body(begin_it[i])], namely
    the one for the [Runtime] schedule and the three [nowait] ones, never
    hand the reduction parameters to the loop body.  The parameters they
    return are those of a loop that did nothing: the initialized pack
    combined with one initialized private copy per thread, then resolved;
    they depend neither on the loop body nor on the iterable.  The body
    itself is still called once for every element. *)
Theorem index_only_overloads_leave_parameters {P W : Type}
    `{!omp.ParamMultiplexer P} (ort : omp.omp_runtime)
    (iter : list Index_type) (loop_body : omp.Func P W) (f_params : P)
    (w : W) :
  omp.omp_fair ort →
  let untouched (rt : runtime) :=
    omp.resolve (foldl omp.combine (omp.init f_params)
                   (replicate (nworkers rt) (omp.init f_params))) in
  (∃ σ, σ ≡ₚ iter ∧
     omp.forall_impl ort omp.Runtime iter loop_body f_params w
     = Some (untouched (omp.team ort omp.sched_runtime false),
             foldl (λ w idx, omp.call loop_body idx w) w σ)) ∧
  (∃ σ, σ ≡ₚ iter ∧
     omp.forall_impl_nowait_Auto ort iter loop_body f_params w
     = Some (untouched (omp.team ort omp.sched_none true),
             foldl (λ w idx, omp.call loop_body idx w) w σ)) ∧
  (∀ ChunkSize, ∃ σ, σ ≡ₚ iter ∧
     omp.forall_impl_nowait_Static ort ChunkSize iter loop_body f_params w
     = Some (untouched
               (omp.team ort
                  (if bool_decide (ChunkSize ≤ 0) then omp.sched_static
                   else omp.sched_static_chunk ChunkSize) true),
             foldl (λ w idx, omp.call loop_body idx w) w σ)).
Proof.
  intros Hfair untouched. split; [|split].
  - destruct (omp_for_reduction_untouched
                (omp.team ort omp.sched_runtime false) iter loop_body
                (omp.init f_params) w (Hfair _ _)) as (σ & Hσ & Hrun).
    exists σ. split; [done|]. unfold omp.forall_impl. cbn zeta.
    by rewrite Hrun.
  - destruct (omp_for_reduction_untouched
                (omp.team ort omp.sched_none true) iter loop_body
                (omp.init f_params) w (Hfair _ _)) as (σ & Hσ & Hrun).
    exists σ. split; [done|]. unfold omp.forall_impl_nowait_Auto. cbn zeta.
    by rewrite Hrun.
  - intros ChunkSize. unfold omp.forall_impl_nowait_Static. cbn zeta.
    case_bool_decide.
    + destruct (omp_for_reduction_untouched
                  (omp.team ort omp.sched_static true) iter loop_body
                  (omp.init f_params) w (Hfair _ _)) as (σ & Hσ & Hrun).
      exists σ. split; [done|]. by rewrite Hrun.
    + destruct (omp_for_reduction_untouched
                  (omp.team ort (omp.sched_static_chunk ChunkSize) true)
                  iter loop_body (omp.init f_params) w (Hfair _ _))
        as (σ & Hσ & Hrun).
      exists σ. split; [done|]. by rewrite Hrun.
Qed.

Lemma index_only_overloads_leave_parameters_witness :
  omp.omp_fair serial_omp ∧
  ∃ c, omp.forall_impl_nowait_Static serial_omp 2 [4; 6; 5]
         (reduce_sum_body (λ i, i) visit) {| omp.val := 0; omp.target := 10 |}
         no_visits
       = Some ({| omp.val := 0; omp.target := 10 |}, c).
Proof.
  split; [exact serial_omp_fair|].
  destruct (proj2 (proj2 (index_only_overloads_leave_parameters serial_omp
                            [4; 6; 5] (reduce_sum_body (λ i, i) visit)
                            {| omp.val := 0; omp.target := 10 |} no_visits
                            serial_omp_fair)) 2) as (σ & _ & Hrun).
  eexists. exact Hrun.
Defined.

(** X18. The OpenMP overloads for the [Auto], [Static], [Dynamic] and
    [Guided] schedules, with any chunk size, hand the body a private copy of
    the reduction parameters through [invoke_body].  For every quantity of
    the pack that [combine] adds up and to which the body adds the
    contribution of its index, the pack that reaches [resolve] holds the sum
    of the contributions of all elements of the iterable, plus the quantity
    of the initialized pack once for the original and once for the private
    copy of each thread of the team that runs the pragma of the overload;
    with an initialization to zero it is the sum of the contributions
    alone.  The body runs once for every element, under every fair schedule
    and team size. *)
Theorem scheduled_overloads_collect_contributions {P W : Type}
    `{!omp.ParamMultiplexer P} (μ : P → Z) (contrib : Index_type → Z)
    (gp : Index_type → P → P) (gw : Index_type → W → W)
    (ort : omp.omp_runtime) (p : omp.Schedule) (iter : list Index_type)
    (loop_body : omp.Func P W) (f_params : P) (w : W) :
  omp.omp_fair ort → p ≠ omp.Runtime →
  (∀ a b, μ (omp.combine a b) = μ a + μ b) →
  (∀ idx q w, omp.call_params loop_body idx q w = (gp idx q, gw idx w)) →
  (∀ idx q, μ (gp idx q) = μ q + contrib idx) →
  let n := nworkers (omp.team ort (clause_of p) false) in
  ∃ f' σ,
    σ ≡ₚ iter ∧
    omp.forall_impl ort p iter loop_body f_params w
    = Some (omp.resolve f', foldl (λ w idx, gw idx w) w σ) ∧
    μ f' = (1 + Z.of_nat n) * μ (omp.init f_params) + total contrib iter.
Proof.
  intros Hfair Hp Hcombine Hcall Hμ n.
  assert (runs_body iter (omp.body_invoke iter loop_body)
            (λ idx q w, (gp idx q, gw idx w))) as Hruns.
  { intros i idx q w' Hidx. unfold omp.body_invoke, omp.invoke_body.
    rewrite Hidx. cbn. by rewrite Hcall. }
  assert (∀ rt, fair rt → ∃ f' σ,
    σ ≡ₚ iter ∧
    omp.omp_for_reduction rt (Z.of_nat (length iter))
      (omp.body_invoke iter loop_body) (omp.init f_params) w
    = Some (f', foldl (λ w idx, gw idx w) w σ) ∧
    μ f' = (1 + Z.of_nat (nworkers rt)) * μ (omp.init f_params)
           + total contrib iter) as Hi.
  { intros rt Hrt.
    destruct (omp_for_reduction_spec μ contrib gp gw rt iter
                (omp.body_invoke iter loop_body) (omp.init f_params) w
                Hruns Hμ Hrt) as (priv & σ & Hσ & Hrun & Htot).
    eexists _, σ. split; [done|]. split; [exact Hrun|].
    rewrite foldl_combine_measure, Htot by done. lia. }
  unfold omp.forall_impl. unfold n, clause_of.
  destruct p as [|c|c|c|]; [| | | |done]; cbn zeta; try case_bool_decide.
  all: match goal with
       | |- context [omp.omp_for_reduction ?rt _ _ _ _] =>
           destruct (Hi rt (Hfair _ _)) as (f' & σ & Hσ & Hrun & Hf');
           exists f', σ; rewrite Hrun; by cbn
       end.
Qed.

Lemma scheduled_overloads_collect_contributions_witness :
  omp.omp_fair serial_omp ∧ omp.Guided 2 ≠ omp.Runtime ∧
  ∃ f' σ,
    σ ≡ₚ [4; 6; 5] ∧
    omp.forall_impl serial_omp (omp.Guided 2) [4; 6; 5]
      (reduce_sum_body (λ i, i * i) visit)
      {| omp.val := 0; omp.target := 10 |} no_visits
    = Some (omp.resolve f', foldl (λ w idx, visit idx w) no_visits σ) ∧
    omp.val f'
    = (1 + Z.of_nat
             (nworkers (omp.team serial_omp (clause_of (omp.Guided 2))
                          false)))
      * omp.val (omp.init {| omp.val := 0; omp.target := 10 |})
      + total (λ i, i * i) [4; 6; 5].
Proof.
  split; [exact serial_omp_fair|]. split; [done|].
  exact (scheduled_overloads_collect_contributions omp.val (λ i, i * i)
    (λ idx r, {| omp.val := omp.val r + idx * idx;
                 omp.target := omp.target r |}) visit
    serial_omp (omp.Guided 2) [4; 6; 5]
    (reduce_sum_body (λ i, i * i) visit)
    {| omp.val := 0; omp.target := 10 |} no_visits
    serial_omp_fair ltac:(done) ltac:(done) ltac:(done) ltac:(done)).
Defined.

(** X19. Over an iterable without elements every OpenMP overload, whatever
    the schedule, calls no loop body: it hands back the caller's memory
    unchanged, and the parameters it returns are the initialized pack
    combined with one initialized private copy per thread of the team that
    runs the pragma of the overload, then resolved. *)
Theorem openmp_empty_iterable_is_skipped {P W : Type}
    `{!omp.ParamMultiplexer P} (ort : omp.omp_runtime)
    (loop_body : omp.Func P W) (f_params : P) (w : W) :
  omp.omp_fair ort →
  let untouched (rt : runtime) :=
    omp.resolve (foldl omp.combine (omp.init f_params)
                   (replicate (nworkers rt) (omp.init f_params))) in
  (∀ p,
     omp.forall_impl ort p [] loop_body f_params w
     = Some (untouched (omp.team ort (clause_of p) false), w)) ∧
  omp.forall_impl_nowait_Auto ort [] loop_body f_params w
  = Some (untouched (omp.team ort omp.sched_none true), w) ∧
  (∀ ChunkSize,
     omp.forall_impl_nowait_Static ort ChunkSize [] loop_body f_params w
     = Some (untouched
               (omp.team ort
                  (if bool_decide (ChunkSize ≤ 0) then omp.sched_static
                   else omp.sched_static_chunk ChunkSize) true), w)).
Proof.
  intros Hfair untouched.
  assert (∀ rt stmt, fair rt →
    omp.omp_for_reduction rt (Z.of_nat (length (@nil Index_type))) stmt
      (omp.init f_params) w
    = Some (foldl omp.combine (omp.init f_params)
              (replicate (nworkers rt) (omp.init f_params)), w)) as Hi.
  { intros rt stmt Hrt. unfold omp.omp_for_reduction, parallel_for. cbn.
    by rewrite fair_nil. }
  split; [|split].
  - intros p. unfold omp.forall_impl, clause_of.
    destruct p as [|c|c|c|]; cbn zeta; try case_bool_decide.
    all: by rewrite (Hi _ _ (Hfair _ _)).
  - unfold omp.forall_impl_nowait_Auto. cbn zeta.
    by rewrite (Hi _ _ (Hfair _ _)).
  - intros ChunkSize. unfold omp.forall_impl_nowait_Static. cbn zeta.
    case_bool_decide; by rewrite (Hi _ _ (Hfair _ _)).
Qed.

Lemma openmp_empty_iterable_is_skipped_witness :
  omp.omp_fair serial_omp ∧
  omp.forall_impl serial_omp (omp.Dynamic 0) []
    (reduce_sum_body (λ i, i) visit) {| omp.val := 5; omp.target := 10 |}
    no_visits
  = Some (omp.resolve
            (foldl omp.combine
               (omp.init {| omp.val := 5; omp.target := 10 |})
               (replicate
                  (nworkers (omp.team serial_omp
                               (clause_of (omp.Dynamic 0)) false))
                  (omp.init {| omp.val := 5; omp.target := 10 |}))),
          no_visits).
Proof.
  split; [exact serial_omp_fair|].
  exact (proj1 (openmp_empty_iterable_is_skipped serial_omp
    (reduce_sum_body (λ i, i) visit) {| omp.val := 5; omp.target := 10 |}
    no_visits serial_omp_fair) (omp.Dynamic 0)).
Defined.
